(** * The Node.js module-loading runtime of Turbopack

    A shallow embedding of
    [turbopack/crates/turbopack-ecmascript-runtime/js/src/nodejs/runtime.ts]:
    the factory table, the module cache, the chunk loaders and the module
    instantiator, with the properties of its specification settled on it.

    JavaScript strings are sequences of UTF-16 code units, objects live in
    explicit stores and are named by references, so that "the same record"
    and "the same factory" are equalities of references.  The process-wide
    registries of the source are the fields of one [State] that every
    operation threads.

    The last part covers the helpers for stack frames of
    [packages/next/src/server/lib/source-maps.ts]: the search for the
    section of an index source map, the ignore list, the virtual URLs of
    server components and the anonymous frames between ignored ones. *)

From Stdlib Require Import Strings.String Strings.Ascii.
From stdpp Require Import gmap list.

Set Warnings "-register-all".

(** ** Strings *)

(** A JS string: its UTF-16 code units. *)
Abbreviation jsstring := (list N) (only parsing).

(** A source literal, code unit by code unit. *)
Definition lit (s : string) : jsstring :=
  List.map N_of_ascii (list_ascii_of_string s).
Arguments lit s%_string.

Abbreviation ModuleId := (list N) (only parsing).
Abbreviation ChunkPath := (list N) (only parsing).

(** ** The regular expression of [isJs] *)

(** The constructs that [regexJsUrl] uses (no flags: [.] excludes the line
    terminators and [$] is the end of the input). *)
Inductive regex : Type :=
  | RLit (c : N)
  | RCat (r1 r2 : regex)
  | ROpt (r : regex)
  | RStar (p : N -> bool)
  | REnd.

(** Backtracking matcher: [rmatch r s k] matches [r] at the front of [s]
    and hands the rest to [k]; greedy choices come first. *)
Fixpoint rstar (p : N -> bool) (s : jsstring) (k : jsstring -> bool) : bool :=
  match s with
  | c :: t => (p c && rstar p t k) || k s
  | [] => k s
  end.

Fixpoint rmatch (r : regex) (s : jsstring) (k : jsstring -> bool) : bool :=
  match r with
  | RLit c => match s with x :: t => N.eqb x c && k t | [] => false end
  | RCat r1 r2 => rmatch r1 s (fun s' => rmatch r2 s' k)
  | ROpt r1 => rmatch r1 s k || k s
  | RStar p => rstar p s k
  | REnd => match s with [] => k s | _ :: _ => false end
  end.

(** [RegExp.prototype.test] without the g and y flags: a match may start at
    any index. *)
Fixpoint test (r : regex) (s : jsstring) : bool :=
  rmatch r s (fun _ => true) ||
  match s with
  | [] => false
  | _ :: t => test r t
  end.

Definition ch (a : ascii) : N := N_of_ascii a.
Arguments ch a%_char.

(** [[^#]] *)
Definition notHash (c : N) : bool := negb (N.eqb c (ch "#")).

(** LineTerminator: LF, CR, LS (U+2028), PS (U+2029). *)
Definition isLineTerminator (c : N) : bool :=
  N.eqb c 10 || N.eqb c 13 || N.eqb c 8232 || N.eqb c 8233.

(** [.] *)
Definition dot (c : N) : bool := negb (isLineTerminator c).

(** The literal of line 359, piece by piece: the three code units of
    [.js], the optional query group ([?] and a run of [[^#]]), the optional
    fragment group ([#] and a run of [.]), and [$]. *)
Definition regexJsUrl : regex :=
  RCat (RLit (ch "."))
  (RCat (RLit (ch "j"))
  (RCat (RLit (ch "s"))
  (RCat (ROpt (RCat (RLit (ch "?")) (RStar notHash)))
  (RCat (ROpt (RCat (RLit (ch "#")) (RStar dot)))
        REnd)))).

Definition isJs (chunkUrlOrPath : jsstring) : bool :=
  test regexJsUrl chunkUrlOrPath.

(** The three continuations of the literal, from the end backwards. *)
Definition atEnd (s : jsstring) : bool :=
  rmatch REnd s (fun _ => true).
Definition fragmentThenEnd (s : jsstring) : bool :=
  rmatch (RCat (ROpt (RCat (RLit (ch "#")) (RStar dot))) REnd) s (fun _ => true).
Definition queryThenRest (s : jsstring) : bool :=
  rmatch (RCat (ROpt (RCat (RLit (ch "?")) (RStar notHash)))
         (RCat (ROpt (RCat (RLit (ch "#")) (RStar dot))) REnd)) s (fun _ => true).

(** The same set of paths in the words of the documentation: the path ends
    with [.js], optionally followed by a [?query] (free of [#]) and by a
    [#fragment] (one line). *)
Definition isQuery (q : jsstring) : Prop :=
  q = [] \/ exists q', q = ch "?" :: q' /\ Forall (fun c => c <> ch "#") q'.

Definition isFragment (f : jsstring) : Prop :=
  f = [] \/ exists f', f = ch "#" :: f' /\ Forall (fun c => isLineTerminator c = false) f'.

Definition endsWithJs (p : jsstring) : Prop :=
  exists pre q f, p = pre ++ lit ".js" ++ q ++ f /\ isQuery q /\ isFragment f.

(** ** Values *)

(** JS values as far as the runtime looks at them: it tests truthiness,
    compares references and stores thrown values. *)
Inductive Value : Type :=
  | VUndefined
  | VNull
  | VBool (b : bool)
  | VNumber (z : Z)
  | VString (s : jsstring)
  | VError (ref : nat) (message : jsstring) (cause : option Value)
  | VObject (ref : nat).

(** ToBoolean *)
Definition truthy (v : Value) : bool :=
  match v with
  | VUndefined | VNull => false
  | VBool b => b
  | VNumber z => negb (Z.eqb z 0)
  | VString s => negb (bool_decide (s = []))
  | VError _ _ _ | VObject _ => true
  end.

(** [===]: primitives by value, objects by reference. *)
Definition strictEquals (a b : Value) : bool :=
  match a, b with
  | VUndefined, VUndefined => true
  | VNull, VNull => true
  | VBool x, VBool y => bool_decide (x = y)
  | VNumber x, VNumber y => Z.eqb x y
  | VString x, VString y => bool_decide (x = y)
  | VError x _ _, VError y _ _ => Nat.eqb x y
  | VObject x, VObject y => Nat.eqb x y
  | _, _ => false
  end.

(** A plain object: its own properties. *)
Abbreviation Obj := (gmap (list N) Value) (only parsing).

(** ** Provenance *)

Inductive SourceInfo : Type :=
  | Runtime (chunkPath : ChunkPath)
  | Parent (parentId : ModuleId).

Definition stringifySourceInfo (source : SourceInfo) : jsstring :=
  match source with
  | Runtime chunkPath => lit "runtime for chunk " ++ chunkPath
  | Parent parentId => lit "parent module " ++ parentId
  end.

(** ** Chunks and factories *)

Inductive ChunkData : Type :=
  | ChunkDataPath (path : ChunkPath)
  | ChunkDataObject (path : ChunkPath).

Definition chunkDataPath (chunkData : ChunkData) : ChunkPath :=
  match chunkData with
  | ChunkDataPath p => p
  | ChunkDataObject p => p
  end.

(** What a module factory does with the context it is called with.  Each
    command is one use of a field of the context object built by
    [instantiateModule] (lines 266-295).  The context also hands out the
    module cache and the factory table themselves ([c], [M]); deleting from
    them is the eviction that hot reloading does from outside this file, and
    is not among the commands. *)
Inductive cmd : Type :=
  | CRequire (id : ModuleId)                  (* r(id) *)
  | CExport (key : jsstring) (v : Value)      (* e[key] = v *)
  | CModuleExports (v : Value)                (* m.exports = v *)
  | CNamespaceObject (v : Value)              (* m.namespaceObject = v, as the ESM setters do *)
  | CLoadChunkAsync (chunkData : ChunkData)   (* l(chunkData) *)
  | CClearChunkCache                          (* C() *)
  | CThrow (v : Value)                        (* throw v *)
  | CThrowNew (message : jsstring)            (* throw new Error(message) *)
  | CTry (body handler : list cmd).           (* try { body } catch { handler } *)

(** A factory is a function object: [fref] is its identity, [fbody] its
    code. *)
Record ModuleFactory : Type := {
  fref : nat;
  fbody : list cmd;
}.

(** An entry of a chunk's table: a factory, or [[factory, otherIds]]. *)
Inductive CompressedEntry : Type :=
  | Plain (moduleFactory : ModuleFactory)
  | Shared (moduleFactoryFn : ModuleFactory) (otherIds : list ModuleId).

(** [Object.entries(chunkModules)], in its order. *)
Abbreviation CompressedModuleFactories := (list (list N * CompressedEntry)) (only parsing).

(** The body of the [for ... of Object.entries(chunkModules)] loop; the loop
    of [loadChunkPath] (lines 119-131) and the one of [loadChunkUncached]
    (lines 153-165) are the same text. *)
Definition registerEntry (moduleFactories : gmap ModuleId ModuleFactory)
    (entry : ModuleId * CompressedEntry) : gmap ModuleId ModuleFactory :=
  let '(moduleId, moduleFactory) := entry in
  match moduleFactories !! moduleId with
  | Some _ => moduleFactories
  | None =>
      match moduleFactory with
      | Shared moduleFactoryFn otherIds =>
          foldl (fun acc otherModuleId => <[otherModuleId := moduleFactoryFn]> acc)
                (<[moduleId := moduleFactoryFn]> moduleFactories) otherIds
      | Plain f => <[moduleId := f]> moduleFactories
      end
  end.

Definition registerFactories (moduleFactories : gmap ModuleId ModuleFactory)
    (chunkModules : CompressedModuleFactories) : gmap ModuleId ModuleFactory :=
  foldl registerEntry moduleFactories chunkModules.

(** The alias ids that an entry lists. *)
Definition aliasIds (entry : ModuleId * CompressedEntry) : list ModuleId :=
  match entry.2 with
  | Plain _ => []
  | Shared _ otherIds => otherIds
  end.

(** ** The host *)

Inductive RequireResult : Type :=
  | Required (chunkModules : CompressedModuleFactories)
  | RequireThrows (e : Value).

(** What the runtime takes from its host and from the shared runtime
    utilities, none of which is in this file of the source. *)
Record Env : Type := {
  (** the constant RUNTIME_ROOT *)
  RUNTIME_ROOT : jsstring;
  (** path.resolve *)
  path_resolve : jsstring -> jsstring -> jsstring;
  (** Node's require of a resolved chunk file; its outcome may depend on the
      requires made so far *)
  node_require : list jsstring -> jsstring -> RequireResult;
  (** interopEsm(raw, ns) of shared/runtime-utils.ts: it defines properties
      on objects *)
  interopEsm : Value -> Value -> gmap nat Obj -> gmap nat Obj;
  (** whether commonJsRequire rethrows the error of a broken module *)
  requireRethrows : bool;
}.

(** ** Module records and promises *)

Record Module : Type := {
  exports : Value;
  error : Value;
  loaded : bool;
  id : ModuleId;
  namespaceObject : Value;
}.

(** [module.id], for the places where [id] names a parameter. *)
Definition idOf (module : Module) : ModuleId := id module.

(** The promises that [loadChunkAsync] returns: the two module-level
    resolved promises, or a rejected promise made on a failed load. *)
Inductive Promise : Type :=
  | unsupportedLoadChunk
  | loadedChunk
  | Rejected (ref : nat) (reason : Value).

Definition isResolved (p : Promise) : bool :=
  match p with
  | unsupportedLoadChunk | loadedChunk => true
  | Rejected _ _ => false
  end.

(** One call of [r(id)] inside a factory, as an observer sees it: the record
    of the module that asked, the id asked for, the record found, its
    [exports] and [loaded] at that moment. *)
Record Capture : Type := {
  cap_by : nat;
  cap_of : ModuleId;
  cap_module : nat;
  cap_exports : Value;
  cap_loaded : bool;
}.

(** ** State *)

Record State : Type := {
  moduleFactories : gmap ModuleId ModuleFactory;
  moduleCache : gmap ModuleId nat;
  loadedChunks : gset ChunkPath;
  chunkCache : gmap ChunkPath Promise;
  (** the store of Module objects and the store of plain objects *)
  modules : gmap nat Module;
  objects : gmap nat Obj;
  nextRef : nat;
  (** observers: the resolved paths given to require, the ids whose factory
      was called, the requires answered *)
  requireLog : list jsstring;
  factoryCalls : list ModuleId;
  requireTrace : list Capture;
}.

(** The state at process start. *)
Definition initialState : State := {|
  moduleFactories := ∅; moduleCache := ∅; loadedChunks := ∅; chunkCache := ∅;
  modules := ∅; objects := ∅; nextRef := 0;
  requireLog := []; factoryCalls := []; requireTrace := [];
|}.

Definition set_moduleFactories (f : gmap ModuleId ModuleFactory -> gmap ModuleId ModuleFactory) (st : State) : State :=
  {| moduleFactories := f (moduleFactories st); moduleCache := moduleCache st;
     loadedChunks := loadedChunks st; chunkCache := chunkCache st;
     modules := modules st; objects := objects st; nextRef := nextRef st;
     requireLog := requireLog st; factoryCalls := factoryCalls st;
     requireTrace := requireTrace st |}.

Definition set_moduleCache (f : gmap ModuleId nat -> gmap ModuleId nat) (st : State) : State :=
  {| moduleFactories := moduleFactories st; moduleCache := f (moduleCache st);
     loadedChunks := loadedChunks st; chunkCache := chunkCache st;
     modules := modules st; objects := objects st; nextRef := nextRef st;
     requireLog := requireLog st; factoryCalls := factoryCalls st;
     requireTrace := requireTrace st |}.

Definition set_loadedChunks (f : gset ChunkPath -> gset ChunkPath) (st : State) : State :=
  {| moduleFactories := moduleFactories st; moduleCache := moduleCache st;
     loadedChunks := f (loadedChunks st); chunkCache := chunkCache st;
     modules := modules st; objects := objects st; nextRef := nextRef st;
     requireLog := requireLog st; factoryCalls := factoryCalls st;
     requireTrace := requireTrace st |}.

Definition set_chunkCache (f : gmap ChunkPath Promise -> gmap ChunkPath Promise) (st : State) : State :=
  {| moduleFactories := moduleFactories st; moduleCache := moduleCache st;
     loadedChunks := loadedChunks st; chunkCache := f (chunkCache st);
     modules := modules st; objects := objects st; nextRef := nextRef st;
     requireLog := requireLog st; factoryCalls := factoryCalls st;
     requireTrace := requireTrace st |}.

Definition set_modules (f : gmap nat Module -> gmap nat Module) (st : State) : State :=
  {| moduleFactories := moduleFactories st; moduleCache := moduleCache st;
     loadedChunks := loadedChunks st; chunkCache := chunkCache st;
     modules := f (modules st); objects := objects st; nextRef := nextRef st;
     requireLog := requireLog st; factoryCalls := factoryCalls st;
     requireTrace := requireTrace st |}.

Definition set_objects (f : gmap nat Obj -> gmap nat Obj) (st : State) : State :=
  {| moduleFactories := moduleFactories st; moduleCache := moduleCache st;
     loadedChunks := loadedChunks st; chunkCache := chunkCache st;
     modules := modules st; objects := f (objects st); nextRef := nextRef st;
     requireLog := requireLog st; factoryCalls := factoryCalls st;
     requireTrace := requireTrace st |}.

Definition set_nextRef (f : nat -> nat) (st : State) : State :=
  {| moduleFactories := moduleFactories st; moduleCache := moduleCache st;
     loadedChunks := loadedChunks st; chunkCache := chunkCache st;
     modules := modules st; objects := objects st; nextRef := f (nextRef st);
     requireLog := requireLog st; factoryCalls := factoryCalls st;
     requireTrace := requireTrace st |}.

Definition set_requireLog (f : list jsstring -> list jsstring) (st : State) : State :=
  {| moduleFactories := moduleFactories st; moduleCache := moduleCache st;
     loadedChunks := loadedChunks st; chunkCache := chunkCache st;
     modules := modules st; objects := objects st; nextRef := nextRef st;
     requireLog := f (requireLog st); factoryCalls := factoryCalls st;
     requireTrace := requireTrace st |}.

Definition set_factoryCalls (f : list ModuleId -> list ModuleId) (st : State) : State :=
  {| moduleFactories := moduleFactories st; moduleCache := moduleCache st;
     loadedChunks := loadedChunks st; chunkCache := chunkCache st;
     modules := modules st; objects := objects st; nextRef := nextRef st;
     requireLog := requireLog st; factoryCalls := f (factoryCalls st);
     requireTrace := requireTrace st |}.

Definition set_requireTrace (f : list Capture -> list Capture) (st : State) : State :=
  {| moduleFactories := moduleFactories st; moduleCache := moduleCache st;
     loadedChunks := loadedChunks st; chunkCache := chunkCache st;
     modules := modules st; objects := objects st; nextRef := nextRef st;
     requireLog := requireLog st; factoryCalls := factoryCalls st;
     requireTrace := f (requireTrace st) |}.

(** ** Computations that may throw *)

(** [Stuck] is not a JS outcome: the model stopped, out of fuel or at a
    reference that points nowhere (no JS execution has one). *)
Inductive Outcome (A : Type) : Type :=
  | Ok (a : A)
  | Throw (v : Value)
  | Stuck.
Arguments Ok {A} a.
Arguments Throw {A} v.
Arguments Stuck {A}.

(** Mutations made before a throw stay. *)
Definition M (A : Type) : Type := State -> Outcome A * State.

Definition ret {A} (a : A) : M A := fun st => (Ok a, st).

Definition bind {A B} (c : M A) (k : A -> M B) : M B := fun st =>
  match c st with
  | (Ok a, st') => k a st'
  | (Throw v, st') => (Throw v, st')
  | (Stuck, st') => (Stuck, st')
  end.

Definition throw {A} (v : Value) : M A := fun st => (Throw v, st).

Definition modify (f : State -> State) : M unit := fun st => (Ok tt, f st).

Definition stuck {A} : M A := fun st => (Stuck, st).

(** [try { c } catch (e) { handler e }] *)
Definition tryCatch {A} (c : M A) (handler : Value -> M A) : M A := fun st =>
  match c st with
  | (Throw e, st') => handler e st'
  | r => r
  end.

Notation "'let!' x ':=' c 'in' k" := (bind c (fun x => k))
  (at level 10, x pattern, c at level 100, k at level 200).
Notation "c ';;' k" := (bind c (fun _ => k))
  (at level 100, k at level 200, right associativity).

(** [new Error(message, { cause })] *)
Definition newError (message : jsstring) (cause : option Value) : M Value := fun st =>
  (Ok (VError (nextRef st) message cause), set_nextRef S st).

(** ** The chunk loader *)

Section Runtime.

Variable env : Env.

(** [path.resolve(RUNTIME_ROOT, chunkPath)] *)
Definition resolved (chunkPath : ChunkPath) : jsstring :=
  path_resolve env (RUNTIME_ROOT env) chunkPath.

Definition clearChunkCache : M unit :=
  modify (set_chunkCache (fun _ => ∅)).

(** The message built in both catch blocks. *)
Definition chunkErrorMessage (chunkPath : ChunkPath) (source : option SourceInfo) : jsstring :=
  let errorMessage := lit "Failed to load chunk " ++ chunkPath in
  match source with
  | Some source => errorMessage ++ lit " from " ++ stringifySourceInfo source
  | None => errorMessage
  end.

(** [require(resolved)], observed in [requireLog]. *)
Definition requireChunk (resolved : jsstring) : M CompressedModuleFactories := fun st =>
  let st' := set_requireLog (fun l => l ++ [resolved]) st in
  match node_require env (requireLog st) resolved with
  | Required chunkModules => (Ok chunkModules, st')
  | RequireThrows e => (Throw e, st')
  end.

Definition loadChunkPath (chunkPath : ChunkPath) (source : option SourceInfo) : M unit := fun st =>
  if negb (isJs chunkPath) then ret tt st
  else if bool_decide (chunkPath ∈ loadedChunks st) then ret tt st
  else
    tryCatch
      (let resolved := resolved chunkPath in
       let! chunkModules := requireChunk resolved in
       modify (set_moduleFactories (fun mf => registerFactories mf chunkModules)) ;;
       modify (set_loadedChunks (fun s => {[chunkPath]} ∪ s)))
      (fun e =>
       let! err := newError (chunkErrorMessage chunkPath source) (Some e) in
       throw err)
      st.

Definition loadChunk (chunkData : ChunkData) (source : option SourceInfo) : M unit :=
  match chunkData with
  | ChunkDataPath chunkData => loadChunkPath chunkData source
  | ChunkDataObject path => loadChunkPath path source
  end.

Definition loadChunkUncached (chunkPath : ChunkPath) : M unit :=
  let resolved := resolved chunkPath in
  let! chunkModules := requireChunk resolved in
  modify (set_moduleFactories (fun mf => registerFactories mf chunkModules)).

(** [Promise.reject(reason)]: a new promise. *)
Definition promiseReject (reason : Value) : M Promise := fun st =>
  (Ok (Rejected (nextRef st) reason), set_nextRef S st).

Definition loadChunkAsync (source : SourceInfo) (chunkData : ChunkData) : M Promise := fun st =>
  let chunkPath := chunkDataPath chunkData in
  if negb (isJs chunkPath) then ret unsupportedLoadChunk st
  else
    match chunkCache st !! chunkPath with
    | Some entry => ret entry st
    | None =>
        (let! entry :=
           tryCatch
             (loadChunkUncached chunkPath ;; ret loadedChunk)
             (fun e =>
              let! err := newError (chunkErrorMessage chunkPath (Some source)) (Some e) in
              promiseReject err) in
         modify (set_chunkCache (fun c => <[chunkPath := entry]> c)) ;;
         ret entry) st
    end.

(** ** The module instantiator *)

(** The context object handed to a factory: [m] is the record, [e] the
    exports object the record was created with, and [l] is bound to the
    [id] the instantiation was asked for. *)
Record Context : Type := {
  ctx_m : nat;
  ctx_e : nat;
  ctx_id : ModuleId;
}.

(** The message of the error thrown when no factory is registered. *)
Definition instantiationReason (source : SourceInfo) : jsstring :=
  match source with
  | Runtime chunkPath => lit "as a runtime entry of chunk " ++ chunkPath
  | Parent parentId => lit "because it was required from module " ++ parentId
  end.

Definition factoryMissingMessage (id : ModuleId) (source : SourceInfo) : jsstring :=
  lit "Module " ++ id ++ lit " was instantiated " ++ instantiationReason source ++
  lit ", but the module factory is not available. It might have been deleted in an HMR update.".

Definition set_exports (v : Value) (m : Module) : Module :=
  {| exports := v; error := error m; loaded := loaded m; id := id m;
     namespaceObject := namespaceObject m |}.
Definition set_error (v : Value) (m : Module) : Module :=
  {| exports := exports m; error := v; loaded := loaded m; id := id m;
     namespaceObject := namespaceObject m |}.
Definition set_loaded (b : bool) (m : Module) : Module :=
  {| exports := exports m; error := error m; loaded := b; id := id m;
     namespaceObject := namespaceObject m |}.
Definition set_namespaceObject (v : Value) (m : Module) : Module :=
  {| exports := exports m; error := error m; loaded := loaded m; id := id m;
     namespaceObject := v |}.

(** Reading a record through its reference. *)
Definition readModule (ref : nat) : M Module := fun st =>
  match modules st !! ref with
  | Some m => (Ok m, st)
  | None => (Stuck, st)
  end.

(** [getOrInstantiateModuleFromParent], open in the instantiator it falls
    back to. *)
Definition getOrInstantiateModuleFromParent_
    (instantiate : ModuleId -> SourceInfo -> M nat)
    (id : ModuleId) (sourceModule : nat) : M nat := fun st =>
  match moduleCache st !! id with
  | Some module => ret module st
  | None =>
      (let! source := readModule sourceModule in
       instantiate id (Parent (idOf source))) st
  end.

(** Modelled from the spec: [commonJsRequire] of shared/runtime-utils.ts,
    the binder [r] "for synchronous requires of other ids (auto-instantiating
    them on demand via the same algorithm, tagged with ParentImport{id}
    provenance)"; it hands out the [exports] of the record.  Whether it
    rethrows the error of a broken record is left to [requireRethrows]. *)
Definition commonJsRequire_
    (instantiate : ModuleId -> SourceInfo -> M nat)
    (sourceModule : nat) (id : ModuleId) : M Value :=
  let! module := getOrInstantiateModuleFromParent_ instantiate id sourceModule in
  let! m := readModule module in
  if requireRethrows env && truthy (error m) then throw (error m)
  else
    modify (set_requireTrace (fun t =>
      {| cap_by := sourceModule; cap_of := id; cap_module := module;
         cap_exports := exports m; cap_loaded := loaded m |} :: t)) ;;
    ret (exports m).

(** The commands that do not re-enter the instantiator. *)
Definition execLocal (ctx : Context) (c : cmd) : M unit :=
  match c with
  | CExport key v =>
      modify (set_objects (alter (fun o : gmap (list N) Value => <[key := v]> o) (ctx_e ctx)))
  | CModuleExports v => modify (set_modules (alter (set_exports v) (ctx_m ctx)))
  | CNamespaceObject v => modify (set_modules (alter (set_namespaceObject v) (ctx_m ctx)))
  | CLoadChunkAsync chunkData =>
      loadChunkAsync (Parent (ctx_id ctx)) chunkData ;; ret tt
  | CClearChunkCache => clearChunkCache
  | CThrow v => throw v
  | CThrowNew message => let! err := newError message None in throw err
  | CRequire _ | CTry _ _ => ret tt
  end.

(** One command of a factory body, open in the instantiator and in the
    interpreter of bodies that it re-enters. *)
Definition execCmd
    (instantiate : ModuleId -> SourceInfo -> M nat)
    (run : list cmd -> Context -> M unit)
    (ctx : Context) (c : cmd) : M unit :=
  match c with
  | CRequire id => commonJsRequire_ instantiate (ctx_m ctx) id ;; ret tt
  | CTry body handler => tryCatch (run body ctx) (fun _ => run handler ctx)
  | _ => execLocal ctx c
  end.

(** Lines 254-261: the fresh record, stored in the cache. *)
Definition freshModule (id : ModuleId) (exportsRef : nat) : Module :=
  {| exports := VObject exportsRef; error := VUndefined; loaded := false; id := id;
     namespaceObject := VUndefined |}.

Definition insertFreshModule (id : ModuleId) : M Context := fun st =>
  let e := nextRef st in
  let m := S e in
  (Ok {| ctx_m := m; ctx_e := e; ctx_id := id |},
   set_moduleCache (fun c => <[id := m]> c)
     (set_modules (fun h => <[m := freshModule id e]> h)
       (set_objects (fun h => <[e := ∅]> h)
         (set_nextRef (fun _ => S m) st)))).

(** Lines 301-307: after the factory returned. *)
Definition finishModule (module : nat) : M nat :=
  modify (set_modules (alter (set_loaded true) module)) ;;
  let! m := readModule module in
  (if truthy (namespaceObject m) && negb (strictEquals (exports m) (namespaceObject m))
   then modify (set_objects (interopEsm env (exports m) (namespaceObject m)))
   else ret tt) ;;
  ret module.

(** [instantiateModule] and the interpreter of factory bodies.  [fuel]
    bounds how deep factories may nest and how long a body may be; the call
    of the factory (line 266) is observed in [factoryCalls]. *)
Fixpoint instantiateModule (fuel : nat) (id : ModuleId) (source : SourceInfo)
    {struct fuel} : M nat := fun st =>
  match moduleFactories st !! id with
  | None =>
      (let! err := newError (factoryMissingMessage id source) None in throw err) st
  | Some moduleFactory =>
      (let! ctx := insertFreshModule id in
       tryCatch
         (modify (set_factoryCalls (fun l => id :: l)) ;;
          match fuel with
          | O => stuck
          | S n => runFactory n (fbody moduleFactory) ctx
          end)
         (fun error =>
          modify (set_modules (alter (set_error error) (ctx_m ctx))) ;;
          throw error) ;;
       finishModule (ctx_m ctx)) st
  end
with runFactory (fuel : nat) (body : list cmd) (ctx : Context)
    {struct fuel} : M unit :=
  match body with
  | [] => ret tt
  | c :: rest =>
      match fuel with
      | O => stuck
      | S n =>
          execCmd (instantiateModule n) (runFactory n) ctx c ;;
          runFactory n rest ctx
      end
  end.

Definition getOrInstantiateModuleFromParent (fuel : nat) (id : ModuleId)
    (sourceModule : nat) : M nat :=
  getOrInstantiateModuleFromParent_ (instantiateModule fuel) id sourceModule.

Definition commonJsRequire (fuel : nat) (sourceModule : nat) (id : ModuleId) : M Value :=
  commonJsRequire_ (instantiateModule fuel) sourceModule id.

Definition instantiateRuntimeModule (fuel : nat) (moduleId : ModuleId)
    (chunkPath : ChunkPath) : M nat :=
  instantiateModule fuel moduleId (Runtime chunkPath).

Definition getOrInstantiateRuntimeModule (fuel : nat) (moduleId : ModuleId)
    (chunkPath : ChunkPath) : M nat := fun st =>
  match moduleCache st !! moduleId with
  | Some module =>
      (let! m := readModule module in
       if truthy (error m) then throw (error m) else ret module) st
  | None => instantiateRuntimeModule fuel moduleId chunkPath st
  end.

End Runtime.

(** ** Factory bodies of the circular-dependency scenario *)

(** A run of writes [e[key] = v] on the module's own exports object. *)
Definition exportWrites (writes : list (jsstring * Value)) : list cmd :=
  List.map (fun kv => CExport kv.1 kv.2) writes.

(** A body that requires [dep] once, between writes to its own exports. *)
Definition requiringBody (before : list (jsstring * Value)) (dep : ModuleId)
    (after : list (jsstring * Value)) : list cmd :=
  exportWrites before ++ CRequire dep :: exportWrites after.

(** ** A host for the examples *)

(** A file system given as a list of resolved paths and what requiring each
    gives; other paths do not exist. *)
Fixpoint requireFrom (files : list (jsstring * RequireResult)) (resolved : jsstring) : RequireResult :=
  match files with
  | [] => RequireThrows (VString (lit "Cannot find module"))
  | (p, r) :: rest => if bool_decide (p = resolved) then r else requireFrom rest resolved
  end.

Definition exampleHost (files : list (jsstring * RequireResult)) : Env := {|
  RUNTIME_ROOT := lit "/app/";
  path_resolve := fun root p => root ++ p;
  node_require := fun _ resolved => requireFrom files resolved;
  interopEsm := fun _ _ h => h;
  requireRethrows := false;
|}.

(** Factories and chunks of the examples. *)
Definition idA : ModuleId := lit "[project]/a.js".
Definition idB : ModuleId := lit "[project]/b.js".
Definition idC : ModuleId := lit "[project]/c.js".

Definition factory1 : ModuleFactory := {| fref := 1; fbody := [] |}.
Definition factory2 : ModuleFactory := {| fref := 2; fbody := [] |}.

(** [a.js] declares module B on its own; [b.js] declares module A and lists
    B as an alias of it. *)
Definition aliasHost : Env :=
  exampleHost
    [(lit "/app/a.js", Required [(idB, Plain factory1)]);
     (lit "/app/b.js", Required [(idA, Shared factory2 [idB])])].

(** [shared.js] holds one compressed entry. *)
Definition sharedHost : Env :=
  exampleHost
    [(lit "/app/shared.js", Required [(idA, Shared factory1 [idB; idC])])].

(** A module whose factory throws. *)
Definition factoryBoom : ModuleFactory :=
  {| fref := 3; fbody := [CThrowNew (lit "boom")] |}.

Definition boomHost : Env :=
  exampleHost [(lit "/app/boom.js", Required [(idA, Plain factoryBoom)])].

Definition boomLoaded : State :=
  (loadChunk boomHost (ChunkDataPath (lit "boom.js")) None initialState).2.


Definition factoryB : ModuleFactory :=
  {| fref := 12;
     fbody := requiringBody [(lit "name", VString (lit "b"))] idA [] |}.



(** The states of the examples after their first call. *)
Definition boomFailed : State :=
  (getOrInstantiateRuntimeModule boomHost 5 idA (lit "boom.js") boomLoaded).2.

Definition boomError : Value := VError 2 (lit "boom") None.

(** [b.js] holds a compressed entry, and so does [c.js], with another
    factory for the same ids. *)
Definition keepHost : Env :=
  exampleHost
    [(lit "/app/b.js", Required [(idA, Shared factory2 [idB])]);
     (lit "/app/c.js", Required [(idA, Shared factory1 [idB])])].

Definition keepLoaded : State :=
  (loadChunk keepHost (ChunkDataPath (lit "b.js")) None initialState).2.

(** A host without files: every load fails. *)
Definition emptyHost : Env := exampleHost [].

Definition goneError : Value :=
  VError 0 (lit "Failed to load chunk gone.js from runtime for chunk main.js")
    (Some (VString (lit "Cannot find module"))).

Definition goneFailed : State :=
  (loadChunkAsync emptyHost (Runtime (lit "main.js")) (ChunkDataPath (lit "gone.js"))
     initialState).2.

Definition sharedLoaded : State :=
  (loadChunkPath sharedHost (lit "shared.js") None initialState).2.

(** An id or an alias id of an entry. *)
Definition mentions (entry : ModuleId * CompressedEntry) (k : ModuleId) : Prop :=
  k = entry.1 \/ k ∈ aliasIds entry.

(** A later state that differs from an earlier one in the store of plain
    objects at most. *)
Definition sameButObjects (st st' : State) : Prop :=
  exists h, st' = set_objects (fun _ => h) st.

(** ** The registry invariant *)

(** What the module cache, the store of records and the two counters
    satisfy at every moment: each record ever created is the one cached
    under its id, each cached reference is a record of that id, references
    are fresh, and no factory call is made twice for an id. *)
Record wf (st : State) : Prop := {
  wf_cached : forall r m, modules st !! r = Some m -> moduleCache st !! id m = Some r;
  wf_live : forall i r, moduleCache st !! i = Some r ->
            exists m, modules st !! r = Some m /\ id m = i;
  wf_fresh : forall r, is_Some (modules st !! r) -> r < nextRef st;
  wf_calls : NoDup (factoryCalls st);
  wf_called : forall i, i ∈ factoryCalls st -> is_Some (moduleCache st !! i);
}.

(** How a later state relates to an earlier one: nothing leaves the cache,
    the records that existed keep their [id], [loaded] and [error], and the
    factory calls made are still on record. *)
Record extends (st st' : State) : Prop := {
  ext_cache : forall i r, moduleCache st !! i = Some r -> moduleCache st' !! i = Some r;
  ext_records : forall r m, modules st !! r = Some m ->
                exists m', modules st' !! r = Some m' /\
                           id m' = id m /\ loaded m' = loaded m /\ error m' = error m;
  ext_calls : factoryCalls st `suffix_of` factoryCalls st';
  ext_nextRef : nextRef st <= nextRef st';
}.

(** The states that the two exported functions, [loadChunk] and
    [getOrInstantiateRuntimeModule], can bring about from the initial one. *)
Inductive reachable (env : Env) : State -> Prop :=
  | reachable_initial : reachable env initialState
  | reachable_loadChunk st chunkData source :
      reachable env st -> reachable env (loadChunk env chunkData source st).2
  | reachable_runtimeModule st fuel moduleId chunkPath :
      reachable env st ->
      reachable env (getOrInstantiateRuntimeModule env fuel moduleId chunkPath st).2.

(** The calling condition of [instantiateModule]: both callers have just
    missed the cache. *)
Definition uncached (id : ModuleId) (st : State) : Prop :=
  moduleCache st !! id = None.

(** A computation that keeps the invariant and only extends the state,
    from the states that satisfy [P]. *)
Definition preserves {A} (P : State -> Prop) (c : M A) : Prop :=
  forall st out st', wf st -> P st -> c st = (out, st') -> wf st' /\ extends st st'.

(** ** Notions for the further properties of the runtime *)

(** The primary ids of a chunk's table. *)
Definition primaryIds (chunkModules : list (list N * CompressedEntry)) : list (list N) :=
  List.map fst chunkModules.

(** A relation between an earlier and a later state that speaks of the
    loader's side of the state only. *)
Definition loaderSide (R : State -> State -> Prop) : Prop :=
  forall st st',
    moduleFactories st' = moduleFactories st -> loadedChunks st' = loadedChunks st ->
    chunkCache st' = chunkCache st -> requireLog st' = requireLog st -> R st st'.

(** A computation all of whose runs are in [R]. *)
Definition within {A} (R : State -> State -> Prop) (c : M A) : Prop :=
  forall st, R st (c st).2.

(** Every id that has a factory in [st] still has one in [st']. *)
Definition factoriesKept (st st' : State) : Prop :=
  forall k, is_Some (moduleFactories st !! k) -> is_Some (moduleFactories st' !! k).

(** Both states list the same chunk paths as loaded by [loadChunkPath]. *)
Definition sameLoadedChunks (st st' : State) : Prop :=
  loadedChunks st' = loadedChunks st.

(** Both states have the same module cache, the same records and the same
    factory calls on record. *)
Definition sameModules (st st' : State) : Prop :=
  moduleCache st' = moduleCache st /\ modules st' = modules st /\
  factoryCalls st' = factoryCalls st.

(** No record is both loaded and failed. *)
Definition neverLoadedAndFailed (st : State) : Prop :=
  forall r m, modules st !! r = Some m -> loaded m = true -> error m = VUndefined.

(** A computation that keeps [neverLoadedAndFailed], from the states that
    satisfy the registry invariant and [P]. *)
Definition keeps {A} (P : State -> Prop) (c : M A) : Prop :=
  forall st out st', wf st -> P st -> neverLoadedAndFailed st -> c st = (out, st') ->
                     neverLoadedAndFailed st'.

(** The record [m] under [r] is in [st'] with the [id], [loaded] and
    [error] it has, and is the one cached under its id. *)
Definition recordKept (r : nat) (m : Module) (st' : State) : Prop :=
  exists m', modules st' !! r = Some m' /\ idOf m' = idOf m /\
             loaded m' = loaded m /\ error m' = error m /\
             moduleCache st' !! idOf m = Some r.

(** ** Chunk URLs and asset paths *)

(** What [url.fileURLToPath(new URL(chunkUrl, RUNTIME_ROOT))] gives: a path,
    or the exception of an invalid URL or of a URL that is not a file. *)
Inductive UrlResult : Type :=
  | UrlPath (path : ChunkPath)
  | UrlThrows (e : Value).

Section RuntimeUrls.

Variable env : Env.

(** [url.fileURLToPath(new URL(chunkUrl, base))] *)
Variable fileURLToPath : jsstring -> jsstring -> UrlResult.

(** [url.pathToFileURL(resolved).href] *)
Variable pathToFileURL_href : jsstring -> jsstring.

Variable ASSET_PREFIX : jsstring.

(** Lines 204-207. *)
Definition loadChunkAsyncByUrl (source : SourceInfo) (chunkUrl : jsstring) : M Promise :=
  match fileURLToPath chunkUrl (RUNTIME_ROOT env) with
  | UrlThrows e => throw e
  | UrlPath path => loadChunkAsync env source (ChunkDataPath path)
  end.

(** [exported?.default]: the own property of an object, [undefined] on
    [null], [undefined] and on the values that have no such property. *)
Definition getDefault (exported : Value) : M Value := fun st =>
  match exported with
  | VObject ref =>
      match objects st !! ref with
      | Some o => (Ok (default VUndefined (o !! lit "default")), st)
      | None => (Stuck, st)
      end
  | _ => (Ok VUndefined, st)
  end.

(** [a ?? b] *)
Definition nullish (a b : Value) : Value :=
  match a with
  | VUndefined | VNull => b
  | _ => a
  end.

(** [exportedPath.slice(n)] at [0 <= n] *)
Definition slice (s : jsstring) (n : nat) : jsstring := drop n s.

(** Lines 70-85: [resolvePathFromModule], the function that
    [createResolvePathFromModule(resolver)] returns.  A value that is not a
    string is handed back as the resolver gave it. *)
Definition createResolvePathFromModule (resolver : ModuleId -> M Value)
    (moduleId : ModuleId) : M Value :=
  let! exported := resolver moduleId in
  let! def := getDefault exported in
  let exportedPath := nullish def exported in
  match exportedPath with
  | VString exportedPath =>
      let strippedAssetPrefix := slice exportedPath (length ASSET_PREFIX) in
      let resolved := path_resolve env (RUNTIME_ROOT env) strippedAssetPrefix in
      ret (VString (pathToFileURL_href resolved))
  | _ => ret exported
  end.

(** [R] of the context of the module under [sourceModule] (line 291):
    [createResolvePathFromModule(r)], with the binder [r] of
    [commonJsRequire_]. *)
Definition resolvePathFromModule (fuel : nat) (sourceModule : nat) : ModuleId -> M Value :=
  createResolvePathFromModule (commonJsRequire env fuel sourceModule).

End RuntimeUrls.

(** ** Source maps

    [packages/next/src/server/lib/source-maps.ts].  The numbers of the
    payloads are integers. *)

Record BasicSourceMapPayload : Type := {
  version : Z;
  file : jsstring;
  sourceRoot : option jsstring;
  sources : list (option jsstring);
  names : list jsstring;
  mappings : jsstring;
  ignoreList : option (list Z);
}.

Record SectionOffset : Type := {
  line : Z;
  column : Z;
}.

Record IndexSourceMapSection : Type := {
  offset : SectionOffset;
  map : BasicSourceMapPayload;
}.

Record IndexSourceMap : Type := {
  index_version : Z;
  index_file : jsstring;
  sections : list IndexSourceMapSection;
}.

Inductive ModernSourceMapPayload : Type :=
  | BasicPayload (payload : BasicSourceMapPayload)
  | IndexPayload (payload : IndexSourceMap).

(** Lines 49-56. *)
Definition sourceMapIgnoreListsEverything (sourceMap : BasicSourceMapPayload) : bool :=
  match ignoreList sourceMap with
  | None => false
  | Some ignoreList => bool_decide (length (sources sourceMap) = length ignoreList)
  end.

(** [~~x] at an integer [x]: ToInt32. *)
Definition toInt32 (x : Z) : Z := ((x + 2 ^ 31) `mod` 2 ^ 32 - 2 ^ 31)%Z.

(** The test of lines 87-90. *)
Definition offsetApplies (line0 column0 : Z) (offset : SectionOffset) : bool :=
  (line offset <? line0)%Z || ((line offset =? line0)%Z && (column offset <=? column0)%Z).

(** How the search ends: with its [result], with the TypeError of reading
    [offset] of [undefined] when [middle] is no index of the array, or out
    of fuel. *)
Inductive Ended (A : Type) : Type :=
  | Found (result : A)
  | ThrewTypeError
  | OutOfFuel.
Arguments Found {A} result.
Arguments ThrewTypeError {A}.
Arguments OutOfFuel {A}.

(** [sections[middle]] *)
Definition sectionAt (sections : list IndexSourceMapSection) (middle : Z) :
    option IndexSourceMapSection :=
  if (middle <? 0)%Z then None else sections !! Z.to_nat middle.

(** The loop of lines 81-96. *)
Fixpoint searchSections (fuel : nat) (sections : list IndexSourceMapSection)
    (line0 column0 : Z) (left right : Z) (result : option IndexSourceMapSection) :
    Ended (option IndexSourceMapSection) :=
  if (left <=? right)%Z then
    match fuel with
    | O => OutOfFuel
    | S n =>
        let middle := toInt32 ((left + right) ÷ 2) in
        match sectionAt sections middle with
        | None => ThrewTypeError
        | Some section =>
            if offsetApplies line0 column0 (offset section)
            then searchSections n sections line0 column0 (middle + 1) right (Some section)
            else searchSections n sections line0 column0 left (middle - 1) result
        end
    end
  else Found result.

(** Lines 64-102.  The loop is given one step more than there are
    sections. *)
Definition findApplicableSourceMapPayload (line0 column0 : Z)
    (payload : ModernSourceMapPayload) : Ended (option BasicSourceMapPayload) :=
  match payload with
  | IndexPayload payload =>
      if bool_decide (length (sections payload) = 0) then Found None
      else
        let sections := sections payload in
        match searchSections (S (length sections)) sections line0 column0
                0 (Z.of_nat (length sections) - 1) None with
        | Found result => Found (map <$> result)
        | ThrewTypeError => ThrewTypeError
        | OutOfFuel => OutOfFuel
        end
  | BasicPayload payload => Found (Some payload)
  end.

(** The order of the offsets: by line, then by column. *)
Definition offsetLe (a b : SectionOffset) : Prop :=
  (line a < line b \/ (line a = line b /\ column a <= column b))%Z.

(** Sections sorted by offset. *)
Definition sortedSections (sections : list IndexSourceMapSection) : Prop :=
  forall i j a b, i <= j -> sections !! i = Some a -> sections !! j = Some b ->
                  offsetLe (offset a) (offset b).

(** An ignore list that the format allows: indices into [sources], each
    once. *)
Definition validIgnoreList (sourceMap : BasicSourceMapPayload) : Prop :=
  match ignoreList sourceMap with
  | None => True
  | Some l => NoDup l /\ forall i, i ∈ l -> (0 <= i < Z.of_nat (length (sources sourceMap)))%Z
  end.

(** ** Strings of the stack frames *)

(** [s.startsWith(prefix)] *)
Definition startsWith (s prefix : jsstring) : bool :=
  bool_decide (take (length prefix) s = prefix).

(** [s.indexOf(c, position)] for one code unit [c]: the first index at or
    after [position], or -1. *)
Fixpoint indexOfFrom (c : N) (s : jsstring) (i : nat) : Z :=
  match s with
  | [] => (-1)%Z
  | x :: rest => if N.eqb x c then Z.of_nat i else indexOfFrom c rest (S i)
  end.

Definition indexOf (s : jsstring) (c : N) (position : nat) : Z :=
  indexOfFrom c (drop position s) position.

(** [s.lastIndexOf(c)] for one code unit [c]: the last index, or -1. *)
Fixpoint lastIndexOfFrom (c : N) (s : jsstring) (i : nat) (found : Z) : Z :=
  match s with
  | [] => found
  | x :: rest => lastIndexOfFrom c rest (S i) (if N.eqb x c then Z.of_nat i else found)
  end.

Definition lastIndexOf (s : jsstring) (c : N) : Z :=
  lastIndexOfFrom c s 0 (-1)%Z.

(** [s.slice(start, end)] at [0 <= start] and [0 <= end]. *)
Definition sliceBetween (s : jsstring) (start end_ : nat) : jsstring :=
  take (end_ - start) (drop start s).

(** What [decodeURI] gives: the decoded string, or a URIError. *)
Inductive Decoded : Type :=
  | DecodedString (s : jsstring)
  | URIError.

Section ReactServerURL.

(** [decodeURI] *)
Variable decodeURI : jsstring -> Decoded.

(** Lines 167-177. *)
Definition devirtualizeReactServerURL (sourceURL : jsstring) : Decoded :=
  if startsWith sourceURL (lit "rsc://React/") then
    let envIdx := indexOf sourceURL (ch "/") (length (lit "rsc://React/")) in
    let suffixIdx := lastIndexOf sourceURL (ch "?") in
    if (envIdx >? -1)%Z && (suffixIdx >? -1)%Z then
      decodeURI (sliceBetween sourceURL (Z.to_nat (envIdx + 1)) (Z.to_nat suffixIdx))
    else DecodedString sourceURL
  else DecodedString sourceURL.

End ReactServerURL.

(** ** Anonymous stack frames *)

(** Lines 179-195. *)
Definition isAnonymousFrameLikelyJSNative (methodName : jsstring) : bool :=
  startsWith methodName (lit "JSON.") ||
  startsWith methodName (lit "Function.") ||
  startsWith methodName (lit "Promise.") ||
  startsWith methodName (lit "Array.") ||
  startsWith methodName (lit "Set.") ||
  startsWith methodName (lit "Map.").

Section Sandwich.

Context {Frame : Type}.

(** The callbacks, as functions of the frame. *)
Variable isAnonymousFrame : Frame -> bool.
Variable isIgnoredFrame : Frame -> bool.
Variable getMethodName : Frame -> jsstring.

(** The test of lines 209-210 and 223-224. *)
Definition anonymousNative (frame : Frame) : bool :=
  isAnonymousFrame frame && isAnonymousFrameLikelyJSNative (getMethodName frame).

(** The loop of lines 220-234 over the frames from index [j] on: whether it
    ended at the [break], and [j] when it ended. *)
Fixpoint scanSandwich (rest : list Frame) (j : nat) : bool * nat :=
  match rest with
  | [] => (false, j)
  | nextFrame :: rest =>
      if anonymousNative nextFrame then scanSandwich rest (S j)
      else if isIgnoredFrame nextFrame then (true, j)
      else scanSandwich rest (S j)
  end.

(** The loop of lines 205-242 from [i] on, at [1 <= i].  [ignored] lists
    the indices [k] of the calls [ignoreFrame(frames[k])] made so far, in
    the order of the calls; after a sandwich the inner loop of lines
    237-239 has left [i] at [j], and the [i++] of the outer loop moves on
    to [j + 1].  [None] is the end of the fuel. *)
Fixpoint sandwichLoop (fuel : nat) (frames : list Frame) (i : nat) (ignored : list nat) :
    option (list nat) :=
  if negb (i <? length frames) then Some ignored
  else
    match fuel with
    | O => None
    | S fuel =>
        match frames !! i, frames !! (i - 1) with
        | Some currentFrame, Some previousFrame =>
            if negb (anonymousNative currentFrame) then sandwichLoop fuel frames (S i) ignored
            else
              let previousFrameIsIgnored := isIgnoredFrame previousFrame in
              if previousFrameIsIgnored && (i <? length frames - 1) then
                let '(ignoreSandwich, j) := scanSandwich (drop (S i) frames) (S i) in
                if ignoreSandwich
                then sandwichLoop fuel frames (S j) (ignored ++ seq i (j - i))
                else sandwichLoop fuel frames (S i) ignored
              else sandwichLoop fuel frames (S i) ignored
        | _, _ => None
        end
    end.

(** Lines 197-243, with as many steps as there are frames. *)
Definition ignoreListAnonymousStackFramesIfSandwiched (frames : list Frame) : option (list nat) :=
  sandwichLoop (length frames) frames 1 [].

(** The frame at [k] lies between two frames that [isIgnoredFrame] holds
    of, and is neither the first nor the last frame. *)
Definition sandwiched (frames : list Frame) (k : nat) : Prop :=
  1 <= k /\ S k < length frames /\
  exists a b fa fb,
    a < k /\ k < b /\
    frames !! a = Some fa /\ isIgnoredFrame fa = true /\
    frames !! b = Some fb /\ isIgnoredFrame fb = true.

End Sandwich.

(** The indices of a list of calls grow along the list. *)
Definition increasing (ks : list nat) : Prop :=
  forall a b x y, a < b -> ks !! a = Some x -> ks !! b = Some y -> x < y.

Section SandwichSpec.

Context {Frame : Type}.
Variable isAnonymousFrame : Frame -> bool.
Variable isIgnoredFrame : Frame -> bool.
Variable getMethodName : Frame -> jsstring.

(** A frame at which the scan of lines 220-234 stops: ignored, and not an
    anonymous frame of a native method. *)
Definition closesSandwich (frame : Frame) : bool :=
  negb (anonymousNative isAnonymousFrame getMethodName frame) && isIgnoredFrame frame.

(** A sandwich from [i] to [j]: the frame before [i] is ignored, the frame
    at [i] is an anonymous frame of a native method, the frame at [j]
    closes the sandwich and no frame between them does. *)
Definition sandwichAt (frames : list Frame) (i j : nat) : Prop :=
  1 <= i /\ i < j /\
  (exists previousFrame, frames !! (i - 1) = Some previousFrame /\
                         isIgnoredFrame previousFrame = true) /\
  (exists currentFrame, frames !! i = Some currentFrame /\
                        anonymousNative isAnonymousFrame getMethodName currentFrame = true) /\
  (exists lastFrame, frames !! j = Some lastFrame /\ closesSandwich lastFrame = true) /\
  (forall k frame, i < k -> k < j -> frames !! k = Some frame -> closesSandwich frame = false).

(** The frame at [k] is inside a sandwich. *)
Definition inSandwich (frames : list Frame) (k : nat) : Prop :=
  exists i j, i <= k /\ k < j /\ sandwichAt frames i j.

End SandwichSpec.

(** ** Further examples *)

(** Module A requires module B straight away; the factory of B throws. *)
Definition factoryNeedsB : ModuleFactory :=
  {| fref := 21; fbody := [CRequire idB; CExport (lit "done") (VBool true)] |}.

Definition chainHost : Env :=
  exampleHost
    [(lit "/app/chain.js", Required [(idA, Plain factoryNeedsB); (idB, Plain factoryBoom)])].

Definition chainLoaded : State :=
  (loadChunk chainHost (ChunkDataPath (lit "chain.js")) None initialState).2.

Definition chainError : Value := VError 4 (lit "boom") None.

(** A module that requires itself. *)
Definition selfHost : Env :=
  exampleHost [(lit "/app/self.js", Required [(idA, Plain factoryB)])].

Definition selfLoaded : State :=
  (loadChunk selfHost (ChunkDataPath (lit "self.js")) None initialState).2.

(** A module whose factory does [throw undefined]. *)
Definition factoryThrowsUndefined : ModuleFactory :=
  {| fref := 23; fbody := [CThrow VUndefined] |}.

Definition quietHost : Env :=
  exampleHost [(lit "/app/quiet.js", Required [(idA, Plain factoryThrowsUndefined)])].

Definition quietLoaded : State :=
  (loadChunk quietHost (ChunkDataPath (lit "quiet.js")) None initialState).2.

Definition quietFailed : State :=
  (getOrInstantiateRuntimeModule quietHost 5 idA (lit "quiet.js") quietLoaded).2.

(** The chunk of [sharedHost], loaded through [loadChunkAsync]. *)
Definition sharedAsync : State :=
  (loadChunkAsync sharedHost (Runtime (lit "main.js")) (ChunkDataPath (lit "shared.js"))
     initialState).2.

(** A host whose [RUNTIME_ROOT] is a file URL, the base that
    [new URL(chunkUrl, RUNTIME_ROOT)] needs; the working directory is
    [/srv].  [path.resolve] returns an absolute second argument as it is
    and puts a relative one below the working directory and the root, the
    runs of slashes collapsed; the paths hold no [.] or [..] segments. *)
Fixpoint collapseSlashes (s : jsstring) : jsstring :=
  match s with
  | a :: rest =>
      match rest with
      | b :: _ =>
          if N.eqb a (ch "/") && N.eqb b (ch "/") then collapseSlashes rest
          else a :: collapseSlashes rest
      | [] => [a]
      end
  | [] => []
  end.

Definition urlHost (files : list (jsstring * RequireResult)) : Env := {|
  RUNTIME_ROOT := lit "file:///app/";
  path_resolve := fun root p =>
    if startsWith p (lit "/") then p
    else collapseSlashes (lit "/srv/" ++ root ++ lit "/" ++ p);
  node_require := fun _ resolved => requireFrom files resolved;
  interopEsm := fun _ _ h => h;
  requireRethrows := false;
|}.

Definition sharedUrlHost : Env :=
  urlHost [(lit "/app/shared.js", Required [(idA, Shared factory1 [idB; idC])])].

(** A letter, a digit, [-] or [_]. *)
Definition plainCodeUnit (c : N) : bool :=
  ((48 <=? c) && (c <=? 57) || (65 <=? c) && (c <=? 90) || (97 <=? c) && (c <=? 122) ||
   (c =? 45) || (c =? 95))%N.

(** The part of [s] before the first [c], all of [s] when there is none. *)
Definition beforeFirst (c : N) (s : jsstring) : jsstring :=
  let index := indexOf s c 0 in
  if (index >? -1)%Z then take (Z.to_nat index) s else s.

(** [url.fileURLToPath(new URL(chunkUrl, base))] on the URLs of the
    examples: a base [file:///<dir>/] of plain code units and slashes, and a
    relative reference [<name>], [<name>?<query>] or [<name>#<fragment>]
    to a file of that directory, whose name is made of plain code units and
    dots and is neither [.] nor [..]; it converts to the path
    [/<dir>/<name>].  A base that is not of this form (a filesystem path,
    for one, is no URL) and the other references are not converted: the
    stand-in throws for them. *)
Definition exampleFileURLToPath (chunkUrl base : jsstring) : UrlResult :=
  let invalid := UrlThrows (VError 0 (lit "Invalid URL") None) in
  let directory := drop (length (lit "file://")) base in
  if startsWith base (lit "file:///") &&
     forallb (fun c => plainCodeUnit c || N.eqb c (ch "/")) directory &&
     bool_decide (last directory = Some (ch "/"))
  then
    let name := beforeFirst (ch "?") (beforeFirst (ch "#") chunkUrl) in
    if forallb (fun c => plainCodeUnit c || N.eqb c (ch ".")) name &&
       negb (bool_decide (name = [])) &&
       negb (bool_decide (name = lit ".")) && negb (bool_decide (name = lit ".."))
    then UrlPath (directory ++ name)
    else invalid
  else invalid.

(** The chunk of [sharedUrlHost], loaded through its URL. *)
Definition sharedUrlAsync : State :=
  (loadChunkAsyncByUrl sharedUrlHost exampleFileURLToPath (Runtime (lit "/app/main.js"))
     (lit "shared.js?v=1") initialState).2.





(** An asset module beside a plain one. *)
Definition factoryLogo : ModuleFactory :=
  {| fref := 24; fbody := [CModuleExports (VString (lit "/_next/" ++ lit "static/logo.png"))] |}.

Definition assetHost : Env :=
  exampleHost
    [(lit "/app/asset.js", Required [(idA, Plain factory1); (idB, Plain factoryLogo)])].

Definition assetReady : State :=
  (getOrInstantiateRuntimeModule assetHost 5 idA (lit "asset.js")
     (loadChunk assetHost (ChunkDataPath (lit "asset.js")) None initialState).2).2.

Definition examplePathToFileURL (resolved : jsstring) : jsstring := lit "file://" ++ resolved.

(** An index source map of three sections. *)
Definition examplePayload (name : string) : BasicSourceMapPayload :=
  {| version := 3; file := lit name; sourceRoot := None; sources := [Some (lit name)];
     names := []; mappings := []; ignoreList := None |}.

Definition exampleIndexMap : IndexSourceMap :=
  {| index_version := 3; index_file := lit "bundle.js";
     sections :=
       [ {| offset := {| line := 0; column := 0 |}; map := examplePayload "a.js" |};
         {| offset := {| line := 10; column := 4 |}; map := examplePayload "b.js" |};
         {| offset := {| line := 10; column := 40 |}; map := examplePayload "c.js" |} ] |}.

(** A payload of two sources that lists both as ignored. *)
Definition ignoredPayload : BasicSourceMapPayload :=
  {| version := 3; file := lit "vendor.js"; sourceRoot := None;
     sources := [Some (lit "x.js"); None]; names := []; mappings := [];
     ignoreList := Some [1; 0]%Z |}.

(** Stack frames for the examples: whether the file is anonymous, whether
    the frame is ignored, and the method name. *)
Record ExampleFrame : Type := {
  frame_anonymous : bool;
  frame_ignored : bool;
  frame_methodName : jsstring;
}.

Definition exampleFrames : list ExampleFrame :=
  [ {| frame_anonymous := false; frame_ignored := true; frame_methodName := lit "render" |};
    {| frame_anonymous := true; frame_ignored := false; frame_methodName := lit "JSON.parse" |};
    {| frame_anonymous := false; frame_ignored := false; frame_methodName := lit "reviver" |};
    {| frame_anonymous := true; frame_ignored := false; frame_methodName := lit "Array.map" |};
    {| frame_anonymous := false; frame_ignored := true; frame_methodName := lit "parse" |} ].

(** Module A requires module B inside a [try]; the factory of B throws. *)
Definition factoryGuarded : ModuleFactory :=
  {| fref := 25; fbody := [CTry [CRequire idB] []] |}.

Definition guardHost : Env :=
  exampleHost
    [(lit "/app/guard.js", Required [(idA, Plain factoryGuarded); (idB, Plain factoryBoom)])].

Definition guardLoaded : State :=
  (loadChunk guardHost (ChunkDataPath (lit "guard.js")) None initialState).2.

(** * Properties *)

(** ** Executable chunk paths *)

Lemma rstar_true p s k :
  rstar p s k = true <-> exists a b, s = a ++ b /\ forallb p a = true /\ k b = true.
Proof.
  induction s as [|c t IH]; simpl.
  - split.
    + intros H. exists [], []. auto.
    + intros (a & b & Hs & _ & Hk). symmetry in Hs.
      apply app_eq_nil in Hs as [-> ->]. exact Hk.
  - rewrite orb_true_iff, andb_true_iff, IH. split.
    + intros [[Hp (a & b & -> & Ha & Hk)] | Hk].
      * exists (c :: a), b. simpl. rewrite Hp, Ha. auto.
      * exists [], (c :: t). auto.
    + intros (a & b & Hs & Ha & Hk). destruct a as [|x a]; simpl in *.
      * right. subst b. exact Hk.
      * injection Hs as -> ->. apply andb_true_iff in Ha as [Hx Ha].
        left. split; [exact Hx|]. exists a, b. auto.
Qed.

Lemma forallb_notHash q :
  forallb notHash q = true <-> Forall (fun c => c <> ch "#") q.
Proof.
  rewrite forallb_forall, Forall_forall. unfold notHash.
  split; intros H x Hx.
  - apply list_elem_of_In in Hx. specialize (H x Hx).
    apply negb_true_iff, N.eqb_neq in H. exact H.
  - apply list_elem_of_In in Hx. apply negb_true_iff, N.eqb_neq. auto.
Qed.

Lemma forallb_dot f :
  forallb dot f = true <-> Forall (fun c => isLineTerminator c = false) f.
Proof.
  rewrite forallb_forall, Forall_forall. unfold dot.
  split; intros H x Hx.
  - apply list_elem_of_In in Hx. apply negb_true_iff. auto.
  - apply list_elem_of_In in Hx. apply negb_true_iff. auto.
Qed.

Lemma atEnd_true s : atEnd s = true <-> s = [].
Proof. unfold atEnd. destruct s; simpl; split; congruence. Qed.

Lemma fragmentThenEnd_unfold s :
  fragmentThenEnd s =
  match s with
  | x :: t => N.eqb x (ch "#") && rstar dot t atEnd
  | [] => false
  end || atEnd s.
Proof. reflexivity. Qed.

Lemma queryThenRest_unfold s :
  queryThenRest s =
  match s with
  | x :: t => N.eqb x (ch "?") && rstar notHash t fragmentThenEnd
  | [] => false
  end || fragmentThenEnd s.
Proof. reflexivity. Qed.

Lemma regexJsUrl_unfold s :
  rmatch regexJsUrl s (fun _ => true) =
  match s with
  | a :: s1 =>
      N.eqb a (ch ".") &&
      match s1 with
      | b :: s2 =>
          N.eqb b (ch "j") &&
          match s2 with
          | c :: r => N.eqb c (ch "s") && queryThenRest r
          | [] => false
          end
      | [] => false
      end
  | [] => false
  end.
Proof. reflexivity. Qed.

Lemma fragmentThenEnd_true s : fragmentThenEnd s = true <-> isFragment s.
Proof.
  rewrite fragmentThenEnd_unfold. unfold isFragment.
  rewrite orb_true_iff, atEnd_true. split.
  - intros [H | H]; [|left; exact H].
    destruct s as [|x t]; [discriminate|].
    apply andb_true_iff in H as [Hx H]. apply N.eqb_eq in Hx. subst x.
    apply rstar_true in H as (a & b & -> & Ha & Hb).
    apply atEnd_true in Hb. subst b.
    rewrite app_nil_r. right. exists a. split; [reflexivity|].
    apply forallb_dot. exact Ha.
  - intros [-> | (f' & -> & Hf)]; [right; reflexivity|].
    left. apply andb_true_iff. split; [apply N.eqb_refl|].
    apply rstar_true. exists f', []. rewrite app_nil_r.
    split; [reflexivity|]. split; [apply forallb_dot; exact Hf | reflexivity].
Qed.

Lemma queryThenRest_true s :
  queryThenRest s = true <-> exists q f, s = q ++ f /\ isQuery q /\ isFragment f.
Proof.
  rewrite queryThenRest_unfold, orb_true_iff. split.
  - intros [H | H].
    + destruct s as [|x t]; [discriminate|].
      apply andb_true_iff in H as [Hx H]. apply N.eqb_eq in Hx. subst x.
      apply rstar_true in H as (a & b & -> & Ha & Hb).
      exists (ch "?" :: a), b. split; [reflexivity|]. split.
      * right. exists a. split; [reflexivity|]. apply forallb_notHash. exact Ha.
      * apply fragmentThenEnd_true. exact Hb.
    + exists [], s. split; [reflexivity|]. split; [left; reflexivity|].
      apply fragmentThenEnd_true. exact H.
  - intros (q & f & -> & [-> | (q' & -> & Hq)] & Hf).
    + right. apply fragmentThenEnd_true in Hf. exact Hf.
    + left. apply andb_true_iff. split; [apply N.eqb_refl|].
      apply rstar_true. exists q', f. split; [reflexivity|].
      split; [apply forallb_notHash; exact Hq|].
      apply fragmentThenEnd_true in Hf. exact Hf.
Qed.

Lemma regexJsUrl_here s :
  rmatch regexJsUrl s (fun _ => true) = true <->
  exists q f, s = lit ".js" ++ q ++ f /\ isQuery q /\ isFragment f.
Proof.
  rewrite regexJsUrl_unfold. split.
  - intros H. destruct s as [|a [|b [|c r]]];
      repeat (apply andb_true_iff in H as [? H]); try discriminate.
    repeat match goal with E : N.eqb _ _ = true |- _ => apply N.eqb_eq in E; subst end.
    apply queryThenRest_true in H as (q & f & -> & Hq & Hf).
    exists q, f. auto.
  - intros (q & f & -> & Hq & Hf).
    change (queryThenRest (q ++ f) = true).
    apply queryThenRest_true. eauto.
Qed.

Lemma test_true r s :
  test r s = true <-> exists pre rest, s = pre ++ rest /\ rmatch r rest (fun _ => true) = true.
Proof.
  induction s as [|c t IH]; simpl; rewrite orb_true_iff.
  - split.
    + intros [H | H]; [|discriminate]. exists [], []. auto.
    + intros (pre & rest & Hs & H). symmetry in Hs.
      apply app_eq_nil in Hs as [-> ->]. left. exact H.
  - rewrite IH. split.
    + intros [H | (pre & rest & -> & H)].
      * exists [], (c :: t). auto.
      * exists (c :: pre), rest. auto.
    + intros (pre & rest & Hs & H). destruct pre as [|x pre]; simpl in Hs.
      * subst rest. left. exact H.
      * injection Hs as -> ->. right. eauto.
Qed.

Lemma isJs_endsWithJs p : isJs p = true <-> endsWithJs p.
Proof.
  unfold isJs, endsWithJs. rewrite test_true. split.
  - intros (pre & rest & -> & H). apply regexJsUrl_here in H as (q & f & -> & Hq & Hf).
    exists pre, q, f. auto.
  - intros (pre & q & f & -> & Hq & Hf). exists pre, (lit ".js" ++ q ++ f).
    split; [reflexivity|]. apply regexJsUrl_here. eauto.
Qed.

(** The matcher on a few paths: a query may hold [?] and line breaks, a
    fragment may hold [#] and [?] but no line break, and the match is
    case-sensitive. *)
Example isJs_examples :
  List.map isJs
    [lit "chunk.js"; lit "chunk.js?v=1"; lit "chunk.js#top"; lit "chunk.js?a?b#c#d";
     lit "chunk.js?a" ++ [10%N] ++ lit "b"] = [true; true; true; true; true] /\
  List.map isJs
    [lit "chunk.css"; lit "chunk.json"; lit "chunk.jsx"; lit "chunk.JS"; lit "chunk.js.map";
     lit "chunk.js/"; lit "chunk.js#a" ++ [10%N] ++ lit "b"] =
    [false; false; false; false; false; false; false].
Proof. split; vm_compute; reflexivity. Qed.

(** A path without [?] and [#] that ends in another extension is not
    executable. *)
Lemma endsWithJs_plain p :
  Forall (fun c => c <> ch "?" /\ c <> ch "#") p -> endsWithJs p ->
  exists pre, p = pre ++ lit ".js".
Proof.
  intros Hp (pre & q & f & -> & Hq & Hf).
  apply Forall_app in Hp as [_ Hp]. apply Forall_app in Hp as [_ Hp].
  apply Forall_app in Hp as [Hq' Hf'].
  destruct Hq as [-> | (q' & -> & _)].
  - destruct Hf as [-> | (f' & -> & _)].
    + exists pre. reflexivity.
    + apply Forall_cons in Hf' as [[_ Hne] _]. congruence.
  - apply Forall_cons in Hq' as [[Hne _] _]. congruence.
Qed.

Lemma not_js_extension pre ext :
  Forall (fun c => c <> ch "?" /\ c <> ch "#") pre ->
  ext ∈ [lit ".mjs"; lit ".cjs"; lit ".json"; lit ".css"] ->
  isJs (pre ++ ext) = false.
Proof.
  intros Hpre Hext. apply not_true_is_false. intros H.
  apply isJs_endsWithJs in H.
  assert (Hplain : Forall (fun c => c <> ch "?" /\ c <> ch "#") (pre ++ ext)).
  { apply Forall_app. split; [exact Hpre|].
    repeat (apply elem_of_cons in Hext as [-> | Hext];
            [repeat constructor; discriminate|]).
    inversion Hext. }
  destruct (endsWithJs_plain _ Hplain H) as (pre' & E).
  apply (f_equal (@rev N)) in E. rewrite !rev_app_distr in E.
  repeat (apply elem_of_cons in Hext as [-> | Hext]; [discriminate E|]).
  inversion Hext.
Qed.

(** ** Registering the factories of a chunk *)

Lemma foldl_insert_lookup (fn : ModuleFactory) (otherIds : list ModuleId)
    (base : gmap ModuleId ModuleFactory) (k : ModuleId) :
  foldl (fun acc otherModuleId => <[otherModuleId := fn]> acc) base otherIds !! k =
  if bool_decide (k ∈ otherIds) then Some fn else base !! k.
Proof.
  revert base. induction otherIds as [|o rest IH]; intros base; simpl.
  - reflexivity.
  - rewrite IH. destruct (decide (k ∈ rest)) as [Hin | Hnin].
    + rewrite !bool_decide_eq_true_2; [reflexivity | by right | exact Hin].
    + rewrite (bool_decide_eq_false_2 (k ∈ rest)) by exact Hnin.
      destruct (decide (k = o)) as [-> | Hne].
      * rewrite lookup_insert_eq, bool_decide_eq_true_2; [reflexivity | by left].
      * rewrite lookup_insert_ne by congruence.
        rewrite bool_decide_eq_false_2; [reflexivity|].
        intros Hin. apply elem_of_cons in Hin as [? | ?]; contradiction.
Qed.

(** An entry whose primary id has a factory is skipped whole. *)
Lemma registerEntry_skip mf moduleId entry :
  is_Some (mf !! moduleId) -> registerEntry mf (moduleId, entry) = mf.
Proof. intros [f Hf]. unfold registerEntry. rewrite Hf. reflexivity. Qed.

(** An entry whose primary id has none gives its factory to the primary id
    and to every alias id. *)
Lemma registerEntry_shared mf moduleId fn otherIds k :
  mf !! moduleId = None ->
  registerEntry mf (moduleId, Shared fn otherIds) !! k =
  if bool_decide (k ∈ moduleId :: otherIds) then Some fn else mf !! k.
Proof.
  intros Hnone. unfold registerEntry. rewrite Hnone, foldl_insert_lookup.
  destruct (decide (k ∈ otherIds)) as [Hin | Hnin].
  - rewrite !bool_decide_eq_true_2; [reflexivity | by right | exact Hin].
  - rewrite (bool_decide_eq_false_2 (k ∈ otherIds)) by exact Hnin.
    destruct (decide (k = moduleId)) as [-> | Hne].
    + rewrite lookup_insert_eq, bool_decide_eq_true_2; [reflexivity | by left].
    + rewrite lookup_insert_ne by congruence.
      rewrite bool_decide_eq_false_2; [reflexivity|].
      intros Hin. apply elem_of_cons in Hin as [? | ?]; contradiction.
Qed.

Lemma registerEntry_other mf entry k :
  ~ mentions entry k -> registerEntry mf entry !! k = mf !! k.
Proof.
  destruct entry as [moduleId [f | fn otherIds]]; unfold mentions, aliasIds; simpl;
    intros Hk; destruct (mf !! moduleId) eqn:E; try reflexivity.
  - rewrite lookup_insert_ne; [reflexivity|]. intros ->. apply Hk. by left.
  - rewrite foldl_insert_lookup, bool_decide_eq_false_2 by (intros ?; apply Hk; by right).
    rewrite lookup_insert_ne; [reflexivity|]. intros ->. apply Hk. by left.
Qed.

Lemma registerEntry_mono mf entry k :
  is_Some (mf !! k) -> is_Some (registerEntry mf entry !! k).
Proof.
  intros Hk. destruct entry as [moduleId [f | fn otherIds]]; simpl;
    destruct (mf !! moduleId) eqn:E; try exact Hk.
  - destruct (decide (moduleId = k)) as [-> | Hne].
    + rewrite lookup_insert_eq. eauto.
    + rewrite lookup_insert_ne by exact Hne. exact Hk.
  - rewrite foldl_insert_lookup. case_bool_decide; [eauto|].
    destruct (decide (moduleId = k)) as [-> | Hne].
    + rewrite lookup_insert_eq. eauto.
    + rewrite lookup_insert_ne by exact Hne. exact Hk.
Qed.

Lemma registerEntry_keep mf entry k f :
  mf !! k = Some f ->
  (k ∈ aliasIds entry -> is_Some (mf !! entry.1)) ->
  registerEntry mf entry !! k = Some f.
Proof.
  intros Hk Halias. destruct entry as [moduleId e]. simpl in Halias.
  destruct (mf !! moduleId) eqn:E.
  - rewrite registerEntry_skip by eauto. exact Hk.
  - rewrite registerEntry_other; [exact Hk|].
    intros [-> | Hin]; simpl in *.
    + congruence.
    + destruct (Halias Hin) as [? ?]. congruence.
Qed.

Lemma registerFactories_middle mf pre e post :
  registerFactories mf (pre ++ e :: post) =
  registerFactories (registerEntry (registerFactories mf pre) e) post.
Proof. unfold registerFactories. rewrite foldl_app. reflexivity. Qed.

Lemma registerFactories_mono table mf k :
  is_Some (mf !! k) -> is_Some (registerFactories mf table !! k).
Proof.
  unfold registerFactories. revert mf.
  induction table as [|e rest IH]; intros mf Hk; simpl; [exact Hk|].
  apply IH, registerEntry_mono, Hk.
Qed.

Lemma registerFactories_other table mf k :
  (forall e, e ∈ table -> ~ mentions e k) ->
  registerFactories mf table !! k = mf !! k.
Proof.
  unfold registerFactories. revert mf.
  induction table as [|e rest IH]; intros mf Hk; simpl; [reflexivity|].
  rewrite IH by (intros e' He'; apply Hk; by right).
  apply registerEntry_other, Hk. by left.
Qed.

Lemma registerFactories_keep table mf k f :
  mf !! k = Some f ->
  (forall e, e ∈ table -> k ∈ aliasIds e -> is_Some (mf !! e.1)) ->
  registerFactories mf table !! k = Some f.
Proof.
  unfold registerFactories. revert mf.
  induction table as [|e rest IH]; intros mf Hk Halias; simpl; [exact Hk|].
  apply IH.
  - apply registerEntry_keep; [exact Hk|]. apply Halias. by left.
  - intros e' He' Hin. apply registerEntry_mono, Halias; [by right | exact Hin].
Qed.

(** ** The four ways through [loadChunkPath] *)

Section ChunkLoader.

Context (env : Env).

Lemma loadChunkPath_notJs chunkPath source st :
  isJs chunkPath = false -> loadChunkPath env chunkPath source st = (Ok tt, st).
Proof. intros H. unfold loadChunkPath. rewrite H. reflexivity. Qed.

Lemma loadChunkPath_loaded chunkPath source st :
  chunkPath ∈ loadedChunks st -> loadChunkPath env chunkPath source st = (Ok tt, st).
Proof.
  intros H. unfold loadChunkPath. destruct (isJs chunkPath); [|reflexivity].
  simpl. rewrite bool_decide_eq_true_2 by exact H. reflexivity.
Qed.

Lemma loadChunkPath_required chunkPath source st chunkModules :
  isJs chunkPath = true -> chunkPath ∉ loadedChunks st ->
  node_require env (requireLog st) (resolved env chunkPath) = Required chunkModules ->
  loadChunkPath env chunkPath source st =
  (Ok tt,
   set_loadedChunks (fun s => {[chunkPath]} ∪ s)
     (set_moduleFactories (fun mf => registerFactories mf chunkModules)
       (set_requireLog (fun l => l ++ [resolved env chunkPath]) st))).
Proof.
  intros Hjs Hnew Hreq. unfold loadChunkPath. rewrite Hjs. simpl.
  rewrite bool_decide_eq_false_2 by exact Hnew.
  unfold tryCatch, bind, ret, requireChunk, modify. rewrite Hreq. reflexivity.
Qed.

Lemma loadChunkPath_failed chunkPath source st e :
  isJs chunkPath = true -> chunkPath ∉ loadedChunks st ->
  node_require env (requireLog st) (resolved env chunkPath) = RequireThrows e ->
  loadChunkPath env chunkPath source st =
  (Throw (VError (nextRef st) (chunkErrorMessage chunkPath source) (Some e)),
   set_nextRef S (set_requireLog (fun l => l ++ [resolved env chunkPath]) st)).
Proof.
  intros Hjs Hnew Hreq. unfold loadChunkPath. rewrite Hjs. simpl.
  rewrite bool_decide_eq_false_2 by exact Hnew.
  unfold tryCatch, bind, ret, requireChunk, modify. rewrite Hreq. reflexivity.
Qed.

End ChunkLoader.

(** ** The ways through [loadChunkAsync] *)

Section ChunkLoaderAsync.

Context (env : Env).

Lemma loadChunkAsync_notJs source chunkData st :
  isJs (chunkDataPath chunkData) = false ->
  loadChunkAsync env source chunkData st = (Ok unsupportedLoadChunk, st).
Proof. intros H. unfold loadChunkAsync. rewrite H. reflexivity. Qed.

Lemma loadChunkAsync_cached source chunkData st entry :
  isJs (chunkDataPath chunkData) = true ->
  chunkCache st !! chunkDataPath chunkData = Some entry ->
  loadChunkAsync env source chunkData st = (Ok entry, st).
Proof. intros Hjs H. unfold loadChunkAsync. rewrite Hjs, H. reflexivity. Qed.

Lemma loadChunkAsync_required source chunkData st chunkModules :
  let chunkPath := chunkDataPath chunkData in
  isJs chunkPath = true -> chunkCache st !! chunkPath = None ->
  node_require env (requireLog st) (resolved env chunkPath) = Required chunkModules ->
  loadChunkAsync env source chunkData st =
  (Ok loadedChunk,
   set_chunkCache (fun c => <[chunkPath := loadedChunk]> c)
     (set_moduleFactories (fun mf => registerFactories mf chunkModules)
       (set_requireLog (fun l => l ++ [resolved env chunkPath]) st))).
Proof.
  intros chunkPath Hjs Hnone Hreq. unfold loadChunkAsync. fold chunkPath.
  rewrite Hjs, Hnone. simpl.
  unfold tryCatch, loadChunkUncached, bind, ret, promiseReject, requireChunk, modify. rewrite Hreq. reflexivity.
Qed.

Lemma loadChunkAsync_failed source chunkData st e :
  let chunkPath := chunkDataPath chunkData in
  let err := VError (nextRef st) (chunkErrorMessage chunkPath (Some source)) (Some e) in
  let entry := Rejected (S (nextRef st)) err in
  isJs chunkPath = true -> chunkCache st !! chunkPath = None ->
  node_require env (requireLog st) (resolved env chunkPath) = RequireThrows e ->
  loadChunkAsync env source chunkData st =
  (Ok entry,
   set_chunkCache (fun c => <[chunkPath := entry]> c)
     (set_nextRef S (set_nextRef S
       (set_requireLog (fun l => l ++ [resolved env chunkPath]) st)))).
Proof.
  intros chunkPath err entry Hjs Hnone Hreq. unfold loadChunkAsync. fold chunkPath.
  rewrite Hjs, Hnone. simpl.
  unfold tryCatch, loadChunkUncached, bind, ret, promiseReject, requireChunk, modify. rewrite Hreq. reflexivity.
Qed.

(** A rejected promise comes from a failed load of an executable chunk, and
    is stored under the path. *)
Lemma loadChunkAsync_rejected source chunkData st ref reason st1 :
  loadChunkAsync env source chunkData st = (Ok (Rejected ref reason), st1) ->
  isJs (chunkDataPath chunkData) = true /\
  chunkCache st1 !! chunkDataPath chunkData = Some (Rejected ref reason).
Proof.
  intros H. set (chunkPath := chunkDataPath chunkData) in *.
  destruct (isJs chunkPath) eqn:Hjs.
  2:{ rewrite loadChunkAsync_notJs in H by exact Hjs. discriminate. }
  split; [reflexivity|].
  destruct (chunkCache st !! chunkPath) as [entry|] eqn:Hc.
  - rewrite (loadChunkAsync_cached _ _ _ entry) in H by assumption.
    injection H as -> ->. exact Hc.
  - destruct (node_require env (requireLog st) (resolved env chunkPath)) as [t|e] eqn:Hreq.
    + rewrite (loadChunkAsync_required _ _ _ t) in H by assumption. discriminate.
    + rewrite (loadChunkAsync_failed _ _ _ e) in H by assumption.
      injection H as <- <- <-. simpl. apply lookup_insert_eq.
Qed.

End ChunkLoaderAsync.

(** ** The registry invariant is kept *)

Lemma wf_initialState : wf initialState.
Proof.
  constructor; simpl.
  - intros r m H. rewrite lookup_empty in H. discriminate.
  - intros i r H. rewrite lookup_empty in H. discriminate.
  - intros r [m H]. rewrite lookup_empty in H. discriminate.
  - constructor.
  - intros i H. inversion H.
Qed.

Lemma extends_refl st : extends st st.
Proof.
  constructor; auto.
  intros r m H. exists m. auto.
Qed.

Lemma extends_trans st1 st2 st3 : extends st1 st2 -> extends st2 st3 -> extends st1 st3.
Proof.
  intros [c1 r1 k1 n1] [c2 r2 k2 n2]. constructor.
  - auto.
  - intros r m H. destruct (r1 _ _ H) as (m' & H' & Hi & Hl & He).
    destruct (r2 _ _ H') as (m'' & H'' & Hi' & Hl' & He').
    exists m''. repeat split; congruence.
  - etransitivity; eassumption.
  - lia.
Qed.

(** Changes outside the cache, the records and the call log. *)
Lemma wf_frame st st' :
  moduleCache st' = moduleCache st -> modules st' = modules st ->
  factoryCalls st' = factoryCalls st -> nextRef st <= nextRef st' ->
  wf st -> wf st' /\ extends st st'.
Proof.
  intros Hc Hm Hk Hn [w1 w2 w3 w4 w5]. split.
  - constructor; rewrite ?Hc, ?Hm, ?Hk; auto.
    intros r Hr. specialize (w3 r Hr). lia.
  - constructor; rewrite ?Hc, ?Hm, ?Hk; auto.
    intros r m H. exists m. auto.
Qed.

(** Writing a field other than [id] of a record. *)
Lemma wf_alter st (f : Module -> Module) r :
  (forall m, id (f m) = id m) ->
  wf st -> wf (set_modules (alter f r) st).
Proof.
  intros Hid [w1 w2 w3 w4 w5]. constructor; simpl; auto.
  - intros r' m H. rewrite lookup_alter in H. case_decide.
    + subst r'. destruct (modules st !! r) as [m0|] eqn:E; simpl in H; [|discriminate].
      injection H as <-. rewrite Hid. eauto.
    + eauto.
  - intros i r' H. destruct (w2 _ _ H) as (m & Hm & Hi).
    rewrite lookup_alter. case_decide.
    + subst r'. rewrite Hm. simpl. exists (f m). rewrite Hid. auto.
    + eauto.
  - intros r' [m H]. apply w3. rewrite lookup_alter in H. case_decide; [|eauto].
    subst r'. destruct (modules st !! r); simpl in H; [eauto | discriminate].
Qed.

Lemma extends_alter st (f : Module -> Module) r :
  (forall m, id (f m) = id m /\ loaded (f m) = loaded m /\ error (f m) = error m) ->
  extends st (set_modules (alter f r) st).
Proof.
  intros Hf. constructor; simpl; auto.
  - intros r' m H. rewrite lookup_alter. case_decide.
    + subst r'. rewrite H. simpl. exists (f m). split; [reflexivity | apply Hf].
    + exists m. auto.
Qed.

(** Writing any field but [id] of a record that the earlier state did not
    have. *)
Lemma extends_alter_new st0 st (f : Module -> Module) r :
  modules st0 !! r = None ->
  extends st0 st -> extends st0 (set_modules (alter f r) st).
Proof.
  intros Hnew [c1 r1 k1 n1]. constructor; simpl; auto.
  intros r' m H. destruct (r1 _ _ H) as (m' & H' & Hrest).
  exists m'. split; [|exact Hrest].
  rewrite lookup_alter_ne; [exact H'|]. intros ->. congruence.
Qed.

(** ** Combinators *)

Lemma preserves_weaken {A} (P Q : State -> Prop) (c : M A) :
  (forall st, Q st -> P st) -> preserves P c -> preserves Q c.
Proof. intros HPQ Hc st out st' Hwf HQ. apply Hc; auto. Qed.

Lemma preserves_ret {A} (a : A) : preserves (fun _ => True) (ret a).
Proof.
  intros st out st' Hwf _ H. injection H as <- <-. auto using extends_refl.
Qed.

Lemma preserves_throw {A} v : preserves (fun _ => True) (@throw A v).
Proof.
  intros st out st' Hwf _ H. injection H as <- <-. auto using extends_refl.
Qed.

Lemma preserves_bind {A B} (c : M A) (k : A -> M B) :
  preserves (fun _ => True) c -> (forall a, preserves (fun _ => True) (k a)) ->
  preserves (fun _ => True) (bind c k).
Proof.
  intros Hc Hk st out st' Hwf _ H. unfold bind in H.
  destruct (c st) as [[a | v |] st1] eqn:E.
  - destruct (Hc _ _ _ Hwf I E) as [Hwf1 Hext1].
    destruct (Hk a _ _ _ Hwf1 I H) as [Hwf2 Hext2].
    eauto using extends_trans.
  - injection H as <- <-. exact (Hc _ _ _ Hwf I E).
  - injection H as <- <-. exact (Hc _ _ _ Hwf I E).
Qed.

Lemma preserves_tryCatch {A} (c : M A) (handler : Value -> M A) :
  preserves (fun _ => True) c -> (forall e, preserves (fun _ => True) (handler e)) ->
  preserves (fun _ => True) (tryCatch c handler).
Proof.
  intros Hc Hh st out st' Hwf _ H. unfold tryCatch in H.
  destruct (c st) as [[a | v |] st1] eqn:E.
  - injection H as <- <-. exact (Hc _ _ _ Hwf I E).
  - destruct (Hc _ _ _ Hwf I E) as [Hwf1 Hext1].
    destruct (Hh v _ _ _ Hwf1 I H) as [Hwf2 Hext2].
    eauto using extends_trans.
  - injection H as <- <-. exact (Hc _ _ _ Hwf I E).
Qed.

Lemma preserves_frame {A} (c : M A) :
  (forall st out st', c st = (out, st') ->
     moduleCache st' = moduleCache st /\ modules st' = modules st /\
     factoryCalls st' = factoryCalls st /\ nextRef st <= nextRef st') ->
  preserves (fun _ => True) c.
Proof.
  intros Hc st out st' Hwf _ H.
  destruct (Hc _ _ _ H) as (? & ? & ? & ?). apply wf_frame; auto.
Qed.

Lemma preserves_readModule r : preserves (fun _ => True) (readModule r).
Proof.
  apply preserves_frame. intros st out st' H. unfold readModule in H.
  destruct (modules st !! r); injection H as <- <-; auto.
Qed.

Lemma preserves_newError message cause : preserves (fun _ => True) (newError message cause).
Proof.
  apply preserves_frame. intros st out st' H. injection H as <- <-. simpl. auto.
Qed.

Section Instantiator.

Context (env : Env).

Lemma instantiateModule_unfold fuel id source st :
  instantiateModule env fuel id source st =
  match moduleFactories st !! id with
  | None => (let! err := newError (factoryMissingMessage id source) None in throw err) st
  | Some moduleFactory =>
      let ctx := {| ctx_m := S (nextRef st); ctx_e := nextRef st; ctx_id := id |} in
      let st1 := set_factoryCalls (fun l => id :: l) (insertFreshModule id st).2 in
      match fuel with
      | O => (Stuck, st1)
      | S n =>
          match runFactory env n (fbody moduleFactory) ctx st1 with
          | (Throw error, st2) =>
              (Throw error, set_modules (alter (set_error error) (ctx_m ctx)) st2)
          | (Stuck, st2) => (Stuck, st2)
          | (Ok _, st2) => finishModule env (ctx_m ctx) st2
          end
      end
  end.
Proof.
  destruct fuel as [|n]; simpl; destruct (moduleFactories st !! id) as [f|]; try reflexivity.
  unfold bind at 1. unfold insertFreshModule at 1.
  unfold bind at 1. unfold tryCatch. unfold bind at 1. unfold modify at 1.
  cbv zeta.
  change (set_factoryCalls (fun l => id :: l)
            (set_moduleCache (fun c => <[id := S (nextRef st)]> c)
               (set_modules (fun h => <[S (nextRef st) := freshModule id (nextRef st)]> h)
                  (set_objects (fun h => <[nextRef st := ∅]> h)
                     (set_nextRef (fun _ => S (S (nextRef st))) st)))))
    with (set_factoryCalls (fun l => id :: l) (insertFreshModule id st).2).
  destruct (runFactory env n (fbody f) _ _) as [[[] | v |] st2]; reflexivity.
Qed.

Lemma runFactory_unfold fuel body ctx st :
  runFactory env fuel body ctx st =
  match body with
  | [] => (Ok tt, st)
  | c :: rest =>
      match fuel with
      | O => (Stuck, st)
      | S n =>
          match execCmd env (instantiateModule env n) (runFactory env n) ctx c st with
          | (Ok _, st') => runFactory env n rest ctx st'
          | r => r
          end
      end
  end.
Proof.
  destruct fuel as [|n]; destruct body as [|c rest]; reflexivity.
Qed.

(** The chunk loaders leave the module cache and the records alone. *)
Lemma loadChunkAsync_frame source chunkData st out st' :
  loadChunkAsync env source chunkData st = (out, st') ->
  moduleCache st' = moduleCache st /\ modules st' = modules st /\
  factoryCalls st' = factoryCalls st /\ nextRef st <= nextRef st'.
Proof.
  unfold loadChunkAsync, tryCatch, loadChunkUncached, bind, ret, promiseReject, requireChunk, modify, newError.
  destruct (isJs _); simpl; [|intros H; injection H as <- <-; auto].
  destruct (chunkCache st !! _); [intros H; injection H as <- <-; auto|].
  destruct (node_require _ _ _); simpl; intros H; injection H as <- <-; simpl;
    repeat split; auto; lia.
Qed.

Lemma loadChunkPath_frame chunkPath source st out st' :
  loadChunkPath env chunkPath source st = (out, st') ->
  moduleCache st' = moduleCache st /\ modules st' = modules st /\
  factoryCalls st' = factoryCalls st /\ nextRef st <= nextRef st'.
Proof.
  unfold loadChunkPath, tryCatch, bind, ret, requireChunk, modify, newError, throw.
  destruct (isJs _); simpl; [|intros H; injection H as <- <-; auto].
  case_bool_decide; [intros E; injection E as <- <-; auto|].
  destruct (node_require _ _ _); simpl; intros E; injection E as <- <-; simpl;
    repeat split; auto; lia.
Qed.

Lemma loadChunk_wf chunkData source st :
  wf st -> wf (loadChunk env chunkData source st).2.
Proof.
  intros Hwf.
  assert (H : exists chunkPath,
            loadChunk env chunkData source st = loadChunkPath env chunkPath source st)
    by (destruct chunkData; eexists; reflexivity).
  destruct H as [chunkPath ->].
  destruct (loadChunkPath env chunkPath source st) as [out st'] eqn:E.
  destruct (loadChunkPath_frame _ _ _ _ _ E) as (? & ? & ? & ?).
  apply (wf_frame st st'); auto.
Qed.

Lemma preserves_execLocal ctx c : preserves (fun _ => True) (execLocal env ctx c).
Proof.
  destruct c; simpl.
  - apply preserves_ret.
  - apply preserves_frame. intros st out st' H. injection H as <- <-. simpl. auto.
  - intros st out st' Hwf _ H. injection H as <- <-. split.
    + apply wf_alter; auto.
    + apply extends_alter. auto.
  - intros st out st' Hwf _ H. injection H as <- <-. split.
    + apply wf_alter; auto.
    + apply extends_alter. auto.
  - apply preserves_bind; [|intros; apply preserves_ret].
    apply preserves_frame. apply loadChunkAsync_frame.
  - apply preserves_frame. intros st out st' H. injection H as <- <-. simpl. auto.
  - apply preserves_throw.
  - apply preserves_bind; [apply preserves_newError | intros; apply preserves_throw].
  - apply preserves_ret.
Qed.

(** Lines 254-261 at an id that is not cached. *)
Lemma insertFreshModule_spec id st :
  wf st -> moduleCache st !! id = None ->
  let st1 := set_factoryCalls (fun l => id :: l) (insertFreshModule id st).2 in
  (insertFreshModule id st).1 = Ok {| ctx_m := S (nextRef st); ctx_e := nextRef st; ctx_id := id |} /\
  wf st1 /\ extends st st1 /\
  moduleCache st1 !! id = Some (S (nextRef st)) /\
  modules st1 !! S (nextRef st) = Some (freshModule id (nextRef st)) /\
  objects st1 !! nextRef st = Some ∅ /\
  modules st !! S (nextRef st) = None.
Proof.
  intros [w1 w2 w3 w4 w5] Hnone. simpl.
  assert (Hnew : modules st !! S (nextRef st) = None).
  { destruct (modules st !! S (nextRef st)) eqn:E; [|reflexivity].
    assert (S (nextRef st) < nextRef st) by eauto. lia. }
  split; [reflexivity|]. split; [|split; [|repeat split]].
  - constructor; simpl.
    + intros r m H. destruct (decide (r = S (nextRef st))) as [-> | Hne].
      * rewrite lookup_insert_eq in H. injection H as <-. simpl.
        apply lookup_insert_eq.
      * rewrite lookup_insert_ne in H by congruence.
        rewrite lookup_insert_ne; [eauto|]. intros Heq.
        specialize (w1 _ _ H). congruence.
    + intros i r H. destruct (decide (i = id)) as [-> | Hne].
      * rewrite lookup_insert_eq in H. injection H as <-.
        rewrite lookup_insert_eq. eauto.
      * rewrite lookup_insert_ne in H by congruence.
        destruct (w2 _ _ H) as (m & Hm & Hi). exists m. split; [|exact Hi].
        rewrite lookup_insert_ne; [exact Hm|]. intros <-. congruence.
    + intros r [m H]. destruct (decide (r = S (nextRef st))) as [-> | Hne]; [lia|].
      rewrite lookup_insert_ne in H by congruence.
      assert (r < nextRef st) by eauto. lia.
    + constructor; [|exact w4]. intros Hin. destruct (w5 _ Hin). congruence.
    + intros i Hin. destruct (decide (i = id)) as [-> | Hne].
      * rewrite lookup_insert_eq. eauto.
      * rewrite lookup_insert_ne by congruence. apply w5.
        apply elem_of_cons in Hin as [? | ?]; [contradiction | assumption].
  - constructor; simpl.
    + intros i r H. rewrite lookup_insert_ne; [exact H|]. intros <-. congruence.
    + intros r m H. exists m. split; [|auto].
      rewrite lookup_insert_ne; [exact H|]. intros <-. congruence.
    + apply suffix_cons_r. reflexivity.
    + lia.
  - apply lookup_insert_eq.
  - apply lookup_insert_eq.
  - apply lookup_insert_eq.
  - exact Hnew.
Qed.

Lemma preserves_getOrInstantiateModuleFromParent_ instantiate id sourceModule :
  (forall source, preserves (uncached id) (instantiate id source)) ->
  preserves (fun _ => True)
    (getOrInstantiateModuleFromParent_ instantiate id sourceModule).
Proof.
  intros Hi st out st' Hwf _ H. unfold getOrInstantiateModuleFromParent_ in H.
  destruct (moduleCache st !! id) eqn:E.
  - unfold ret in H. injection H as <- <-. auto using extends_refl.
  - unfold bind, readModule in H. destruct (modules st !! sourceModule).
    + eapply Hi; eauto.
    + injection H as <- <-. auto using extends_refl.
Qed.

Lemma preserves_commonJsRequire_ instantiate sourceModule id :
  (forall source, preserves (uncached id) (instantiate id source)) ->
  preserves (fun _ => True) (commonJsRequire_ env instantiate sourceModule id).
Proof.
  intros Hi. unfold commonJsRequire_.
  apply preserves_bind; [apply preserves_getOrInstantiateModuleFromParent_, Hi|].
  intros module. apply preserves_bind; [apply preserves_readModule|].
  intros m. destruct (requireRethrows env && truthy (error m)).
  - apply preserves_throw.
  - apply preserves_bind; [|intros; apply preserves_ret].
    apply preserves_frame. intros st out st' H. injection H as <- <-. simpl. auto.
Qed.

Lemma preserves_execCmd instantiate run ctx c :
  (forall id source, preserves (uncached id) (instantiate id source)) ->
  (forall body, preserves (fun _ => True) (run body ctx)) ->
  preserves (fun _ => True) (execCmd env instantiate run ctx c).
Proof.
  intros Hi Hr.
  destruct c; try apply preserves_execLocal.
  - simpl. apply preserves_bind; [|intros; apply preserves_ret].
    apply preserves_commonJsRequire_. intros source. apply Hi.
  - simpl. apply preserves_tryCatch; [apply Hr | intros; apply Hr].
Qed.

(** Lines 301-307 on the record that the call created. *)
Lemma finishModule_spec module st0 st out st' :
  wf st -> extends st0 st -> modules st0 !! module = None ->
  finishModule env module st = (out, st') ->
  wf st' /\ extends st0 st' /\
  moduleCache st' = moduleCache st /\
  modules st' = alter (set_loaded true) module (modules st) /\
  factoryCalls st' = factoryCalls st /\
  (is_Some (modules st !! module) -> out = Ok module).
Proof.
  intros Hwf Hext Hnew H. unfold finishModule, bind, modify, readModule, ret in H.
  simpl in H.
  assert (Hwf1 : wf (set_modules (alter (set_loaded true) module) st))
    by (apply wf_alter; auto).
  assert (Hext1 : extends st0 (set_modules (alter (set_loaded true) module) st))
    by (apply extends_alter_new; auto).
  destruct (alter (set_loaded true) module (modules st) !! module) as [m|] eqn:E.
  - destruct (truthy (namespaceObject m) && negb (strictEquals (exports m) (namespaceObject m)));
      injection H as <- <-; simpl.
    + destruct (wf_frame (set_modules (alter (set_loaded true) module) st)
                (set_objects (interopEsm env (exports m) (namespaceObject m))
                   (set_modules (alter (set_loaded true) module) st)))
        as [Hwf2 Hext2]; auto.
      split; [exact Hwf2|]. split; [exact (extends_trans _ _ _ Hext1 Hext2)|].
      repeat split; auto.
    + split; [exact Hwf1|]. split; [exact Hext1|]. repeat split; auto.
  - injection H as <- <-. simpl.
    split; [exact Hwf1|]. split; [exact Hext1|]. repeat split; auto.
    intros [m Hm]. rewrite lookup_alter_eq, Hm in E. discriminate.
Qed.

Lemma instantiate_preserves fuel :
  (forall id source, preserves (uncached id) (instantiateModule env fuel id source)) /\
  (forall body ctx, preserves (fun _ => True) (runFactory env fuel body ctx)).
Proof.
  induction fuel as [|n [IHi IHr]].
  - split.
    + intros id source st out st' Hwf Hun H. rewrite instantiateModule_unfold in H.
      destruct (moduleFactories st !! id).
      * destruct (insertFreshModule_spec id st Hwf Hun) as (_ & Hwf1 & Hext1 & _).
        simpl in H. injection H as <- <-. auto.
      * revert H. apply (preserves_bind (newError _ _) (fun err => throw err)); auto.
        -- apply preserves_newError.
        -- intros; apply preserves_throw.
    + intros body ctx st out st' Hwf _ H. rewrite runFactory_unfold in H.
      destruct body; injection H as <- <-; auto using extends_refl.
  - split.
    + intros id source st out st' Hwf Hun H. rewrite instantiateModule_unfold in H.
      destruct (moduleFactories st !! id) as [moduleFactory|].
      * destruct (insertFreshModule_spec id st Hwf Hun)
          as (_ & Hwf1 & Hext1 & _ & _ & _ & Hnew).
        cbv zeta in H.
        destruct (runFactory env n (fbody moduleFactory) _ _) as [[[] | v |] st2] eqn:E.
        -- destruct (IHr _ _ _ _ _ Hwf1 I E) as [Hwf2 Hext2].
           destruct (finishModule_spec _ st _ _ _ Hwf2 (extends_trans _ _ _ Hext1 Hext2) Hnew H)
             as (? & ? & _). auto.
        -- destruct (IHr _ _ _ _ _ Hwf1 I E) as [Hwf2 Hext2].
           injection H as <- <-. split.
           ++ apply wf_alter; auto.
           ++ apply extends_alter_new; [exact Hnew|]. eauto using extends_trans.
        -- destruct (IHr _ _ _ _ _ Hwf1 I E) as [Hwf2 Hext2].
           injection H as <- <-. eauto using extends_trans.
      * revert H. apply (preserves_bind (newError _ _) (fun err => throw err)); auto.
        -- apply preserves_newError.
        -- intros; apply preserves_throw.
    + intros body ctx st out st' Hwf _ H. rewrite runFactory_unfold in H.
      destruct body as [|c rest]; [injection H as <- <-; auto using extends_refl|].
      destruct (execCmd env _ _ ctx c st) as [[[] | v |] st1] eqn:E.
      * destruct (preserves_execCmd _ _ ctx c IHi (fun b => IHr b ctx) _ _ _ Hwf I E)
          as [Hwf1 Hext1].
        destruct (IHr _ _ _ _ _ Hwf1 I H) as [Hwf2 Hext2].
        eauto using extends_trans.
      * injection H as <- <-.
        exact (preserves_execCmd _ _ ctx c IHi (fun b => IHr b ctx) _ _ _ Hwf I E).
      * injection H as <- <-.
        exact (preserves_execCmd _ _ ctx c IHi (fun b => IHr b ctx) _ _ _ Hwf I E).
Qed.

End Instantiator.

(** ** The chunk loader: the claims *)

Lemma loadChunkAsync_keeps_entries env source chunkData st p entry :
  chunkCache st !! p = Some entry ->
  chunkCache (loadChunkAsync env source chunkData st).2 !! p = Some entry.
Proof.
  intros Hp. unfold loadChunkAsync.
  destruct (isJs (chunkDataPath chunkData)); simpl; [|exact Hp].
  destruct (chunkCache st !! chunkDataPath chunkData) eqn:Hc; [exact Hp|].
  assert (Hne : chunkDataPath chunkData <> p) by congruence.
  unfold tryCatch, loadChunkUncached, bind, ret, promiseReject, requireChunk, modify, newError.
  destruct (node_require _ _ _); simpl; rewrite lookup_insert_ne by exact Hne; exact Hp.
Qed.

(** C4.  Once [loadChunkAsync] has answered a path with a rejected promise,
    that promise is the cache entry of the path; from any later state that
    still has the entry, a call for the path, whoever asks, returns the very
    same promise (so the same reason) and changes nothing, the log of
    requires included; calls for any path keep the entry; and after
    [clearChunkCache] the next call for the path requires the chunk file
    again. *)
Theorem loadChunkAsync_negative_caching env source chunkData st ref reason st1 :
  loadChunkAsync env source chunkData st = (Ok (Rejected ref reason), st1) ->
  let chunkPath := chunkDataPath chunkData in
  chunkCache st1 !! chunkPath = Some (Rejected ref reason) /\
  (forall st2 source' chunkData',
     chunkDataPath chunkData' = chunkPath ->
     chunkCache st2 !! chunkPath = Some (Rejected ref reason) ->
     loadChunkAsync env source' chunkData' st2 = (Ok (Rejected ref reason), st2)) /\
  (forall st2 source' chunkData',
     chunkCache st2 !! chunkPath = Some (Rejected ref reason) ->
     chunkCache (loadChunkAsync env source' chunkData' st2).2 !! chunkPath =
     Some (Rejected ref reason)) /\
  (forall st2 source' chunkData',
     chunkDataPath chunkData' = chunkPath ->
     requireLog (loadChunkAsync env source' chunkData' (clearChunkCache st2).2).2 =
     requireLog st2 ++ [resolved env chunkPath]).
Proof.
  intros H chunkPath.
  destruct (loadChunkAsync_rejected _ _ _ _ _ _ _ H) as [Hjs Hentry].
  fold chunkPath in Hjs, Hentry.
  split; [exact Hentry|]. split; [|split].
  - intros st2 source' chunkData' Hpath Hc.
    apply loadChunkAsync_cached; rewrite Hpath; assumption.
  - intros st2 source' chunkData' Hc. apply loadChunkAsync_keeps_entries, Hc.
  - intros st2 source' chunkData' Hpath.
    unfold loadChunkAsync. rewrite Hpath, Hjs. simpl. rewrite lookup_empty.
    unfold tryCatch, loadChunkUncached, bind, ret, promiseReject, requireChunk, modify, newError. simpl.
    destruct (node_require _ _ _); reflexivity.
Qed.

(** C6, as the code has it.  A factory that is registered stays in place
    through a chunk load, by [loadChunkPath] and by [loadChunkUncached]
    alike, when every entry of the chunk that lists the id as an alias has
    a primary id that was registered before the load: occurrences of the id
    as a primary id never replace its factory. *)
Theorem registered_factory_kept_unless_aliased env chunkPath source st id f :
  moduleFactories st !! id = Some f ->
  (forall chunkModules e,
     node_require env (requireLog st) (resolved env chunkPath) = Required chunkModules ->
     e ∈ chunkModules -> id ∈ aliasIds e -> is_Some (moduleFactories st !! e.1)) ->
  moduleFactories (loadChunkPath env chunkPath source st).2 !! id = Some f /\
  moduleFactories (loadChunkUncached env chunkPath st).2 !! id = Some f.
Proof.
  intros Hf Halias. split.
  - unfold loadChunkPath. destruct (isJs chunkPath); simpl; [|exact Hf].
    case_bool_decide; [exact Hf|].
    unfold tryCatch, bind, ret, requireChunk, modify, newError, throw.
    destruct (node_require _ _ _) as [chunkModules | e] eqn:Hreq; simpl; [|exact Hf].
    apply registerFactories_keep; [exact Hf|]. intros e. apply Halias. reflexivity.
  - unfold tryCatch, loadChunkUncached, bind, ret, promiseReject, requireChunk, modify.
    destruct (node_require _ _ _) as [chunkModules | e] eqn:Hreq; simpl; [|exact Hf].
    apply registerFactories_keep; [exact Hf|]. intros e. apply Halias. reflexivity.
Qed.

(** C7.  The step of the loop that handles a compressed entry
    [a: [fn, [b, c]]] while none of the three ids has a factory maps the
    three ids to the one factory [fn], all in that step.  So a chunk whose
    table holds the entry, loaded by [loadChunkPath] while none of the three
    ids has a factory and with the three ids nowhere else in the table,
    leaves the three ids registered with [fn]. *)
Theorem shared_entry_registers_aliases a b c fn :
  let entry := (a, Shared fn [b; c]) in
  (forall mf : gmap ModuleId ModuleFactory,
     mf !! a = None -> mf !! b = None -> mf !! c = None ->
     let mf' := registerEntry mf entry in
     mf' !! a = Some fn /\ mf' !! b = Some fn /\ mf' !! c = Some fn /\
     (forall k, k ∉ [a; b; c] -> mf' !! k = mf !! k)) /\
  (forall env chunkPath source st pre post,
     isJs chunkPath = true -> chunkPath ∉ loadedChunks st ->
     node_require env (requireLog st) (resolved env chunkPath) =
       Required (pre ++ entry :: post) ->
     moduleFactories st !! a = None ->
     moduleFactories st !! b = None ->
     moduleFactories st !! c = None ->
     (forall e k, e ∈ pre ++ post -> k ∈ [a; b; c] -> ~ mentions e k) ->
     exists st',
       loadChunkPath env chunkPath source st = (Ok tt, st') /\
       moduleFactories st' !! a = Some fn /\
       moduleFactories st' !! b = Some fn /\
       moduleFactories st' !! c = Some fn).
Proof.
  cbv zeta.
  assert (Hstep : forall (mf : gmap ModuleId ModuleFactory) k,
            mf !! a = None ->
            registerEntry mf (a, Shared fn [b; c]) !! k =
            if bool_decide (k ∈ [a; b; c]) then Some fn else mf !! k).
  { intros mf k Ha. apply registerEntry_shared, Ha. }
  split.
  - intros mf Ha _ _.
    repeat split;
      try (rewrite Hstep by exact Ha;
           rewrite bool_decide_eq_true_2; [reflexivity | repeat constructor]).
    intros k Hk. rewrite Hstep by exact Ha.
    rewrite bool_decide_eq_false_2; [reflexivity | exact Hk].
  - intros env chunkPath source st pre post Hjs Hnew Hreq Ha Hb Hc Helse.
    eexists. split; [apply loadChunkPath_required; eassumption|]. simpl.
    assert (Hfinal : forall k, k ∈ [a; b; c] ->
              registerFactories (moduleFactories st) (pre ++ (a, Shared fn [b; c]) :: post) !! k =
              Some fn).
    { intros k Hk. rewrite registerFactories_middle.
      rewrite registerFactories_other
        by (intros e He; apply Helse; [apply elem_of_app; by right | exact Hk]).
      rewrite Hstep.
      - rewrite bool_decide_eq_true_2; [reflexivity | exact Hk].
      - rewrite registerFactories_other; [exact Ha|].
        intros e He. apply Helse; [apply elem_of_app; by left | repeat constructor]. }
    repeat split; apply Hfinal; repeat constructor.
Qed.

(** C8.  A first [loadChunkPath] of an executable path that is not yet in
    [loadedChunks] and succeeds requires the chunk file once and adds the
    path to [loadedChunks]; a second call for the path returns with the
    state untouched, so the file has been required exactly once. *)
Theorem loadChunkPath_twice env chunkPath source source' st st1 :
  isJs chunkPath = true -> chunkPath ∉ loadedChunks st ->
  loadChunkPath env chunkPath source st = (Ok tt, st1) ->
  requireLog st1 = requireLog st ++ [resolved env chunkPath] /\
  loadedChunks st1 = {[chunkPath]} ∪ loadedChunks st /\
  loadChunkPath env chunkPath source' st1 = (Ok tt, st1) /\
  requireLog (loadChunkPath env chunkPath source' st1).2 =
    requireLog st ++ [resolved env chunkPath].
Proof.
  intros Hjs Hnew H.
  destruct (node_require env (requireLog st) (resolved env chunkPath))
    as [chunkModules | e] eqn:Hreq.
  - rewrite (loadChunkPath_required _ _ _ _ chunkModules) in H by assumption.
    injection H as <-. simpl.
    assert (Hin : chunkPath ∈ loadedChunks
              (set_loadedChunks (fun s => {[chunkPath]} ∪ s)
                 (set_moduleFactories (fun mf => registerFactories mf chunkModules)
                    (set_requireLog (fun l => l ++ [resolved env chunkPath]) st))))
      by (simpl; set_solver).
    rewrite (loadChunkPath_loaded _ _ _ _ Hin). auto.
  - rewrite (loadChunkPath_failed _ _ _ _ e) in H by assumption. discriminate.
Qed.

(** C9.  For a path that is not an executable chunk, [loadChunkPath] and
    [loadChunk] return normally, [loadChunkAsync] returns a resolved
    promise, and each leaves the whole state as it was: the factory table,
    the module cache, [loadedChunks] and [chunkCache] included. *)
Theorem non_js_chunk_is_noop env chunkData source source' st :
  isJs (chunkDataPath chunkData) = false ->
  loadChunkPath env (chunkDataPath chunkData) source st = (Ok tt, st) /\
  loadChunk env chunkData source st = (Ok tt, st) /\
  exists promise,
    loadChunkAsync env source' chunkData st = (Ok promise, st) /\
    isResolved promise = true.
Proof.
  intros Hjs. split; [apply loadChunkPath_notJs, Hjs|]. split.
  - destruct chunkData; simpl; apply loadChunkPath_notJs, Hjs.
  - exists unsupportedLoadChunk. split; [apply loadChunkAsync_notJs, Hjs | reflexivity].
Qed.

(** C10.  [isJs] holds exactly of the paths that end with [.js], optionally
    followed by a query and a fragment; on every other path [loadChunkPath]
    and [loadChunkAsync] return at once and require nothing, while on an
    executable path that is neither loaded nor cached they do require the
    chunk file; and a path without [?] and [#] that ends in [.mjs], [.cjs],
    [.json] or [.css] is not executable. *)
Theorem isJs_selects_executable_chunks env chunkPath source source' st :
  (isJs chunkPath = true <-> endsWithJs chunkPath) /\
  (isJs chunkPath = false ->
     loadChunkPath env chunkPath source st = (Ok tt, st) /\
     loadChunkAsync env source' (ChunkDataPath chunkPath) st = (Ok unsupportedLoadChunk, st)) /\
  (isJs chunkPath = true ->
     (chunkPath ∉ loadedChunks st ->
        requireLog (loadChunkPath env chunkPath source st).2 =
        requireLog st ++ [resolved env chunkPath]) /\
     (chunkCache st !! chunkPath = None ->
        requireLog (loadChunkAsync env source' (ChunkDataPath chunkPath) st).2 =
        requireLog st ++ [resolved env chunkPath])) /\
  (forall pre ext,
     Forall (fun c => c <> ch "?" /\ c <> ch "#") pre ->
     ext ∈ [lit ".mjs"; lit ".cjs"; lit ".json"; lit ".css"] ->
     isJs (pre ++ ext) = false).
Proof.
  split; [apply isJs_endsWithJs|]. split; [|split].
  - intros Hjs. split; [apply loadChunkPath_notJs, Hjs|].
    apply loadChunkAsync_notJs, Hjs.
  - intros Hjs. split.
    + intros Hnew. unfold loadChunkPath. rewrite Hjs. simpl.
      rewrite bool_decide_eq_false_2 by exact Hnew.
      unfold tryCatch, bind, ret, requireChunk, modify, newError, throw.
      destruct (node_require _ _ _); reflexivity.
    + intros Hnone. unfold loadChunkAsync. simpl. rewrite Hjs, Hnone. simpl.
      unfold tryCatch, loadChunkUncached, bind, ret, promiseReject, requireChunk, modify, newError.
      destruct (node_require _ _ _); reflexivity.
  - apply not_js_extension.
Qed.

(** ** The module instantiator: the claims *)

Section InstantiatorClaims.

Context (env : Env).

Lemma finishModule_no_throw module st out st' :
  finishModule env module st = (out, st') -> forall v, out <> Throw v.
Proof.
  unfold finishModule, bind, modify, readModule, ret. simpl.
  destruct (alter (set_loaded true) module (modules st) !! module) as [m|].
  - destruct (truthy (namespaceObject m) && negb (strictEquals (exports m) (namespaceObject m)));
      intros H; injection H as <- <-; discriminate.
  - intros H; injection H as <- <-; discriminate.
Qed.

(** What a call of [instantiateModule] at an uncached id with a factory
    leaves behind, however the factory ends. *)
Lemma instantiateModule_registered fuel id source st f out st' :
  wf st -> uncached id st -> moduleFactories st !! id = Some f ->
  instantiateModule env fuel id source st = (out, st') ->
  let r := S (nextRef st) in
  moduleCache st' !! id = Some r /\
  id ∈ factoryCalls st' /\
  (forall r0, out = Ok r0 -> r0 = r) /\
  exists m, modules st' !! r = Some m /\ idOf m = id /\
            (forall v, out = Throw v -> error m = v /\ loaded m = false) /\
            (forall r0, out = Ok r0 -> loaded m = true).
Proof.
  intros Hwf Hun Hf H r. rewrite instantiateModule_unfold, Hf in H. cbv zeta in H.
  destruct (insertFreshModule_spec id st Hwf Hun) as (_ & Hwf1 & Hext1 & Hc1 & Hm1 & _ & Hnew).
  cbv zeta in Hwf1, Hext1, Hc1, Hm1.
  set (st1 := set_factoryCalls (fun l => id :: l) (insertFreshModule id st).2) in *.
  assert (Hin1 : id ∈ factoryCalls st1) by (simpl; left).
  destruct fuel as [|n].
  { injection H as <- <-. repeat split; [exact Hc1 | exact Hin1 | discriminate |].
    exists (freshModule id (nextRef st)). repeat split; [exact Hm1 | discriminate.. ]. }
  destruct (runFactory env n (fbody f) _ st1) as [[[] | v |] st2] eqn:E;
    destruct (proj2 (instantiate_preserves env n) _ _ _ _ _ Hwf1 I E) as [Hwf2 Hext2];
    pose proof (ext_cache _ _ Hext2 _ _ Hc1) as Hc2;
    destruct (ext_records _ _ Hext2 _ _ Hm1) as (m2 & Hm2 & Hid2 & Hl2 & He2);
    destruct (ext_calls _ _ Hext2) as [k Hk];
    assert (Hin2 : id ∈ factoryCalls st2) by (rewrite Hk; apply elem_of_app; by right).
  - pose proof (finishModule_no_throw _ _ _ _ H) as Hnt.
    destruct (finishModule_spec env _ st _ _ _ Hwf2 (extends_trans _ _ _ Hext1 Hext2) Hnew H)
      as (_ & _ & Hc & Hm & Hk' & Hok).
    rewrite Hc, Hk', Hm. split; [exact Hc2|]. split; [exact Hin2|]. split.
    + intros r0 ->. specialize (Hok (ex_intro _ _ Hm2)). simpl in Hok.
      injection Hok as ->. reflexivity.
    + exists (set_loaded true m2). rewrite lookup_alter_eq, Hm2.
      split; [reflexivity|]. split; [exact Hid2|]. split.
      * intros v0 ->. exfalso. eapply Hnt; reflexivity.
      * reflexivity.
  - injection H as <- <-. simpl. split; [exact Hc2|]. split; [exact Hin2|].
    split; [discriminate|]. exists (set_error v m2). rewrite lookup_alter_eq, Hm2.
    split; [reflexivity|]. split; [exact Hid2|]. split.
    + intros v0 Hv. injection Hv as ->. split; [reflexivity | exact Hl2].
    + discriminate.
  - injection H as <- <-. split; [exact Hc2|]. split; [exact Hin2|].
    split; [discriminate|]. exists m2.
    split; [exact Hm2|]. split; [exact Hid2|]. split; discriminate.
Qed.

(** C2.  At an id without a factory [instantiateModule] throws, whatever the
    fuel, a new Error whose message is the text of line 250, which contains
    the reason of the request: the wording of a runtime entry for a
    [Runtime] source, the wording of a require for a [Parent] source.  The
    call allocates that Error and nothing else: the module cache and the
    records are as before, so the id is still not cached. *)
Theorem instantiateModule_missing_factory fuel id source st :
  moduleFactories st !! id = None ->
  let message := factoryMissingMessage id source in
  instantiateModule env fuel id source st =
    (Throw (VError (nextRef st) message None), set_nextRef S st) /\
  (exists before after, message = before ++ instantiationReason source ++ after) /\
  match source with
  | Runtime chunkPath =>
      instantiationReason source = lit "as a runtime entry of chunk " ++ chunkPath
  | Parent parentId =>
      instantiationReason source = lit "because it was required from module " ++ parentId
  end /\
  (let st' := (instantiateModule env fuel id source st).2 in
   moduleCache st' = moduleCache st /\ modules st' = modules st /\
   moduleFactories st' = moduleFactories st).
Proof.
  intros Hnone message.
  assert (E : instantiateModule env fuel id source st =
              (Throw (VError (nextRef st) message None), set_nextRef S st)).
  { rewrite instantiateModule_unfold, Hnone. reflexivity. }
  split; [exact E|]. split; [|split].
  - exists (lit "Module " ++ id ++ lit " was instantiated ").
    eexists. unfold message, factoryMissingMessage.
    rewrite <- !app_assoc. reflexivity.
  - destruct source; reflexivity.
  - rewrite E. simpl. auto.
Qed.

(** C3.  A call of [instantiateModule] that ends with the factory's throw of
    [v] leaves the record cached with [error = v] and [loaded = false];
    from that state on [getOrInstantiateModuleFromParent] returns the
    record and changes nothing.  [getOrInstantiateRuntimeModule] tests the
    recorded error for truthiness (line 350): it throws [v] again when [v]
    is truthy, as every Error is, and returns the record, as the parent
    path does, when [v] is falsy. *)
Theorem failed_module_parent_vs_runtime fuel id source st f v st1 :
  wf st -> moduleCache st !! id = None -> moduleFactories st !! id = Some f ->
  instantiateModule env fuel id source st = (Throw v, st1) ->
  exists r m,
    moduleCache st1 !! id = Some r /\ modules st1 !! r = Some m /\
    error m = v /\ loaded m = false /\
    (forall fuel' sourceModule,
       getOrInstantiateModuleFromParent env fuel' id sourceModule st1 = (Ok r, st1)) /\
    (forall fuel' chunkPath,
       getOrInstantiateRuntimeModule env fuel' id chunkPath st1 =
       if truthy v then (Throw v, st1) else (Ok r, st1)).
Proof.
  intros Hwf Hun Hf H.
  destruct (instantiateModule_registered _ _ _ _ _ _ _ Hwf Hun Hf H)
    as (Hc & _ & _ & m & Hm & _ & Hthrow & _).
  destruct (Hthrow v eq_refl) as [He Hl].
  exists (S (nextRef st)), m. repeat split; auto.
  - intros fuel' sourceModule.
    unfold getOrInstantiateModuleFromParent, getOrInstantiateModuleFromParent_.
    rewrite Hc. reflexivity.
  - intros fuel' chunkPath. unfold getOrInstantiateRuntimeModule.
    rewrite Hc. unfold bind, readModule. rewrite Hm, He.
    destruct (truthy v); reflexivity.
Qed.

Lemma getOrInstantiateRuntimeModule_preserves fuel moduleId chunkPath :
  preserves (fun _ => True) (getOrInstantiateRuntimeModule env fuel moduleId chunkPath).
Proof.
  intros st out st' Hwf _ H. unfold getOrInstantiateRuntimeModule in H.
  destruct (moduleCache st !! moduleId) as [r|] eqn:Hc.
  - revert H. apply (preserves_bind (readModule r)); auto.
    + apply preserves_readModule.
    + intros m. destruct (truthy (error m)); [apply preserves_throw | apply preserves_ret].
  - eapply (proj1 (instantiate_preserves env fuel)); eauto.
Qed.

Lemma getOrInstantiateModuleFromParent_preserves fuel id sourceModule :
  preserves (fun _ => True) (getOrInstantiateModuleFromParent env fuel id sourceModule).
Proof.
  apply preserves_getOrInstantiateModuleFromParent_.
  intros source. apply (proj1 (instantiate_preserves env fuel)).
Qed.

(** Every state that the exported functions bring about satisfies the
    invariant. *)
Lemma reachable_wf st : reachable env st -> wf st.
Proof.
  induction 1 as [|st chunkData source _ IH|st fuel moduleId chunkPath _ IH].
  - apply wf_initialState.
  - apply loadChunk_wf, IH.
  - destruct (getOrInstantiateRuntimeModule env fuel moduleId chunkPath st)
      as [out st'] eqn:E.
    exact (proj1 (getOrInstantiateRuntimeModule_preserves _ _ _ _ _ _ IH I E)).
Qed.

(** At most one record for an id, and at most one call of its factory. *)
Lemma wf_one_record st r1 r2 m1 m2 :
  wf st -> modules st !! r1 = Some m1 -> modules st !! r2 = Some m2 ->
  idOf m1 = idOf m2 -> r1 = r2.
Proof.
  intros Hwf H1 H2 Hid. apply (wf_cached _ Hwf) in H1, H2.
  unfold idOf in Hid. rewrite Hid in H1. congruence.
Qed.

(** C1, as the code has it.  From a state that satisfies the invariant
    [wf] (every state that the exported functions bring about does), both
    entry points keep it: every record is the one cached under its id, so
    no id has two records, and no id has two factory calls.  A call
    at an uncached id with a factory stores one fresh record, the only one
    of that id, and calls the factory once.  A call at a cached id changes
    nothing, calls no factory, and returns the cached record, except that
    [getOrInstantiateRuntimeModule] throws the recorded error when the
    record has one. *)
Theorem module_instantiated_once fuel id st :
  wf st ->
  (forall chunkPath out st',
     getOrInstantiateRuntimeModule env fuel id chunkPath st = (out, st') ->
     wf st' /\ extends st st') /\
  (forall sourceModule out st',
     getOrInstantiateModuleFromParent env fuel id sourceModule st = (out, st') ->
     wf st' /\ extends st st') /\
  (moduleCache st !! id = None -> is_Some (moduleFactories st !! id) ->
   forall out st',
     ((exists chunkPath,
         getOrInstantiateRuntimeModule env fuel id chunkPath st = (out, st')) \/
      (exists sourceModule,
         is_Some (modules st !! sourceModule) /\
         getOrInstantiateModuleFromParent env fuel id sourceModule st = (out, st'))) ->
     exists r,
       modules st !! r = None /\
       moduleCache st' !! id = Some r /\
       (forall r' m', modules st' !! r' = Some m' -> idOf m' = id -> r' = r) /\
       (id ∉ factoryCalls st) /\ (id ∈ factoryCalls st') /\ NoDup (factoryCalls st') /\
       (forall r0, out = Ok r0 -> r0 = r)) /\
  (forall r, moduleCache st !! id = Some r ->
     (forall fuel' sourceModule,
        getOrInstantiateModuleFromParent env fuel' id sourceModule st = (Ok r, st)) /\
     exists m,
       modules st !! r = Some m /\ idOf m = id /\
       forall fuel' chunkPath,
         getOrInstantiateRuntimeModule env fuel' id chunkPath st =
         (if truthy (error m) then Throw (error m) else Ok r, st)).
Proof.
  intros Hwf. split; [|split; [|split]].
  - intros chunkPath out st' H.
    exact (getOrInstantiateRuntimeModule_preserves _ _ _ _ _ _ Hwf I H).
  - intros sourceModule out st' H.
    exact (getOrInstantiateModuleFromParent_preserves _ _ _ _ _ _ Hwf I H).
  - intros Hun [f Hf] out st' Hcall.
    assert (H : exists source, instantiateModule env fuel id source st = (out, st')).
    { destruct Hcall as [[chunkPath H] | (sourceModule & [m Hm] & H)].
      - unfold getOrInstantiateRuntimeModule in H. rewrite Hun in H. eauto.
      - unfold getOrInstantiateModuleFromParent, getOrInstantiateModuleFromParent_ in H.
        rewrite Hun in H. unfold bind, readModule in H. rewrite Hm in H. eauto. }
    destruct H as [source H].
    destruct (insertFreshModule_spec id st Hwf Hun) as (_ & _ & _ & _ & _ & _ & Hnew).
    destruct (instantiateModule_registered _ _ _ _ _ _ _ Hwf Hun Hf H)
      as (Hc & Hin & Hok & m & Hm & Hid & _).
    destruct (proj1 (instantiate_preserves env fuel) _ _ _ _ _ Hwf Hun H) as [Hwf' _].
    exists (S (nextRef st)). repeat split; auto.
    + intros r' m' Hm' Hid'. eapply wf_one_record; eauto. congruence.
    + intros Hin0. destruct (wf_called _ Hwf _ Hin0) as [? ?].
      unfold uncached in Hun. congruence.
    + exact (wf_calls _ Hwf').
  - intros r Hc. split.
    + intros fuel' sourceModule.
      unfold getOrInstantiateModuleFromParent, getOrInstantiateModuleFromParent_.
      rewrite Hc. reflexivity.
    + destruct (wf_live _ Hwf _ _ Hc) as (m & Hm & Hid). exists m.
      split; [exact Hm|]. split; [exact Hid|].
      intros fuel' chunkPath. unfold getOrInstantiateRuntimeModule.
      rewrite Hc. unfold bind, readModule. rewrite Hm.
      destruct (truthy (error m)); reflexivity.
Qed.

End InstantiatorClaims.

(** ** Circular requires *)

Section Circular.

Context (env : Env).

Lemma sameButObjects_refl st : sameButObjects st st.
Proof. exists (objects st). destruct st; reflexivity. Qed.

Lemma runFactory_nil fuel ctx st : runFactory env fuel [] ctx st = (Ok tt, st).
Proof. rewrite runFactory_unfold. reflexivity. Qed.

Lemma runFactory_exportWrites writes rest ctx :
  forall fuel st, length writes <= fuel ->
  exists st',
    sameButObjects st st' /\
    runFactory env fuel (exportWrites writes ++ rest) ctx st =
    runFactory env (fuel - length writes) rest ctx st'.
Proof.
  induction writes as [|[key v] writes IH]; intros fuel st Hfuel; simpl in *.
  - exists st. rewrite Nat.sub_0_r. split; [apply sameButObjects_refl | reflexivity].
  - destruct fuel as [|n]; [lia|].
    rewrite runFactory_unfold. simpl.
    destruct (IH n (set_objects
                      (alter (fun o : gmap (list N) Value => <[key := v]> o) (ctx_e ctx)) st))
      as (st' & [h ->] & E); [lia|].
    eexists. split; [|exact E]. exists h. reflexivity.
Qed.

(** [r(id)] at a cached id whose record has no error. *)
Lemma commonJsRequire_cached instantiate sourceModule id st r m :
  moduleCache st !! id = Some r -> modules st !! r = Some m ->
  error m = VUndefined ->
  commonJsRequire_ env instantiate sourceModule id st =
  (Ok (exports m),
   set_requireTrace (fun t =>
     {| cap_by := sourceModule; cap_of := id; cap_module := r;
        cap_exports := exports m; cap_loaded := loaded m |} :: t) st).
Proof.
  intros Hc Hm He.
  unfold commonJsRequire_, getOrInstantiateModuleFromParent_, bind, readModule.
  rewrite Hc. unfold ret at 1. rewrite Hm, He. simpl. rewrite andb_false_r. reflexivity.
Qed.

(** [r(id)] at an uncached id whose instantiation succeeds. *)
Lemma commonJsRequire_fresh instantiate sourceModule id st source r st' m :
  moduleCache st !! id = None -> modules st !! sourceModule = Some source ->
  instantiate id (Parent (idOf source)) st = (Ok r, st') ->
  modules st' !! r = Some m -> error m = VUndefined ->
  commonJsRequire_ env instantiate sourceModule id st =
  (Ok (exports m),
   set_requireTrace (fun t =>
     {| cap_by := sourceModule; cap_of := id; cap_module := r;
        cap_exports := exports m; cap_loaded := loaded m |} :: t) st').
Proof.
  intros Hc Hs Hi Hm He.
  unfold commonJsRequire_, getOrInstantiateModuleFromParent_, bind, readModule.
  rewrite Hc, Hs, Hi, Hm, He. simpl. rewrite andb_false_r. reflexivity.
Qed.

(** Lines 301-307 on a record without a namespace object. *)
Lemma finishModule_plain module st m :
  modules st !! module = Some m -> namespaceObject m = VUndefined ->
  finishModule env module st =
  (Ok module, set_modules (alter (set_loaded true) module) st).
Proof.
  intros Hm Hn. unfold finishModule, bind, modify, readModule, ret. simpl.
  rewrite lookup_alter_eq, Hm. simpl. rewrite Hn. reflexivity.
Qed.



End Circular.

(** ** The claims at concrete inputs *)

Lemma wf_boomLoaded : wf boomLoaded.
Proof. apply loadChunk_wf, wf_initialState. Qed.

Lemma idA_neq_idB : idA <> idB.
Proof. intros H. vm_compute in H. discriminate H. Qed.

(** C1 as stated fails: the factory of module A throws, the record stays
    cached, and a second [getOrInstantiateRuntimeModule] for A throws the
    recorded error and does not return the record. *)
Lemma failed_module_not_returned_to_runtime :
  moduleCache boomLoaded !! idA = None /\
  getOrInstantiateRuntimeModule boomHost 5 idA (lit "boom.js") boomLoaded =
    (Throw boomError, boomFailed) /\
  moduleCache boomFailed !! idA = Some 1 /\
  getOrInstantiateRuntimeModule boomHost 5 idA (lit "boom.js") boomFailed =
    (Throw boomError, boomFailed) /\
  getOrInstantiateRuntimeModule boomHost 5 idA (lit "boom.js") boomFailed <>
    (Ok 1, boomFailed) /\
  factoryCalls boomFailed = [idA].
Proof.
  assert (E : getOrInstantiateRuntimeModule boomHost 5 idA (lit "boom.js") boomFailed =
              (Throw boomError, boomFailed)) by (vm_compute; reflexivity).
  split; [vm_compute; reflexivity|]. split; [vm_compute; reflexivity|].
  split; [vm_compute; reflexivity|]. split; [exact E|].
  split; [rewrite E; discriminate | vm_compute; reflexivity].
Qed.

(** C1 on the module whose factory throws: one record, one factory call,
    and the parent path returns the record from then on. *)
Lemma module_instantiated_once_witness :
  wf boomLoaded /\
  moduleCache boomLoaded !! idA = None /\
  is_Some (moduleFactories boomLoaded !! idA) /\
  exists r,
    modules boomLoaded !! r = None /\
    moduleCache boomFailed !! idA = Some r /\
    (forall r' m', modules boomFailed !! r' = Some m' -> idOf m' = idA -> r' = r) /\
    (idA ∉ factoryCalls boomLoaded) /\ (idA ∈ factoryCalls boomFailed) /\
    NoDup (factoryCalls boomFailed) /\
    (forall fuel' sourceModule,
       getOrInstantiateModuleFromParent boomHost fuel' idA sourceModule boomFailed =
       (Ok r, boomFailed)).
Proof.
  assert (Hun : moduleCache boomLoaded !! idA = None) by (vm_compute; reflexivity).
  assert (Hf : is_Some (moduleFactories boomLoaded !! idA))
    by (exists factoryBoom; vm_compute; reflexivity).
  assert (Hcall : getOrInstantiateRuntimeModule boomHost 5 idA (lit "boom.js") boomLoaded =
                  (Throw boomError, boomFailed)) by (vm_compute; reflexivity).
  split; [exact wf_boomLoaded|]. split; [exact Hun|]. split; [exact Hf|].
  destruct (module_instantiated_once boomHost 5 idA boomLoaded wf_boomLoaded)
    as (Hkeep & _ & Hfirst & _).
  destruct (Hfirst Hun Hf _ _ (or_introl (ex_intro _ (lit "boom.js") Hcall)))
    as (r & Hnew & Hc & Hone & Hnin & Hin & Hnodup & _).
  destruct (Hkeep _ _ _ Hcall) as [Hwf' _].
  exists r. repeat (split; [assumption|]).
  apply (module_instantiated_once boomHost 5 idA boomFailed Hwf'). exact Hc.
Defined.

(** C2 at process start, for a request made by module B. *)
Lemma instantiateModule_missing_factory_witness :
  moduleFactories initialState !! idA = None /\
  instantiateModule emptyHost 3 idA (Parent idB) initialState =
    (Throw (VError 0
       (lit "Module [project]/a.js was instantiated because it was required from module [project]/b.js, but the module factory is not available. It might have been deleted in an HMR update.")
       None),
     set_nextRef S initialState).
Proof.
  split; [reflexivity|].
  apply (instantiateModule_missing_factory emptyHost 3 idA (Parent idB) initialState).
  reflexivity.
Defined.

(** C3 as stated fails: the factory of module A does [throw undefined]; the
    record stays cached with that error and [loaded = false], and a later
    [getOrInstantiateRuntimeModule] for A returns the record and throws
    nothing. *)
Lemma falsy_error_is_returned_to_runtime :
  instantiateModule quietHost 5 idA (Runtime (lit "quiet.js")) quietLoaded =
    (Throw VUndefined, quietFailed) /\
  moduleCache quietFailed !! idA = Some 1 /\
  modules quietFailed !! 1 = Some (set_error VUndefined (freshModule idA 0)) /\
  loaded (set_error VUndefined (freshModule idA 0)) = false /\
  getOrInstantiateRuntimeModule quietHost 5 idA (lit "quiet.js") quietFailed =
    (Ok 1, quietFailed) /\
  getOrInstantiateRuntimeModule quietHost 5 idA (lit "quiet.js") quietFailed <>
    (Throw VUndefined, quietFailed).
Proof.
  assert (E : getOrInstantiateRuntimeModule quietHost 5 idA (lit "quiet.js") quietFailed =
              (Ok 1, quietFailed)) by (vm_compute; reflexivity).
  split; [vm_compute; reflexivity|]. split; [vm_compute; reflexivity|].
  split; [vm_compute; reflexivity|]. split; [reflexivity|].
  split; [exact E | rewrite E; discriminate].
Qed.

(** C3 as amended, on the module whose factory throws an Error. *)
Lemma failed_module_parent_vs_runtime_witness :
  instantiateModule boomHost 5 idA (Runtime (lit "boom.js")) boomLoaded =
    (Throw boomError, boomFailed) /\
  truthy boomError = true /\
  exists r m,
    moduleCache boomFailed !! idA = Some r /\ modules boomFailed !! r = Some m /\
    error m = boomError /\ loaded m = false /\
    (forall fuel' sourceModule,
       getOrInstantiateModuleFromParent boomHost fuel' idA sourceModule boomFailed =
       (Ok r, boomFailed)) /\
    (forall fuel' chunkPath,
       getOrInstantiateRuntimeModule boomHost fuel' idA chunkPath boomFailed =
       (Throw boomError, boomFailed)).
Proof.
  assert (E : instantiateModule boomHost 5 idA (Runtime (lit "boom.js")) boomLoaded =
              (Throw boomError, boomFailed)) by (vm_compute; reflexivity).
  split; [exact E|]. split; [reflexivity|].
  destruct (failed_module_parent_vs_runtime boomHost 5 idA (Runtime (lit "boom.js"))
              boomLoaded factoryBoom boomError boomFailed)
    as (r & m & Hc & Hm & He & Hl & Hparent & Hruntime).
  - exact wf_boomLoaded.
  - vm_compute. reflexivity.
  - vm_compute. reflexivity.
  - exact E.
  - exists r, m. split; [exact Hc|]. split; [exact Hm|]. split; [exact He|].
    split; [exact Hl|]. split; [exact Hparent | exact Hruntime].
Defined.

(** C4 on a chunk file that does not exist. *)
Lemma loadChunkAsync_negative_caching_witness :
  loadChunkAsync emptyHost (Runtime (lit "main.js")) (ChunkDataPath (lit "gone.js"))
    initialState = (Ok (Rejected 1 goneError), goneFailed) /\
  chunkCache goneFailed !! lit "gone.js" = Some (Rejected 1 goneError) /\
  loadChunkAsync emptyHost (Parent idA) (ChunkDataObject (lit "gone.js")) goneFailed =
    (Ok (Rejected 1 goneError), goneFailed) /\
  requireLog
    (loadChunkAsync emptyHost (Parent idA) (ChunkDataPath (lit "gone.js"))
       (clearChunkCache goneFailed).2).2 =
  requireLog goneFailed ++ [lit "/app/gone.js"].
Proof.
  assert (E : loadChunkAsync emptyHost (Runtime (lit "main.js"))
                (ChunkDataPath (lit "gone.js")) initialState =
              (Ok (Rejected 1 goneError), goneFailed)) by (vm_compute; reflexivity).
  destruct (loadChunkAsync_negative_caching emptyHost _ _ _ _ _ _ E)
    as (Hentry & Hsame & _ & Hclear).
  split; [exact E|]. split; [exact Hentry|]. split.
  - apply Hsame; [reflexivity | exact Hentry].
  - apply (Hclear goneFailed). reflexivity.
Defined.



(** C6 as stated fails: module B has [factory1] from the chunk [a.js]; the
    chunk [b.js] lists B as an alias of A, which has no factory yet, and
    loading it, by [loadChunkPath] or by [loadChunkAsync], replaces the
    factory of B by [factory2]. *)
Lemma alias_registration_replaces_factory :
  let st1 := (loadChunkPath aliasHost (lit "a.js") None initialState).2 in
  let st2 := (loadChunkPath aliasHost (lit "b.js") None st1).2 in
  let st2' := (loadChunkAsync aliasHost (Runtime (lit "a.js")) (ChunkDataPath (lit "b.js")) st1).2 in
  moduleFactories st1 !! idB = Some factory1 /\
  moduleFactories st2 !! idB = Some factory2 /\
  moduleFactories st2' !! idB = Some factory2 /\
  factory1 <> factory2.
Proof.
  split; [vm_compute; reflexivity|]. split; [vm_compute; reflexivity|].
  split; [vm_compute; reflexivity | discriminate].
Qed.

(** C6 as amended: [c.js] lists B as an alias of A, which is registered,
    so the entry is skipped and B keeps its factory. *)
Lemma registered_factory_kept_unless_aliased_witness :
  moduleFactories keepLoaded !! idB = Some factory2 /\
  moduleFactories (loadChunkPath keepHost (lit "c.js") None keepLoaded).2 !! idB =
    Some factory2 /\
  moduleFactories (loadChunkUncached keepHost (lit "c.js") keepLoaded).2 !! idB =
    Some factory2.
Proof.
  assert (Hf : moduleFactories keepLoaded !! idB = Some factory2) by (vm_compute; reflexivity).
  split; [exact Hf|].
  apply (registered_factory_kept_unless_aliased keepHost (lit "c.js") None keepLoaded
           idB factory2 Hf).
  intros chunkModules e Hreq He _.
  vm_compute in Hreq. injection Hreq as <-.
  apply list_elem_of_singleton in He. subst e.
  exists factory2. vm_compute. reflexivity.
Defined.

(** C7 on the chunk with one compressed entry. *)
Lemma shared_entry_registers_aliases_witness :
  exists st',
    loadChunkPath sharedHost (lit "shared.js") None initialState = (Ok tt, st') /\
    moduleFactories st' !! idA = Some factory1 /\
    moduleFactories st' !! idB = Some factory1 /\
    moduleFactories st' !! idC = Some factory1.
Proof.
  apply (proj2 (shared_entry_registers_aliases idA idB idC factory1)
           sharedHost (lit "shared.js") None initialState [] []).
  - vm_compute. reflexivity.
  - intros H. inversion H.
  - vm_compute. reflexivity.
  - reflexivity.
  - reflexivity.
  - reflexivity.
  - intros e k He. inversion He.
Defined.

(** C8 on the same chunk, loaded twice. *)
Lemma loadChunkPath_twice_witness :
  loadChunkPath sharedHost (lit "shared.js") None initialState = (Ok tt, sharedLoaded) /\
  requireLog sharedLoaded = [lit "/app/shared.js"] /\
  loadedChunks sharedLoaded = {[lit "shared.js"]} ∪ ∅ /\
  loadChunkPath sharedHost (lit "shared.js") (Some (Parent idA)) sharedLoaded =
    (Ok tt, sharedLoaded) /\
  requireLog (loadChunkPath sharedHost (lit "shared.js") (Some (Parent idA)) sharedLoaded).2 =
    [lit "/app/shared.js"].
Proof.
  assert (E : loadChunkPath sharedHost (lit "shared.js") None initialState =
              (Ok tt, sharedLoaded)) by (vm_compute; reflexivity).
  split; [exact E|].
  apply (loadChunkPath_twice sharedHost (lit "shared.js") None (Some (Parent idA))
           initialState sharedLoaded).
  - vm_compute. reflexivity.
  - intros H. inversion H.
  - exact E.
Defined.

(** C9 on a stylesheet chunk. *)
Lemma non_js_chunk_is_noop_witness :
  isJs (lit "app/styles.css") = false /\
  loadChunkPath emptyHost (lit "app/styles.css") None initialState = (Ok tt, initialState) /\
  loadChunk emptyHost (ChunkDataPath (lit "app/styles.css")) None initialState =
    (Ok tt, initialState) /\
  exists promise,
    loadChunkAsync emptyHost (Parent idA) (ChunkDataPath (lit "app/styles.css")) initialState =
      (Ok promise, initialState) /\
    isResolved promise = true.
Proof.
  split; [vm_compute; reflexivity|].
  apply (non_js_chunk_is_noop emptyHost (ChunkDataPath (lit "app/styles.css")) None
           (Parent idA) initialState).
  vm_compute. reflexivity.
Defined.

(** C10 on a path with a query and a fragment, and on an [.mjs] path. *)
Lemma isJs_selects_executable_chunks_witness :
  isJs (lit "chunks/a.js?v=1#top") = true /\
  endsWithJs (lit "chunks/a.js?v=1#top") /\
  isJs (lit "chunks/a.mjs") = false /\
  loadChunkPath emptyHost (lit "chunks/a.mjs") None initialState = (Ok tt, initialState) /\
  loadChunkAsync emptyHost (Parent idA) (ChunkDataPath (lit "chunks/a.mjs")) initialState =
    (Ok unsupportedLoadChunk, initialState).
Proof.
  assert (Hjs : isJs (lit "chunks/a.js?v=1#top") = true) by (vm_compute; reflexivity).
  assert (Hnot : isJs (lit "chunks/a.mjs") = false) by (vm_compute; reflexivity).
  split; [exact Hjs|]. split.
  - apply (proj1 (isJs_selects_executable_chunks emptyHost (lit "chunks/a.js?v=1#top")
                    None (Parent idA) initialState)). exact Hjs.
  - split; [exact Hnot|].
    apply (proj1 (proj2 (isJs_selects_executable_chunks emptyHost (lit "chunks/a.mjs")
                           None (Parent idA) initialState))). exact Hnot.
Defined.

(** ** Further properties of the chunk loader and the instantiator *)

Section LoaderExtras.
Context (env : Env).

Lemma registerFactories_registered mf table :
  (forall k, k ∈ primaryIds table -> is_Some (mf !! k)) ->
  registerFactories mf table = mf.
Proof.
  unfold registerFactories, primaryIds.
  revert mf. induction table as [|[k e] rest IH]; intros mf H; [reflexivity|].
  cbn [foldl]. rewrite registerEntry_skip by (apply H; by left).
  apply IH. intros k' Hk'. apply H. by right.
Qed.

Lemma registerEntry_primary mf k e : is_Some (registerEntry mf (k, e) !! k).
Proof.
  unfold registerEntry. destruct (mf !! k) eqn:E; [rewrite E; eauto|].
  destruct e as [f | fn others].
  - rewrite lookup_insert_eq. eauto.
  - rewrite foldl_insert_lookup. case_bool_decide; [eauto|].
    rewrite lookup_insert_eq. eauto.
Qed.

Lemma registerFactories_primaries mf table k :
  k ∈ primaryIds table -> is_Some (registerFactories mf table !! k).
Proof.
  unfold primaryIds. revert mf.
  induction table as [|[k' e] rest IH]; intros mf Hk; [inversion Hk|].
  cbn [List.map fst] in Hk. unfold registerFactories. cbn [foldl].
  apply elem_of_cons in Hk as [-> | Hk].
  - apply (registerFactories_mono rest), registerEntry_primary.
  - apply (IH _ Hk).
Qed.

(** X1.  A chunk that brings nothing new changes no factory: when every
    primary id of the chunk's table already has a factory, [loadChunkPath]
    and [loadChunkUncached] leave the factory table as it was, alias ids
    included. *)
Theorem redundant_chunk_changes_nothing chunkPath source st chunkModules :
  node_require env (requireLog st) (resolved env chunkPath) = Required chunkModules ->
  (forall k, k ∈ primaryIds chunkModules -> is_Some (moduleFactories st !! k)) ->
  moduleFactories (loadChunkPath env chunkPath source st).2 = moduleFactories st /\
  moduleFactories (loadChunkUncached env chunkPath st).2 = moduleFactories st.
Proof.
  intros Hreq Hreg. split.
  - unfold loadChunkPath. destruct (isJs chunkPath); simpl; [|reflexivity].
    case_bool_decide; [reflexivity|].
    unfold tryCatch, bind, ret, requireChunk, modify. rewrite Hreq. simpl.
    apply registerFactories_registered, Hreg.
  - unfold loadChunkUncached, bind, requireChunk, modify. rewrite Hreq. simpl.
    apply registerFactories_registered, Hreg.
Qed.


(** X2.  A failed synchronous load is not remembered.  When [require]
    throws [e], [loadChunkPath] throws a new Error whose message is
    [Failed to load chunk P], followed by [ from ] and the source when one
    is given, and whose cause is [e]; the factories, the set of loaded
    chunks and both caches are as before, so the next call for the path
    requires the file again, and loads the chunk if that succeeds. *)
Theorem loadChunkPath_failure_is_retried chunkPath source source' st e :
  isJs chunkPath = true -> chunkPath ∉ loadedChunks st ->
  node_require env (requireLog st) (resolved env chunkPath) = RequireThrows e ->
  let message :=
    match source with
    | Some s => lit "Failed to load chunk " ++ chunkPath ++ lit " from " ++ stringifySourceInfo s
    | None => lit "Failed to load chunk " ++ chunkPath
    end in
  exists st1,
    loadChunkPath env chunkPath source st = (Throw (VError (nextRef st) message (Some e)), st1) /\
    moduleFactories st1 = moduleFactories st /\
    loadedChunks st1 = loadedChunks st /\
    chunkCache st1 = chunkCache st /\
    moduleCache st1 = moduleCache st /\
    requireLog st1 = requireLog st ++ [resolved env chunkPath] /\
    requireLog (loadChunkPath env chunkPath source' st1).2 =
      requireLog st ++ [resolved env chunkPath; resolved env chunkPath] /\
    (forall chunkModules,
       node_require env (requireLog st1) (resolved env chunkPath) = Required chunkModules ->
       exists st2,
         loadChunkPath env chunkPath source' st1 = (Ok tt, st2) /\
         chunkPath ∈ loadedChunks st2 /\
         moduleFactories st2 = registerFactories (moduleFactories st) chunkModules).
Proof.
  intros Hjs Hnew Hreq message.
  eexists. split.
  { rewrite (loadChunkPath_failed env chunkPath source st e Hjs Hnew Hreq).
    unfold message, chunkErrorMessage. destruct source; rewrite <- ?app_assoc; reflexivity. }
  simpl. repeat (split; [reflexivity|]). split.
  - unfold loadChunkPath. rewrite Hjs. simpl.
    rewrite bool_decide_eq_false_2 by exact Hnew.
    unfold tryCatch, bind, ret, requireChunk, modify, newError, throw. simpl.
    destruct (node_require env (requireLog st ++ [resolved env chunkPath])
                (resolved env chunkPath)); simpl; rewrite <- app_assoc; reflexivity.
  - intros chunkModules Hreq2. eexists. split.
    + apply loadChunkPath_required; [exact Hjs | exact Hnew | exact Hreq2].
    + simpl. split; [set_solver | reflexivity].
Qed.

(** X3.  A successful asynchronous load is remembered until the cache is
    cleared: the first [loadChunkAsync] of a JavaScript path requires the
    file, registers its factories and stores the resolved promise
    [loadedChunk] under the path, without touching [loadedChunks]; the next
    call returns that promise and changes nothing; [clearChunkCache] keeps
    the factories, and the call after it requires the file again. *)
Theorem loadChunkAsync_success_is_memoized source source' chunkData st chunkModules :
  let chunkPath := chunkDataPath chunkData in
  isJs chunkPath = true -> chunkCache st !! chunkPath = None ->
  node_require env (requireLog st) (resolved env chunkPath) = Required chunkModules ->
  exists st1,
    loadChunkAsync env source chunkData st = (Ok loadedChunk, st1) /\
    moduleFactories st1 = registerFactories (moduleFactories st) chunkModules /\
    loadedChunks st1 = loadedChunks st /\
    chunkCache st1 = <[chunkPath := loadedChunk]> (chunkCache st) /\
    requireLog st1 = requireLog st ++ [resolved env chunkPath] /\
    loadChunkAsync env source' chunkData st1 = (Ok loadedChunk, st1) /\
    moduleFactories (clearChunkCache st1).2 = moduleFactories st1 /\
    requireLog (loadChunkAsync env source' chunkData (clearChunkCache st1).2).2 =
      requireLog st ++ [resolved env chunkPath; resolved env chunkPath].
Proof.
  intros chunkPath Hjs Hnone Hreq. eexists. split.
  { apply loadChunkAsync_required; eassumption. }
  simpl. repeat (split; [reflexivity|]). split; [|split; [reflexivity|]].
  - apply loadChunkAsync_cached; [exact Hjs|]. simpl. apply lookup_insert_eq.
  - unfold loadChunkAsync. fold chunkPath. rewrite Hjs. simpl. rewrite lookup_empty.
    unfold tryCatch, loadChunkUncached, bind, ret, promiseReject, requireChunk, modify, newError.
    simpl.
    destruct (node_require env (requireLog st ++ [resolved env chunkPath])
                (resolved env chunkPath)); simpl; rewrite <- app_assoc; reflexivity.
Qed.

(** X4.  The memo of [loadChunkPath] ([loadedChunks]) and the memo of
    [loadChunkAsync] ([chunkCache]) do not know of each other: a JavaScript
    path that the one has loaded is required again by the other, in both
    directions; [loadChunkAsync] never changes [loadedChunks] and
    [loadChunkPath] never changes [chunkCache]. *)
Theorem sync_and_async_memos_are_apart source source' chunkPath st :
  isJs chunkPath = true ->
  (chunkPath ∈ loadedChunks st -> chunkCache st !! chunkPath = None ->
   loadChunkPath env chunkPath source st = (Ok tt, st) /\
   requireLog (loadChunkAsync env source' (ChunkDataPath chunkPath) st).2 =
     requireLog st ++ [resolved env chunkPath]) /\
  (forall entry, chunkCache st !! chunkPath = Some entry -> chunkPath ∉ loadedChunks st ->
   loadChunkAsync env source' (ChunkDataPath chunkPath) st = (Ok entry, st) /\
   requireLog (loadChunkPath env chunkPath source st).2 =
     requireLog st ++ [resolved env chunkPath]) /\
  loadedChunks (loadChunkAsync env source' (ChunkDataPath chunkPath) st).2 = loadedChunks st /\
  chunkCache (loadChunkPath env chunkPath source st).2 = chunkCache st.
Proof.
  intros Hjs. split; [|split; [|split]].
  - intros Hin Hnone. split; [apply loadChunkPath_loaded, Hin|].
    unfold loadChunkAsync. simpl. rewrite Hjs, Hnone. simpl.
    unfold tryCatch, loadChunkUncached, bind, ret, promiseReject, requireChunk, modify, newError.
    destruct (node_require _ _ _); reflexivity.
  - intros entry Hc Hnew. split; [apply loadChunkAsync_cached; assumption|].
    unfold loadChunkPath. rewrite Hjs. simpl.
    rewrite bool_decide_eq_false_2 by exact Hnew.
    unfold tryCatch, bind, ret, requireChunk, modify, newError, throw.
    destruct (node_require _ _ _); reflexivity.
  - unfold loadChunkAsync. simpl. rewrite Hjs. simpl.
    destruct (chunkCache st !! chunkPath); [reflexivity|].
    unfold tryCatch, loadChunkUncached, bind, ret, promiseReject, requireChunk, modify, newError.
    destruct (node_require _ _ _); reflexivity.
  - unfold loadChunkPath. rewrite Hjs. simpl. case_bool_decide; [reflexivity|].
    unfold tryCatch, bind, ret, requireChunk, modify, newError, throw.
    destruct (node_require _ _ _); reflexivity.
Qed.

(** X5.  What a failed asynchronous load leaves behind: a rejected promise
    whose reason is a new Error with the message
    [Failed to load chunk P from <source>] and the thrown value as its
    cause.  The factories, [loadedChunks] and the module cache are as
    before, no other path's cache entry changes, and a rejection after
    [clearChunkCache] is another promise. *)
Theorem loadChunkAsync_failure_reason source source' chunkData st e :
  let chunkPath := chunkDataPath chunkData in
  isJs chunkPath = true -> chunkCache st !! chunkPath = None ->
  node_require env (requireLog st) (resolved env chunkPath) = RequireThrows e ->
  let message :=
    lit "Failed to load chunk " ++ chunkPath ++ lit " from " ++ stringifySourceInfo source in
  exists ref st1,
    loadChunkAsync env source chunkData st =
      (Ok (Rejected ref (VError (nextRef st) message (Some e))), st1) /\
    moduleFactories st1 = moduleFactories st /\
    loadedChunks st1 = loadedChunks st /\
    moduleCache st1 = moduleCache st /\
    (forall p, p <> chunkPath -> chunkCache st1 !! p = chunkCache st !! p) /\
    (forall ref' reason' st2,
       loadChunkAsync env source' chunkData (clearChunkCache st1).2 =
         (Ok (Rejected ref' reason'), st2) ->
       ref' <> ref).
Proof.
  intros chunkPath Hjs Hnone Hreq message.
  eexists _, _. split.
  { rewrite (loadChunkAsync_failed env source chunkData st e Hjs Hnone Hreq).
    fold chunkPath. unfold message, chunkErrorMessage. rewrite <- !app_assoc. reflexivity. }
  simpl. repeat (split; [reflexivity|]). split.
  - intros p Hp. rewrite lookup_insert_ne by congruence. reflexivity.
  - intros ref' reason' st2. unfold loadChunkAsync. fold chunkPath. rewrite Hjs. simpl.
    rewrite lookup_empty.
    unfold tryCatch, loadChunkUncached, bind, ret, promiseReject, requireChunk, modify, newError.
    simpl.
    destruct (node_require env (requireLog st ++ [resolved env chunkPath])
                (resolved env chunkPath)); simpl; intros H; [discriminate|].
    injection H as <- _ _. lia.
Qed.

End LoaderExtras.

Section LoaderSide.

Context (env : Env) (R : State -> State -> Prop).
Hypothesis R_side : loaderSide R.
Hypothesis R_trans : forall st1 st2 st3, R st1 st2 -> R st2 st3 -> R st1 st3.
Hypothesis R_load : forall source chunkData, within R (loadChunkAsync env source chunkData).
Hypothesis R_clear : within R clearChunkCache.

Lemma within_frame {A} (c : M A) :
  (forall st, moduleFactories (c st).2 = moduleFactories st /\
              loadedChunks (c st).2 = loadedChunks st /\
              chunkCache (c st).2 = chunkCache st /\
              requireLog (c st).2 = requireLog st) ->
  within R c.
Proof. intros H st. destruct (H st) as (? & ? & ? & ?). apply R_side; assumption. Qed.

Lemma within_ret {A} (a : A) : within R (ret a).
Proof. apply within_frame. intros st. simpl. auto. Qed.

Lemma within_throw {A} v : within R (@throw A v).
Proof. apply within_frame. intros st. simpl. auto. Qed.

Lemma within_stuck {A} : within R (@stuck A).
Proof. apply within_frame. intros st. simpl. auto. Qed.

Lemma within_bind {A B} (c : M A) (k : A -> M B) :
  within R c -> (forall a, within R (k a)) -> within R (bind c k).
Proof.
  intros Hc Hk st. unfold bind. specialize (Hc st).
  destruct (c st) as [[a | v |] st1]; simpl in *; [|exact Hc..].
  eapply R_trans; [exact Hc | apply Hk].
Qed.

Lemma within_tryCatch {A} (c : M A) (handler : Value -> M A) :
  within R c -> (forall e, within R (handler e)) -> within R (tryCatch c handler).
Proof.
  intros Hc Hh st. unfold tryCatch. specialize (Hc st).
  destruct (c st) as [[a | v |] st1]; simpl in *; [exact Hc | | exact Hc].
  eapply R_trans; [exact Hc | apply Hh].
Qed.

Lemma within_readModule r : within R (readModule r).
Proof.
  apply within_frame. intros st. unfold readModule.
  destruct (modules st !! r); simpl; auto.
Qed.

Lemma within_newError message cause : within R (newError message cause).
Proof. apply within_frame. intros st. simpl. auto. Qed.

Lemma within_finishModule module : within R (finishModule env module).
Proof.
  unfold finishModule.
  apply within_bind; [apply within_frame; intros st; simpl; auto|]. intros _.
  apply within_bind; [apply within_readModule|]. intros m.
  apply within_bind; [|intros; apply within_ret].
  destruct (_ && _); [apply within_frame; intros st; simpl; auto | apply within_ret].
Qed.

Lemma within_execLocal ctx c : within R (execLocal env ctx c).
Proof.
  destruct c; simpl; try apply within_ret; try apply within_throw;
    try (apply within_frame; intros st; simpl; auto; fail).
  - apply within_bind; [apply R_load | intros; apply within_ret].
  - apply R_clear.
Qed.

Lemma within_getOrInstantiateModuleFromParent_ instantiate id sourceModule :
  (forall source, within R (instantiate id source)) ->
  within R (getOrInstantiateModuleFromParent_ instantiate id sourceModule).
Proof.
  intros Hi st. unfold getOrInstantiateModuleFromParent_.
  destruct (moduleCache st !! id); [apply within_ret|].
  apply (within_bind (readModule sourceModule)); [apply within_readModule|].
  intros source. apply Hi.
Qed.

Lemma within_commonJsRequire_ instantiate sourceModule id :
  (forall source, within R (instantiate id source)) ->
  within R (commonJsRequire_ env instantiate sourceModule id).
Proof.
  intros Hi. unfold commonJsRequire_.
  apply within_bind; [apply within_getOrInstantiateModuleFromParent_, Hi|]. intros module.
  apply within_bind; [apply within_readModule|]. intros m.
  destruct (_ && _); [apply within_throw|].
  apply within_bind; [apply within_frame; intros st; simpl; auto | intros; apply within_ret].
Qed.

Lemma within_execCmd instantiate run ctx c :
  (forall id source, within R (instantiate id source)) ->
  (forall body, within R (run body ctx)) ->
  within R (execCmd env instantiate run ctx c).
Proof.
  intros Hi Hr. destruct c; try apply within_execLocal; simpl.
  - apply within_bind; [apply within_commonJsRequire_; intros; apply Hi | intros; apply within_ret].
  - apply within_tryCatch; [apply Hr | intros; apply Hr].
Qed.

(** Instantiating modules changes the loader's side of the state through
    the calls [l] and [C] of the factories, and in no other way. *)
Lemma within_instantiate fuel :
  (forall id source, within R (instantiateModule env fuel id source)) /\
  (forall body ctx, within R (runFactory env fuel body ctx)).
Proof.
  assert (Hmissing : forall id source,
            within R (let! err := newError (factoryMissingMessage id source) None in
                      @throw nat err)).
  { intros. apply within_bind; [apply within_newError | intros; apply within_throw]. }
  assert (Hfresh : forall id st,
            R st (set_factoryCalls (fun l => id :: l) (insertFreshModule id st).2)).
  { intros. apply R_side; reflexivity. }
  assert (Hseterr : forall v r st, R st (set_modules (alter (set_error v) r) st)).
  { intros. apply R_side; reflexivity. }
  induction fuel as [|n [IHi IHr]].
  - split.
    + intros id source st. rewrite instantiateModule_unfold.
      destruct (moduleFactories st !! id); [apply Hfresh | apply Hmissing].
    + intros body ctx st. rewrite runFactory_unfold.
      destruct body; apply R_side; reflexivity.
  - split.
    + intros id source st. rewrite instantiateModule_unfold.
      destruct (moduleFactories st !! id) as [f|]; [|apply Hmissing].
      cbv zeta. specialize (IHr (fbody f)
        {| ctx_m := S (nextRef st); ctx_e := nextRef st; ctx_id := id |}
        (set_factoryCalls (fun l => id :: l) (insertFreshModule id st).2)).
      destruct (runFactory env n (fbody f) _ _) as [[[] | v |] st2]; simpl in IHr.
      * eapply R_trans; [apply Hfresh|]. eapply R_trans; [exact IHr|].
        apply within_finishModule.
      * simpl. eapply R_trans; [apply Hfresh|]. eapply R_trans; [exact IHr|]. apply Hseterr.
      * simpl. eapply R_trans; [apply Hfresh | exact IHr].
    + intros body ctx st. rewrite runFactory_unfold.
      destruct body as [|c rest]; [apply R_side; reflexivity|].
      pose proof (within_execCmd _ _ ctx c IHi (fun b => IHr b ctx) st) as Hc.
      destruct (execCmd env _ _ ctx c st) as [[[] | v |] st1]; simpl in Hc; [|exact Hc..].
      eapply R_trans; [exact Hc | apply IHr].
Qed.

End LoaderSide.

Section Monotone.

Context (env : Env).

Lemma loadChunkAsync_factories source chunkData st :
  moduleFactories (loadChunkAsync env source chunkData st).2 = moduleFactories st \/
  exists table,
    moduleFactories (loadChunkAsync env source chunkData st).2 =
    registerFactories (moduleFactories st) table.
Proof.
  unfold loadChunkAsync, tryCatch, loadChunkUncached, bind, ret, promiseReject, requireChunk,
    modify, newError.
  destruct (isJs _); simpl; [|left; reflexivity].
  destruct (chunkCache st !! _); [left; reflexivity|].
  destruct (node_require _ _ _) as [table | e]; simpl; [right; exists table | left]; reflexivity.
Qed.

Lemma loadChunkPath_factories chunkPath source st :
  moduleFactories (loadChunkPath env chunkPath source st).2 = moduleFactories st \/
  exists table,
    moduleFactories (loadChunkPath env chunkPath source st).2 =
    registerFactories (moduleFactories st) table.
Proof.
  unfold loadChunkPath, tryCatch, bind, ret, requireChunk, modify, newError, throw.
  destruct (isJs _); simpl; [|left; reflexivity].
  case_bool_decide; [left; reflexivity|].
  destruct (node_require _ _ _) as [table | e]; simpl; [right; exists table | left]; reflexivity.
Qed.

Lemma factoriesKept_side : loaderSide factoriesKept.
Proof. intros st st' Hmf _ _ _ k Hk. rewrite Hmf. exact Hk. Qed.

Lemma factoriesKept_trans st1 st2 st3 :
  factoriesKept st1 st2 -> factoriesKept st2 st3 -> factoriesKept st1 st3.
Proof. intros H12 H23 k Hk. apply H23, H12, Hk. Qed.

Lemma factoriesKept_loadChunkAsync source chunkData :
  within factoriesKept (loadChunkAsync env source chunkData).
Proof.
  intros st k Hk.
  destruct (loadChunkAsync_factories source chunkData st) as [-> | [table ->]];
    [exact Hk | apply registerFactories_mono, Hk].
Qed.

Lemma factoriesKept_loadChunkPath chunkPath source :
  within factoriesKept (loadChunkPath env chunkPath source).
Proof.
  intros st k Hk.
  destruct (loadChunkPath_factories chunkPath source st) as [-> | [table ->]];
    [exact Hk | apply registerFactories_mono, Hk].
Qed.

Lemma factoriesKept_clearChunkCache : within factoriesKept (clearChunkCache).
Proof. intros st k Hk. exact Hk. Qed.

Lemma factoriesKept_instantiateModule fuel id source :
  within factoriesKept (instantiateModule env fuel id source).
Proof.
  apply (within_instantiate env factoriesKept factoriesKept_side factoriesKept_trans
           factoriesKept_loadChunkAsync factoriesKept_clearChunkCache fuel).
Qed.

Lemma sameLoadedChunks_side : loaderSide sameLoadedChunks.
Proof. intros st st' _ Hl _ _. exact Hl. Qed.

Lemma sameLoadedChunks_trans st1 st2 st3 :
  sameLoadedChunks st1 st2 -> sameLoadedChunks st2 st3 -> sameLoadedChunks st1 st3.
Proof. unfold sameLoadedChunks. congruence. Qed.

Lemma sameLoadedChunks_loadChunkAsync source chunkData :
  within sameLoadedChunks (loadChunkAsync env source chunkData).
Proof.
  intros st. unfold sameLoadedChunks.
  unfold loadChunkAsync, tryCatch, loadChunkUncached, bind, ret, promiseReject, requireChunk,
    modify, newError.
  destruct (isJs _); simpl; [|reflexivity].
  destruct (chunkCache st !! _); [reflexivity|].
  destruct (node_require _ _ _); reflexivity.
Qed.

Lemma sameLoadedChunks_instantiateModule fuel id source :
  within sameLoadedChunks (instantiateModule env fuel id source).
Proof.
  apply (within_instantiate env sameLoadedChunks sameLoadedChunks_side sameLoadedChunks_trans
           sameLoadedChunks_loadChunkAsync (fun st => eq_refl) fuel).
Qed.

(** The two entry points of the instantiator, reduced to the instantiator. *)
Lemma within_entry_points (R : State -> State -> Prop) fuel :
  loaderSide R ->
  (forall id source, within R (instantiateModule env fuel id source)) ->
  (forall id chunkPath, within R (getOrInstantiateRuntimeModule env fuel id chunkPath)) /\
  (forall id sourceModule, within R (getOrInstantiateModuleFromParent env fuel id sourceModule)).
Proof.
  intros Hside Hi. split.
  - intros id chunkPath st. unfold getOrInstantiateRuntimeModule, instantiateRuntimeModule.
    destruct (moduleCache st !! id) as [r|]; [|apply Hi].
    unfold bind, readModule. destruct (modules st !! r) as [m|]; [|apply Hside; reflexivity].
    destruct (truthy (error m)); apply Hside; reflexivity.
  - intros id sourceModule st.
    unfold getOrInstantiateModuleFromParent, getOrInstantiateModuleFromParent_.
    destruct (moduleCache st !! id) as [r|]; [apply Hside; reflexivity|].
    unfold bind, readModule.
    destruct (modules st !! sourceModule) as [m|]; [apply Hi | apply Hside; reflexivity].
Qed.

(** X6.  No operation of the runtime takes a factory away: an id that has a
    factory still has one after [loadChunkPath], [loadChunkAsync],
    [clearChunkCache], [getOrInstantiateRuntimeModule] and
    [getOrInstantiateModuleFromParent], whatever the factories that run do
    and whether the call returns or throws. *)
Theorem factories_are_never_removed fuel chunkPath source source' chunkData id sourceModule st :
  factoriesKept st (loadChunkPath env chunkPath source st).2 /\
  factoriesKept st (loadChunkAsync env source' chunkData st).2 /\
  factoriesKept st (clearChunkCache st).2 /\
  factoriesKept st (getOrInstantiateRuntimeModule env fuel id chunkPath st).2 /\
  factoriesKept st (getOrInstantiateModuleFromParent env fuel id sourceModule st).2.
Proof.
  destruct (within_entry_points factoriesKept fuel factoriesKept_side
              (factoriesKept_instantiateModule fuel)) as [Hr Hp].
  split; [apply factoriesKept_loadChunkPath|].
  split; [apply factoriesKept_loadChunkAsync|].
  split; [apply factoriesKept_clearChunkCache|].
  split; [apply Hr | apply Hp].
Qed.

(** X7.  Only [loadChunkPath] records a chunk as loaded, and only the one it
    was asked for, when it returns: the instantiator's entry points, with
    every [l] and [C] that the factories call, leave [loadedChunks] as it
    was, and so do [loadChunkAsync] and [clearChunkCache]. *)
Theorem only_loadChunkPath_marks_chunks_loaded
    fuel chunkPath source source' chunkData id sourceModule st :
  loadedChunks (getOrInstantiateRuntimeModule env fuel id chunkPath st).2 = loadedChunks st /\
  loadedChunks (getOrInstantiateModuleFromParent env fuel id sourceModule st).2 =
    loadedChunks st /\
  loadedChunks (loadChunkAsync env source' chunkData st).2 = loadedChunks st /\
  loadedChunks (clearChunkCache st).2 = loadedChunks st /\
  (loadedChunks (loadChunkPath env chunkPath source st).2 = loadedChunks st \/
   (loadChunkPath env chunkPath source st).1 = Ok tt /\
   loadedChunks (loadChunkPath env chunkPath source st).2 = {[chunkPath]} ∪ loadedChunks st).
Proof.
  destruct (within_entry_points sameLoadedChunks fuel sameLoadedChunks_side
              (sameLoadedChunks_instantiateModule fuel)) as [Hr Hp].
  split; [apply Hr|]. split; [apply Hp|].
  split; [apply sameLoadedChunks_loadChunkAsync|]. split; [reflexivity|].
  unfold loadChunkPath, tryCatch, bind, ret, requireChunk, modify, newError, throw.
  destruct (isJs _); simpl; [|left; reflexivity].
  case_bool_decide; [left; reflexivity|].
  destruct (node_require _ _ _); simpl; [right; split; reflexivity | left; reflexivity].
Qed.

(** X8.  Loading a chunk registers factories and runs none: [loadChunkPath],
    [loadChunk] and [loadChunkAsync] leave the module cache, the module
    records and the list of factory calls as they were. *)
Theorem loading_a_chunk_runs_no_factory chunkPath chunkData source source' st :
  sameModules st (loadChunkPath env chunkPath source st).2 /\
  sameModules st (loadChunk env chunkData source st).2 /\
  sameModules st (loadChunkAsync env source' chunkData st).2.
Proof.
  assert (Hp : forall p, moduleCache (loadChunkPath env p source st).2 = moduleCache st /\
                 modules (loadChunkPath env p source st).2 = modules st /\
                 factoryCalls (loadChunkPath env p source st).2 = factoryCalls st).
  { intros p. destruct (loadChunkPath env p source st) as [out st'] eqn:E.
    apply loadChunkPath_frame in E as (? & ? & ? & _). auto. }
  split; [apply Hp|]. split; [destruct chunkData; apply Hp|].
  destruct (loadChunkAsync env source' chunkData st) as [out st'] eqn:E.
  apply loadChunkAsync_frame in E as (? & ? & ? & _). unfold sameModules. auto.
Qed.

End Monotone.

Section Outcomes.

Context (env : Env).

Lemma keeps_frame {A} (P : State -> Prop) (c : M A) :
  (forall st, modules (c st).2 = modules st) -> keeps P c.
Proof.
  intros Hc st out st' _ _ Hx E r m. pose proof (Hc st) as Hm. rewrite E in Hm.
  simpl in Hm. rewrite Hm. apply Hx.
Qed.

Lemma keeps_bind {A B} (c : M A) (k : A -> M B) :
  preserves (fun _ => True) c -> keeps (fun _ => True) c ->
  (forall a, keeps (fun _ => True) (k a)) -> keeps (fun _ => True) (bind c k).
Proof.
  intros Hp Hc Hk st out st' Hwf _ Hx E. unfold bind in E.
  destruct (c st) as [[a | v |] st1] eqn:Ec.
  - destruct (Hp _ _ _ Hwf I Ec) as [Hwf1 _].
    exact (Hk a _ _ _ Hwf1 I (Hc _ _ _ Hwf I Hx Ec) E).
  - injection E as <- <-. exact (Hc _ _ _ Hwf I Hx Ec).
  - injection E as <- <-. exact (Hc _ _ _ Hwf I Hx Ec).
Qed.

Lemma keeps_tryCatch {A} (c : M A) (handler : Value -> M A) :
  preserves (fun _ => True) c -> keeps (fun _ => True) c ->
  (forall e, keeps (fun _ => True) (handler e)) ->
  keeps (fun _ => True) (tryCatch c handler).
Proof.
  intros Hp Hc Hh st out st' Hwf _ Hx E. unfold tryCatch in E.
  destruct (c st) as [[a | v |] st1] eqn:Ec.
  - injection E as <- <-. exact (Hc _ _ _ Hwf I Hx Ec).
  - destruct (Hp _ _ _ Hwf I Ec) as [Hwf1 _].
    exact (Hh v _ _ _ Hwf1 I (Hc _ _ _ Hwf I Hx Ec) E).
  - injection E as <- <-. exact (Hc _ _ _ Hwf I Hx Ec).
Qed.

Lemma neverLoadedAndFailed_alter (f : Module -> Module) r st :
  (forall m, loaded (f m) = true -> error (f m) = VUndefined \/
             (loaded m = true /\ error (f m) = error m)) ->
  neverLoadedAndFailed st -> neverLoadedAndFailed (set_modules (alter f r) st).
Proof.
  intros Hf Hx r' m'. simpl. destruct (decide (r' = r)) as [-> | Hne].
  - rewrite lookup_alter_eq. destruct (modules st !! r) as [m|] eqn:Hm; simpl; [|discriminate].
    intros H Hl. injection H as <-.
    destruct (Hf m Hl) as [He | [Hl' He]]; [exact He|]. rewrite He. eapply Hx; eauto.
  - rewrite lookup_alter_ne by congruence. apply Hx.
Qed.

Lemma keeps_execLocal ctx c : keeps (fun _ => True) (execLocal env ctx c).
Proof.
  destruct c; simpl; try (apply keeps_frame; intros st; reflexivity).
  - intros st out st' _ _ Hx E. injection E as <- <-.
    apply neverLoadedAndFailed_alter; [|exact Hx]. intros m Hl. right. auto.
  - intros st out st' _ _ Hx E. injection E as <- <-.
    apply neverLoadedAndFailed_alter; [|exact Hx]. intros m Hl. right. auto.
  - apply keeps_frame. intros st. unfold bind.
    destruct (loadChunkAsync env (Parent (ctx_id ctx)) chunkData st) as [out st'] eqn:E.
    apply loadChunkAsync_frame in E as (_ & Hm & _).
    destruct out; exact Hm.
Qed.

Lemma keeps_commonJsRequire_ instantiate sourceModule id :
  (forall source, preserves (uncached id) (instantiate id source)) ->
  (forall source, keeps (uncached id) (instantiate id source)) ->
  keeps (fun _ => True) (commonJsRequire_ env instantiate sourceModule id).
Proof.
  intros Hp Hk. unfold commonJsRequire_.
  apply keeps_bind.
  - apply preserves_getOrInstantiateModuleFromParent_, Hp.
  - intros st out st' Hwf _ Hx E. unfold getOrInstantiateModuleFromParent_ in E.
    destruct (moduleCache st !! id) eqn:Hc; [injection E as <- <-; exact Hx|].
    unfold bind, readModule in E.
    destruct (modules st !! sourceModule); [|injection E as <- <-; exact Hx].
    eapply Hk; eauto.
  - intros module. apply keeps_frame. intros st. unfold bind, readModule.
    destruct (modules st !! module) as [m|]; [|reflexivity].
    destruct (_ && _); reflexivity.
Qed.

Lemma keeps_execCmd instantiate run ctx c :
  (forall id source, preserves (uncached id) (instantiate id source)) ->
  (forall id source, keeps (uncached id) (instantiate id source)) ->
  (forall body, preserves (fun _ => True) (run body ctx)) ->
  (forall body, keeps (fun _ => True) (run body ctx)) ->
  keeps (fun _ => True) (execCmd env instantiate run ctx c).
Proof.
  intros Hpi Hki Hpr Hkr.
  destruct c; try apply keeps_execLocal; simpl.
  - apply keeps_bind; [apply preserves_commonJsRequire_; intros; apply Hpi
                      | apply keeps_commonJsRequire_; intros; [apply Hpi | apply Hki]
                      | intros; apply keeps_frame; reflexivity].
  - apply keeps_tryCatch; [apply Hpr | apply Hkr | intros; apply Hkr].
Qed.

Lemma keeps_instantiate fuel :
  (forall id source, keeps (uncached id) (instantiateModule env fuel id source)) /\
  (forall body ctx, keeps (fun _ => True) (runFactory env fuel body ctx)).
Proof.
  assert (Hmissing : forall id source st out st',
            neverLoadedAndFailed st ->
            (let! err := newError (factoryMissingMessage id source) None in @throw nat err) st =
              (out, st') ->
            neverLoadedAndFailed st').
  { intros id source st out st' Hx E. injection E as <- <-. exact Hx. }
  assert (Hfresh : forall id st,
            wf st -> uncached id st -> neverLoadedAndFailed st ->
            neverLoadedAndFailed (set_factoryCalls (fun l => id :: l) (insertFreshModule id st).2)).
  { intros id st Hwf Hun Hx r m. simpl.
    destruct (decide (r = S (nextRef st))) as [-> | Hne].
    - rewrite lookup_insert_eq. intros H. injection H as <-. discriminate.
    - rewrite lookup_insert_ne by congruence. apply Hx. }
  induction fuel as [|n [IHi IHr]].
  - split.
    + intros id source st out st' Hwf Hun Hx E. rewrite instantiateModule_unfold in E.
      destruct (moduleFactories st !! id); [|eapply Hmissing; eauto].
      injection E as <- <-. apply Hfresh; auto.
    + intros body ctx st out st' _ _ Hx E. rewrite runFactory_unfold in E.
      destruct body; injection E as <- <-; exact Hx.
  - split.
    + intros id source st out st' Hwf Hun Hx E. rewrite instantiateModule_unfold in E.
      destruct (moduleFactories st !! id) as [f|]; [|eapply Hmissing; eauto].
      cbv zeta in E.
      destruct (insertFreshModule_spec id st Hwf Hun)
        as (_ & Hwf1 & Hext1 & _ & Hm1 & _ & Hnew).
      cbv zeta in Hwf1, Hext1, Hm1.
      pose proof (Hfresh id st Hwf Hun Hx) as Hx1.
      destruct (runFactory env n (fbody f) _ _) as [[[] | v |] st2] eqn:Er;
        pose proof (IHr _ _ _ _ _ Hwf1 I Hx1 Er) as Hx2;
        destruct (proj2 (instantiate_preserves env n) _ _ _ _ _ Hwf1 I Er) as [Hwf2 Hext2];
        destruct (ext_records _ _ Hext2 _ _ Hm1) as (m2 & Hm2 & _ & Hl2 & He2).
      * destruct (finishModule_spec env _ st _ _ _ Hwf2 (extends_trans _ _ _ Hext1 Hext2) Hnew E)
          as (_ & _ & _ & Hm & _).
        intros r m. rewrite Hm. simpl. destruct (decide (r = S (nextRef st))) as [-> | Hne].
        -- rewrite lookup_alter_eq, Hm2. simpl. intros H _. injection H as <-. exact He2.
        -- rewrite lookup_alter_ne by congruence. apply Hx2.
      * injection E as <- <-. intros r m. simpl.
        destruct (decide (r = S (nextRef st))) as [-> | Hne].
        -- rewrite lookup_alter_eq, Hm2. simpl. intros H Hl. injection H as <-.
           simpl in Hl. rewrite Hl2 in Hl. discriminate.
        -- rewrite lookup_alter_ne by congruence. apply Hx2.
      * injection E as <- <-. exact Hx2.
    + intros body ctx st out st' Hwf _ Hx E. rewrite runFactory_unfold in E.
      destruct body as [|c rest]; [injection E as <- <-; exact Hx|].
      assert (Hpc := preserves_execCmd env _ _ ctx c (proj1 (instantiate_preserves env n))
                       (fun b => proj2 (instantiate_preserves env n) b ctx)).
      assert (Hkc := keeps_execCmd _ _ ctx c (proj1 (instantiate_preserves env n)) IHi
                       (fun b => proj2 (instantiate_preserves env n) b ctx)
                       (fun b => IHr b ctx)).
      destruct (execCmd env _ _ ctx c st) as [[[] | v |] st1] eqn:Ec;
        pose proof (Hkc _ _ _ Hwf I Hx Ec) as Hx1;
        destruct (Hpc _ _ _ Hwf I Ec) as [Hwf1 _].
      * eapply IHr; eauto.
      * injection E as <- <-. exact Hx1.
      * injection E as <- <-. exact Hx1.
Qed.

Lemma neverLoadedAndFailed_runtimeModule fuel moduleId chunkPath st :
  wf st -> neverLoadedAndFailed st ->
  neverLoadedAndFailed (getOrInstantiateRuntimeModule env fuel moduleId chunkPath st).2.
Proof.
  intros Hwf Hx. unfold getOrInstantiateRuntimeModule, instantiateRuntimeModule.
  destruct (moduleCache st !! moduleId) as [r|] eqn:Hc.
  - unfold bind, readModule. destruct (modules st !! r) as [m|]; [|exact Hx].
    destruct (truthy (error m)); exact Hx.
  - destruct (instantiateModule env fuel moduleId (Runtime chunkPath) st) as [out st'] eqn:E.
    eapply (proj1 (keeps_instantiate fuel)); eauto.
Qed.

Lemma neverLoadedAndFailed_fromParent fuel id sourceModule st :
  wf st -> neverLoadedAndFailed st ->
  neverLoadedAndFailed (getOrInstantiateModuleFromParent env fuel id sourceModule st).2.
Proof.
  intros Hwf Hx. unfold getOrInstantiateModuleFromParent, getOrInstantiateModuleFromParent_.
  destruct (moduleCache st !! id) as [r|] eqn:Hc; [exact Hx|].
  unfold bind, readModule. destruct (modules st !! sourceModule) as [m|]; [|exact Hx].
  destruct (instantiateModule env fuel id (Parent (idOf m)) st) as [out st'] eqn:E.
  eapply (proj1 (keeps_instantiate fuel)); eauto.
Qed.

(** X9.  In every state that [loadChunk] and [getOrInstantiateRuntimeModule]
    bring about, no record is both loaded and failed: [loaded] is set only
    after the factory returned, [error] only when it threw.  A further
    require from a parent keeps it so. *)
Theorem no_record_is_loaded_and_failed st :
  reachable env st ->
  neverLoadedAndFailed st /\
  forall fuel id sourceModule,
    neverLoadedAndFailed (getOrInstantiateModuleFromParent env fuel id sourceModule st).2.
Proof.
  intros Hr.
  assert (Hx : neverLoadedAndFailed st).
  { induction Hr as [|st chunkData source Hr IH|st fuel moduleId chunkPath Hr IH].
    - intros r m H. simpl in H. rewrite lookup_empty in H. discriminate.
    - intros r m.
      assert (Hm : modules (loadChunk env chunkData source st).2 = modules st).
      { destruct chunkData; simpl;
          match goal with |- modules (loadChunkPath env ?p ?s ?st).2 = _ =>
            destruct (loadChunkPath env p s st) as [out st'] eqn:E;
            apply loadChunkPath_frame in E as (_ & Hm & _); exact Hm end. }
      rewrite Hm. apply IH.
    - apply neverLoadedAndFailed_runtimeModule; [exact (reachable_wf env _ Hr) | exact IH]. }
  split; [exact Hx|]. intros fuel id sourceModule.
  apply neverLoadedAndFailed_fromParent; [exact (reachable_wf env _ Hr) | exact Hx].
Qed.

(** X10.  The outcome of a record is final: a record that exists keeps its
    [id], [loaded] and [error] through [loadChunk],
    [getOrInstantiateRuntimeModule] and [getOrInstantiateModuleFromParent]
    for any id, and stays the record cached under its id. *)
Theorem existing_record_keeps_its_outcome
    fuel id chunkPath sourceModule chunkData source st r m :
  wf st -> modules st !! r = Some m ->
  recordKept r m (loadChunk env chunkData source st).2 /\
  recordKept r m (getOrInstantiateRuntimeModule env fuel id chunkPath st).2 /\
  recordKept r m (getOrInstantiateModuleFromParent env fuel id sourceModule st).2.
Proof.
  intros Hwf Hm.
  assert (Hext : forall st', extends st st' -> recordKept r m st').
  { intros st' Hext. destruct (ext_records _ _ Hext _ _ Hm) as (m' & Hm' & Hid & Hl & He).
    exists m'. repeat split; auto. apply (ext_cache _ _ Hext). apply (wf_cached _ Hwf), Hm. }
  split; [|split].
  - apply Hext.
    assert (H : exists chunkPath',
              loadChunk env chunkData source st = loadChunkPath env chunkPath' source st)
      by (destruct chunkData; eexists; reflexivity).
    destruct H as [chunkPath' ->].
    destruct (loadChunkPath env chunkPath' source st) as [out st'] eqn:E.
    destruct (loadChunkPath_frame _ _ _ _ _ _ E) as (? & ? & ? & ?).
    apply (wf_frame st st'); auto.
  - apply Hext.
    destruct (getOrInstantiateRuntimeModule env fuel id chunkPath st) as [out st'] eqn:E.
    eapply getOrInstantiateRuntimeModule_preserves; eauto.
  - apply Hext.
    destruct (getOrInstantiateModuleFromParent env fuel id sourceModule st) as [out st'] eqn:E.
    eapply getOrInstantiateModuleFromParent_preserves; eauto.
Qed.

End Outcomes.

Section Scenarios.

Context (env : Env).

(** X11.  A failure crosses a require: when the factory of [a] starts by
    requiring [b] and the instantiation of [b] throws [v], the
    instantiation of [a] throws the same [v], the rest of the factory of
    [a] does not run, and the record of [a] is cached with [error = v] and
    [loaded = false].  If [b] has a factory its record is cached with the
    same error; if it has none, [b] is not cached and [v] is the Error of
    line 249, whose message names [a] as the requiring module. *)
Theorem require_failure_marks_both_records n source st a b fa rest v st3 :
  wf st -> moduleCache st !! a = None -> moduleCache st !! b = None -> a <> b ->
  moduleFactories st !! a = Some fa -> fbody fa = CRequire b :: rest ->
  let rA := S (nextRef st) in
  let st1 := set_factoryCalls (fun l => a :: l) (insertFreshModule a st).2 in
  instantiateModule env n b (Parent a) st1 = (Throw v, st3) ->
  exists st' mA,
    instantiateModule env (S (S n)) a source st = (Throw v, st') /\
    moduleCache st' !! a = Some rA /\ modules st' !! rA = Some mA /\
    error mA = v /\ loaded mA = false /\
    factoryCalls st' = factoryCalls st3 /\
    (is_Some (moduleFactories st !! b) ->
     exists rB mB, rB <> rA /\ moduleCache st' !! b = Some rB /\
                   modules st' !! rB = Some mB /\ error mB = v /\ loaded mB = false) /\
    (moduleFactories st !! b = None ->
     moduleCache st' !! b = None /\ factoryCalls st' = a :: factoryCalls st /\
     v = VError (S (S (nextRef st))) (factoryMissingMessage b (Parent a)) None).
Proof.
  intros Hwf Hca Hcb Hab Hfa Hbody rA st1 Hb.
  destruct (insertFreshModule_spec a st Hwf Hca) as (_ & Hwf1 & Hext1 & Hc1 & Hm1 & _ & Hnew).
  cbv zeta in Hwf1, Hext1, Hc1, Hm1. fold st1 in Hwf1, Hext1, Hc1, Hm1. fold rA in Hc1, Hm1.
  assert (Hcb1 : moduleCache st1 !! b = None).
  { unfold st1. simpl. rewrite lookup_insert_ne by congruence. exact Hcb. }
  destruct (proj1 (instantiate_preserves env n) b (Parent a) _ _ _ Hwf1 Hcb1 Hb) as [Hwf3 Hext3].
  pose proof (ext_cache _ _ Hext3 _ _ Hc1) as Hc3.
  destruct (ext_records _ _ Hext3 _ _ Hm1) as (m3 & Hm3 & _ & Hl3 & _).
  exists (set_modules (alter (set_error v) rA) st3), (set_error v m3).
  split.
  { rewrite instantiateModule_unfold, Hfa, Hbody. cbv zeta.
    change (set_factoryCalls (fun l => a :: l) (insertFreshModule a st).2) with st1.
    rewrite runFactory_unfold. simpl execCmd.
    unfold bind at 1. unfold commonJsRequire_. unfold bind at 1.
    unfold getOrInstantiateModuleFromParent_. rewrite Hcb1.
    unfold bind at 1. unfold readModule at 1. simpl ctx_m. fold rA. rewrite Hm1.
    change (idOf (freshModule a (nextRef st))) with a. rewrite Hb. reflexivity. }
  simpl. split; [exact Hc3|]. split; [rewrite lookup_alter_eq, Hm3; reflexivity|].
  split; [reflexivity|]. split; [exact Hl3|]. split; [reflexivity|]. split.
  - intros [fb Hfb].
    destruct (instantiateModule_registered env n b (Parent a) st1 fb _ _ Hwf1 Hcb1 Hfb Hb)
      as (Hcb3 & _ & _ & mB & HmB & _ & Hthrow & _).
    destruct (Hthrow v eq_refl) as [He Hl].
    exists (S (nextRef st1)), mB.
    assert (Hne : S (nextRef st1) <> rA) by (unfold st1, rA; simpl; lia).
    split; [exact Hne|]. split; [exact Hcb3|].
    split; [rewrite lookup_alter_ne by congruence; exact HmB|]. split; assumption.
  - intros Hnone.
    rewrite instantiateModule_unfold in Hb.
    change (moduleFactories st1) with (moduleFactories st) in Hb. rewrite Hnone in Hb.
    injection Hb as <- <-. simpl. split; [|split; reflexivity].
    rewrite lookup_insert_ne by congruence. exact Hcb.
Qed.

(** X12.  A module that requires itself: the factory of [a] requires [a]
    between writes to its own exports.  The require is answered from the
    cache with the record under construction, not loaded yet, and its
    exports object; the factory is called once, one record is made, and the
    instantiation succeeds. *)
Theorem self_require_is_answered_from_the_cache fuel source st a fa before after :
  moduleFactories st !! a = Some fa -> fbody fa = requiringBody before a after ->
  2 + length before + length after <= fuel ->
  let eA := nextRef st in
  let rA := S eA in
  exists st',
    instantiateModule env fuel a source st = (Ok rA, st') /\
    moduleCache st' = <[a := rA]> (moduleCache st) /\
    modules st' = <[rA := set_loaded true (freshModule a eA)]> (modules st) /\
    requireTrace st' =
      {| cap_by := rA; cap_of := a; cap_module := rA;
         cap_exports := VObject eA; cap_loaded := false |} :: requireTrace st /\
    factoryCalls st' = a :: factoryCalls st /\
    nextRef st' = S rA.
Proof.
  intros Hf Hbody Hfuel eA rA.
  rewrite instantiateModule_unfold, Hf, Hbody. cbv zeta.
  destruct fuel as [|n]; [lia|].
  set (ctx := {| ctx_m := S (nextRef st); ctx_e := nextRef st; ctx_id := a |}).
  set (st1 := set_factoryCalls (fun l => a :: l) (insertFreshModule a st).2).
  unfold requiringBody.
  destruct (runFactory_exportWrites env before (CRequire a :: exportWrites after) ctx n st1)
    as (st2 & [h2 E2] & ->); [lia|].
  destruct (n - length before) as [|n'] eqn:En; [lia|].
  rewrite runFactory_unfold. simpl execCmd. unfold bind at 1.
  assert (Hc2 : moduleCache st2 !! a = Some rA) by (subst st2; apply lookup_insert_eq).
  assert (Hm2 : modules st2 !! rA = Some (freshModule a eA))
    by (subst st2; apply lookup_insert_eq).
  rewrite (commonJsRequire_cached env _ _ _ _ _ _ Hc2 Hm2 eq_refl).
  unfold ret at 1.
  set (st3 := set_requireTrace _ st2).
  destruct (runFactory_exportWrites env after [] ctx n' st3) as (st4 & [h4 E4] & E); [lia|].
  rewrite app_nil_r in E. rewrite E, runFactory_nil.
  assert (Hm4 : modules st4 !! rA = Some (freshModule a eA)).
  { subst st4 st3 st2. simpl. apply lookup_insert_eq. }
  change (ctx_m ctx) with rA.
  rewrite (finishModule_plain env _ _ _ Hm4 eq_refl).
  eexists. split; [reflexivity|].
  subst st4 st3 st2. simpl. repeat split; auto.
  fold rA. rewrite alter_insert_eq. reflexivity.
Qed.

(** X13.  The test of line 350 is on the truthiness of the recorded error.
    When a factory throws a falsy value (as [throw undefined] or [throw 0]
    do), the record is cached, not loaded, with that value as its error,
    and from then on both [getOrInstantiateRuntimeModule] and
    [getOrInstantiateModuleFromParent] return the record and change
    nothing: the failure is not thrown again. *)
Theorem falsy_throw_is_not_thrown_again fuel id source st f v st1 :
  wf st -> moduleCache st !! id = None -> moduleFactories st !! id = Some f ->
  instantiateModule env fuel id source st = (Throw v, st1) ->
  truthy v = false ->
  exists r m,
    moduleCache st1 !! id = Some r /\ modules st1 !! r = Some m /\
    error m = v /\ loaded m = false /\
    (forall fuel' chunkPath,
       getOrInstantiateRuntimeModule env fuel' id chunkPath st1 = (Ok r, st1)) /\
    (forall fuel' sourceModule,
       getOrInstantiateModuleFromParent env fuel' id sourceModule st1 = (Ok r, st1)).
Proof.
  intros Hwf Hun Hf H Hv.
  destruct (instantiateModule_registered env _ _ _ _ _ _ _ Hwf Hun Hf H)
    as (Hc & _ & _ & m & Hm & _ & Hthrow & _).
  destruct (Hthrow v eq_refl) as [He Hl].
  exists (S (nextRef st)), m. repeat split; auto.
  - intros fuel' chunkPath. unfold getOrInstantiateRuntimeModule.
    rewrite Hc. unfold bind, readModule. rewrite Hm, He, Hv. reflexivity.
  - intros fuel' sourceModule.
    unfold getOrInstantiateModuleFromParent, getOrInstantiateModuleFromParent_.
    rewrite Hc. reflexivity.
Qed.

End Scenarios.

Section UrlExtras.

Context (env : Env) (fileURLToPath : jsstring -> jsstring -> UrlResult)
        (pathToFileURL_href : jsstring -> jsstring) (ASSET_PREFIX : jsstring).

Lemma loadChunkAsync_returns source chunkData st :
  exists p,
    (loadChunkAsync env source chunkData st).1 = Ok p /\
    (isJs (chunkDataPath chunkData) = true ->
     chunkCache (loadChunkAsync env source chunkData st).2 !! chunkDataPath chunkData = Some p) /\
    (isJs (chunkDataPath chunkData) = false -> p = unsupportedLoadChunk).
Proof.
  unfold loadChunkAsync, tryCatch, loadChunkUncached, bind, ret, promiseReject, requireChunk,
    modify, newError.
  destruct (isJs _); simpl.
  - destruct (chunkCache st !! _) as [entry|] eqn:Hc.
    + exists entry. simpl. split; [reflexivity|]. split; [intros _; exact Hc | discriminate].
    + destruct (node_require _ _ _); simpl; eexists;
        (split; [reflexivity|]); (split; [intros _; apply lookup_insert_eq | discriminate]).
  - exists unsupportedLoadChunk. split; [reflexivity|]. split; [discriminate | reflexivity].
Qed.

(** X14.  [loadChunkAsync] never throws: whatever the chunk and the state,
    it returns a promise, which for a JavaScript path is the entry that the
    cache holds afterwards; a failure of [require] is a rejected promise.
    [loadChunkAsyncByUrl] throws only what the conversion of the URL to a
    path throws, before anything is loaded and with the state unchanged. *)
Theorem loadChunkAsync_never_throws source chunkData chunkUrl st :
  (exists p,
     (loadChunkAsync env source chunkData st).1 = Ok p /\
     (isJs (chunkDataPath chunkData) = true ->
      chunkCache (loadChunkAsync env source chunkData st).2 !! chunkDataPath chunkData =
        Some p)) /\
  match fileURLToPath chunkUrl (RUNTIME_ROOT env) with
  | UrlThrows e => loadChunkAsyncByUrl env fileURLToPath source chunkUrl st = (Throw e, st)
  | UrlPath path =>
      exists p, (loadChunkAsyncByUrl env fileURLToPath source chunkUrl st).1 = Ok p
  end.
Proof.
  split.
  - destruct (loadChunkAsync_returns source chunkData st) as (p & Hp & Hc & _). eauto.
  - unfold loadChunkAsyncByUrl. destruct (fileURLToPath chunkUrl (RUNTIME_ROOT env)) as [path | e].
    + destruct (loadChunkAsync_returns source (ChunkDataPath path) st) as (p & Hp & _). eauto.
    + reflexivity.
Qed.

(** X15.  [loadChunkAsyncByUrl] and [loadChunkAsync] share one cache, keyed
    by the path: after a call for a URL, of a JavaScript path, a call for
    any URL of the same path, and [loadChunkAsync] for that path, return
    the promise of the first call and change nothing, so nothing is
    required again. *)
Theorem loadChunkAsyncByUrl_shares_the_cache source source' chunkUrl chunkUrl' path st :
  fileURLToPath chunkUrl (RUNTIME_ROOT env) = UrlPath path ->
  fileURLToPath chunkUrl' (RUNTIME_ROOT env) = UrlPath path ->
  isJs path = true ->
  let first := loadChunkAsyncByUrl env fileURLToPath source chunkUrl st in
  first = loadChunkAsync env source (ChunkDataPath path) st /\
  loadChunkAsyncByUrl env fileURLToPath source' chunkUrl' first.2 = first /\
  loadChunkAsync env source' (ChunkDataPath path) first.2 = first /\
  loadChunkAsync env source' (ChunkDataObject path) first.2 = first.
Proof.
  intros Hu Hu' Hjs first.
  assert (Hfirst : first = loadChunkAsync env source (ChunkDataPath path) st).
  { unfold first, loadChunkAsyncByUrl. rewrite Hu. reflexivity. }
  destruct (loadChunkAsync_returns source (ChunkDataPath path) st) as (p & Hp & Hc & _).
  specialize (Hc Hjs). rewrite <- Hfirst in Hp, Hc. simpl in Hc.
  assert (Hagain : forall chunkData, chunkDataPath chunkData = path ->
            loadChunkAsync env source' chunkData first.2 = first).
  { intros chunkData Hpath. unfold loadChunkAsync. rewrite Hpath, Hjs. simpl. rewrite Hc.
    unfold ret. destruct first as [out st1]. simpl in Hp. subst out. reflexivity. }
  split; [exact Hfirst|]. split; [|split; apply Hagain; reflexivity].
  unfold loadChunkAsyncByUrl. rewrite Hu'. apply Hagain. reflexivity.
Qed.

Lemma slice_prefix (prefix s : jsstring) : slice (prefix ++ s) (length prefix) = s.
Proof. unfold slice. apply drop_app_length. Qed.

Lemma createResolvePathFromModule_string resolver moduleId st s st1 :
  resolver moduleId st = (Ok (VString s), st1) ->
  createResolvePathFromModule env pathToFileURL_href ASSET_PREFIX resolver moduleId st =
  (Ok (VString (pathToFileURL_href
                  (path_resolve env (RUNTIME_ROOT env) (slice s (length ASSET_PREFIX))))), st1).
Proof. intros H. unfold createResolvePathFromModule, bind. rewrite H. reflexivity. Qed.

Lemma createResolvePathFromModule_default resolver moduleId st ref o s st1 :
  resolver moduleId st = (Ok (VObject ref), st1) ->
  objects st1 !! ref = Some o -> o !! lit "default" = Some (VString s) ->
  createResolvePathFromModule env pathToFileURL_href ASSET_PREFIX resolver moduleId st =
  (Ok (VString (pathToFileURL_href
                  (path_resolve env (RUNTIME_ROOT env) (slice s (length ASSET_PREFIX))))), st1).
Proof.
  intros H Ho Hd. unfold createResolvePathFromModule, bind. rewrite H.
  unfold getDefault. rewrite Ho, Hd. reflexivity.
Qed.

Lemma instantiate_asset fuel id source st f v :
  moduleFactories st !! id = Some f ->
  fbody f = [CModuleExports v] \/ fbody f = [CExport (lit "default") v] ->
  2 <= fuel ->
  let rM := S (nextRef st) in
  exists st' m,
    instantiateModule env fuel id source st = (Ok rM, st') /\
    moduleCache st' = <[id := rM]> (moduleCache st) /\
    modules st' = <[rM := m]> (modules st) /\
    loaded m = true /\ error m = VUndefined /\
    factoryCalls st' = id :: factoryCalls st /\
    (exports m = v \/
     exists ref o, exports m = VObject ref /\ objects st' !! ref = Some o /\
                   o !! lit "default" = Some v).
Proof.
  intros Hf Hbody Hfuel rM.
  rewrite instantiateModule_unfold, Hf. cbv zeta.
  destruct fuel as [|[|n]]; [lia | lia |].
  set (ctx := {| ctx_m := S (nextRef st); ctx_e := nextRef st; ctx_id := id |}).
  set (st1 := set_factoryCalls (fun l => id :: l) (insertFreshModule id st).2).
  destruct Hbody as [-> | ->]; rewrite runFactory_unfold; simpl execCmd;
    unfold modify at 1; rewrite runFactory_nil; change (ctx_m ctx) with rM.
  - erewrite finishModule_plain;
      [|simpl; rewrite lookup_alter_eq, lookup_insert_eq; reflexivity | reflexivity].
    eexists. exists (set_loaded true (set_exports v (freshModule id (nextRef st)))).
    split; [reflexivity|]. simpl. fold rM.
    rewrite !alter_insert_eq. repeat split; auto.
  - erewrite finishModule_plain; [|simpl; apply lookup_insert_eq | reflexivity].
    eexists. exists (set_loaded true (freshModule id (nextRef st))).
    split; [reflexivity|]. simpl. fold rM.
    rewrite !alter_insert_eq. repeat split; auto.
    right. exists (nextRef st), (<[lit "default" := v]> ∅).
    split; [reflexivity|]. split; [apply lookup_insert_eq | apply lookup_insert_eq].
Qed.

(** X16.  [R] of a module's context on an asset module: a module that is not
    cached and whose factory sets [module.exports], or the [default]
    property of its exports, to the string [ASSET_PREFIX ++ p] is
    instantiated by the call, which returns the href of the file URL of
    [path.resolve(RUNTIME_ROOT, p)]; a second call returns the same URL
    from the cached record, without calling the factory again. *)
Theorem resolvePathFromModule_of_asset fuel sourceModule source id f p st :
  moduleCache st !! id = None -> moduleFactories st !! id = Some f ->
  fbody f = [CModuleExports (VString (ASSET_PREFIX ++ p))] \/
  fbody f = [CExport (lit "default") (VString (ASSET_PREFIX ++ p))] ->
  modules st !! sourceModule = Some source ->
  2 <= fuel ->
  let R := resolvePathFromModule env pathToFileURL_href ASSET_PREFIX fuel sourceModule in
  let href := VString (pathToFileURL_href (path_resolve env (RUNTIME_ROOT env) p)) in
  exists st' m,
    R id st = (Ok href, st') /\
    moduleCache st' !! id = Some (S (nextRef st)) /\
    modules st' !! S (nextRef st) = Some m /\ loaded m = true /\ error m = VUndefined /\
    factoryCalls st' = id :: factoryCalls st /\
    exists st'',
      R id st' = (Ok href, st'') /\
      moduleCache st'' = moduleCache st' /\ modules st'' = modules st' /\
      factoryCalls st'' = factoryCalls st'.
Proof.
  intros Hc Hf Hbody Hs Hfuel R href.
  destruct (instantiate_asset fuel id (Parent (idOf source)) st f _ Hf Hbody Hfuel)
    as (st1 & m & Hi & Hc1 & Hm1 & Hl & He & Hk & Hex).
  cbv zeta in Hi, Hc1, Hm1.
  assert (Hm1' : modules st1 !! S (nextRef st) = Some m) by (rewrite Hm1; apply lookup_insert_eq).
  assert (Hc1' : moduleCache st1 !! id = Some (S (nextRef st)))
    by (rewrite Hc1; apply lookup_insert_eq).
  pose proof (commonJsRequire_fresh env (instantiateModule env fuel) sourceModule id st source
                _ _ m Hc Hs Hi Hm1' He) as Hreq.
  set (st2 := set_requireTrace _ st1) in Hreq.
  assert (Hreq2 : commonJsRequire env fuel sourceModule id st2 =
                  (Ok (exports m),
                   set_requireTrace (fun t =>
                     {| cap_by := sourceModule; cap_of := id; cap_module := S (nextRef st);
                        cap_exports := exports m; cap_loaded := loaded m |} :: t) st2)).
  { apply commonJsRequire_cached; [exact Hc1' | exact Hm1' | exact He]. }
  assert (Hurl : forall st0 st0',
            objects st0' = objects st1 ->
            commonJsRequire env fuel sourceModule id st0 = (Ok (exports m), st0') ->
            R id st0 = (Ok href, st0')).
  { intros st0 st0' Hobj H0. unfold R, resolvePathFromModule, href.
    rewrite <- (slice_prefix ASSET_PREFIX p).
    destruct Hex as [Hv | (ref & o & Hv & Ho & Hd)].
    - apply createResolvePathFromModule_string. rewrite <- Hv. exact H0.
    - eapply createResolvePathFromModule_default; [rewrite <- Hv; exact H0 | | exact Hd].
      rewrite Hobj. exact Ho. }
  exists st2, m. split; [apply Hurl; [reflexivity | exact Hreq]|].
  split; [exact Hc1'|]. split; [exact Hm1'|]. split; [exact Hl|]. split; [exact He|].
  split; [exact Hk|].
  eexists. split; [apply Hurl; [|exact Hreq2]; reflexivity|]. auto.
Qed.

End UrlExtras.

(** ** Source maps *)

Lemma offsetApplies_le line0 column0 a b :
  offsetLe a b -> offsetApplies line0 column0 b = true -> offsetApplies line0 column0 a = true.
Proof.
  unfold offsetLe, offsetApplies. intros Hle H.
  apply orb_true_iff in H. apply orb_true_iff.
  destruct H as [H | H].
  - apply Z.ltb_lt in H. destruct Hle as [Hl | [Hl Hc]].
    + left. apply Z.ltb_lt. lia.
    + left. apply Z.ltb_lt. lia.
  - apply andb_true_iff in H as [Hl' Hc']. apply Z.eqb_eq in Hl'. apply Z.leb_le in Hc'.
    destruct Hle as [Hl | [Hl Hc]].
    + left. apply Z.ltb_lt. lia.
    + right. apply andb_true_iff. split; [apply Z.eqb_eq | apply Z.leb_le]; lia.
Qed.

Lemma toInt32_small x : (0 <= x < 2 ^ 31)%Z -> toInt32 x = x.
Proof.
  intros H. unfold toInt32. rewrite Z.mod_small; lia.
Qed.

Lemma sectionAt_nat sections i :
  sectionAt sections (Z.of_nat i) = sections !! i.
Proof.
  unfold sectionAt. destruct (Z.ltb_spec (Z.of_nat i) 0); [lia|]. rewrite Nat2Z.id. reflexivity.
Qed.

Lemma middle_nat left hi :
  left < hi -> (Z.of_nat hi < 2 ^ 31)%Z ->
  toInt32 ((Z.of_nat left + (Z.of_nat hi - 1)) ÷ 2) = Z.of_nat ((left + hi - 1) / 2).
Proof.
  intros Hlt Hhi.
  rewrite Z.quot_div_nonneg by lia.
  replace (Z.of_nat left + (Z.of_nat hi - 1))%Z with (Z.of_nat (left + hi - 1)) by lia.
  change 2%Z with (Z.of_nat 2). rewrite <- Nat2Z.inj_div.
  apply toInt32_small.
  assert ((left + hi - 1) / 2 < hi) by (apply Nat.Div0.div_lt_upper_bound; lia).
  lia.
Qed.

(** The loop, from a state that satisfies its invariant: [right] is
    [hi - 1], the sections before [left] apply, the ones from [hi] on do
    not, and [result] is the section before [left]. *)
Lemma searchSections_sorted sections line0 column0 :
  sortedSections sections -> (Z.of_nat (length sections) < 2 ^ 31)%Z ->
  forall fuel left hi result,
    left <= hi -> hi <= length sections -> hi - left <= fuel ->
    (forall i s, i < left -> sections !! i = Some s ->
                 offsetApplies line0 column0 (offset s) = true) ->
    (forall i s, hi <= i -> sections !! i = Some s ->
                 offsetApplies line0 column0 (offset s) = false) ->
    result = match left with O => None | S k => sections !! k end ->
    exists k,
      searchSections fuel sections line0 column0 (Z.of_nat left) (Z.of_nat hi - 1) result =
        Found (match k with O => None | S k' => sections !! k' end) /\
      k <= length sections /\
      (forall i s, i < k -> sections !! i = Some s ->
                   offsetApplies line0 column0 (offset s) = true) /\
      (forall i s, k <= i -> sections !! i = Some s ->
                   offsetApplies line0 column0 (offset s) = false).
Proof.
  intros Hsorted Hlen.
  induction fuel as [|n IH]; intros left hi result Hle Hhi Hfuel Hbefore Hafter Hresult.
  - assert (left = hi) by lia. subst hi. exists left. simpl.
    destruct (Z.leb_spec (Z.of_nat left) (Z.of_nat left - 1)); [lia|].
    rewrite Hresult. auto.
  - simpl. destruct (Z.leb_spec (Z.of_nat left) (Z.of_nat hi - 1)) as [Hlt | Hge].
    + assert (Hlt' : left < hi) by lia.
      rewrite middle_nat by lia. set (m := (left + hi - 1) / 2).
      assert (Hm : left <= m < hi).
      { unfold m. split.
        - apply Nat.div_le_lower_bound; lia.
        - apply Nat.Div0.div_lt_upper_bound; lia. }
      rewrite sectionAt_nat.
      destruct (lookup_lt_is_Some_2 sections m) as [s Hs]; [lia|]. rewrite Hs.
      destruct (offsetApplies line0 column0 (offset s)) eqn:Happ.
      * replace (Z.of_nat m + 1)%Z with (Z.of_nat (S m)) by lia.
        apply IH; [lia | lia | lia | | exact Hafter | exact (eq_sym Hs)].
        intros i a Hi Ha. apply (offsetApplies_le _ _ _ (offset s)); [|exact Happ].
        apply (Hsorted i m); [lia | exact Ha | exact Hs].
      * replace (Z.of_nat m - 1)%Z with (Z.of_nat m - 1)%Z by reflexivity.
        apply IH; [lia | lia | lia | exact Hbefore | | exact Hresult].
        intros i b Hi Hb. destruct (offsetApplies line0 column0 (offset b)) eqn:Hb'; [|reflexivity].
        rewrite <- Happ. symmetry. apply (offsetApplies_le _ _ _ (offset b)); [|exact Hb'].
        apply (Hsorted m i); [lia | exact Hs | exact Hb].
    + assert (left = hi) by lia. subst hi. exists left. rewrite Hresult. auto.
Qed.

(** The loop on any array below 2^31 sections: it ends, within the fuel
    given, and what it finds is a section of the array that applies. *)
Lemma searchSections_any sections line0 column0 :
  (Z.of_nat (length sections) < 2 ^ 31)%Z ->
  forall fuel left hi result,
    left <= hi -> hi <= length sections -> hi - left <= fuel ->
    (forall s, result = Some s ->
               s ∈ sections /\ offsetApplies line0 column0 (offset s) = true) ->
    exists result',
      searchSections fuel sections line0 column0 (Z.of_nat left) (Z.of_nat hi - 1) result =
        Found result' /\
      (forall s, result' = Some s ->
                 s ∈ sections /\ offsetApplies line0 column0 (offset s) = true).
Proof.
  intros Hlen.
  induction fuel as [|n IH]; intros left hi result Hle Hhi Hfuel Hresult.
  - assert (left = hi) by lia. subst hi. exists result. simpl.
    destruct (Z.leb_spec (Z.of_nat left) (Z.of_nat left - 1)); [lia|]. auto.
  - simpl. destruct (Z.leb_spec (Z.of_nat left) (Z.of_nat hi - 1)) as [Hlt | Hge].
    + rewrite middle_nat by lia. set (m := (left + hi - 1) / 2).
      assert (Hm : left <= m < hi).
      { unfold m. split.
        - apply Nat.div_le_lower_bound; lia.
        - apply Nat.Div0.div_lt_upper_bound; lia. }
      rewrite sectionAt_nat.
      destruct (lookup_lt_is_Some_2 sections m) as [s Hs]; [lia|]. rewrite Hs.
      destruct (offsetApplies line0 column0 (offset s)) eqn:Happ.
      * replace (Z.of_nat m + 1)%Z with (Z.of_nat (S m)) by lia.
        apply IH; [lia | lia | lia |].
        intros s' Hs'. injection Hs' as <-. split; [|exact Happ].
        eapply list_elem_of_lookup_2; eauto.
      * apply IH; [lia | lia | lia | exact Hresult].
    + exists result. auto.
Qed.

(** X17.  On an index source map with fewer than 2^31 sections, sorted by
    offset, [findApplicableSourceMapPayload] returns the map of the last
    section whose offset is at or before the frame, and [undefined] when
    every section starts after the frame. *)
Theorem findApplicableSourceMapPayload_sorted line0 column0 payload :
  sortedSections (sections payload) ->
  (Z.of_nat (length (sections payload)) < 2 ^ 31)%Z ->
  match findApplicableSourceMapPayload line0 column0 (IndexPayload payload) with
  | Found (Some applicable) =>
      exists i section,
        sections payload !! i = Some section /\ map section = applicable /\
        offsetApplies line0 column0 (offset section) = true /\
        forall j later, i < j -> sections payload !! j = Some later ->
                        offsetApplies line0 column0 (offset later) = false
  | Found None =>
      forall section, section ∈ sections payload ->
                      offsetApplies line0 column0 (offset section) = false
  | ThrewTypeError | OutOfFuel => False
  end.
Proof.
  intros Hsorted Hlen. unfold findApplicableSourceMapPayload.
  case_bool_decide as Hempty.
  { intros section Hin. destruct (sections payload); [|discriminate].
    apply elem_of_nil in Hin. contradiction. }
  destruct (searchSections_sorted (sections payload) line0 column0 Hsorted Hlen
              (S (length (sections payload))) 0 (length (sections payload)) None)
    as (k & E & Hk & Hbefore & Hafter);
    [lia | lia | lia | intros i s Hi; lia
    | intros i s Hi Hs; apply lookup_lt_Some in Hs; lia | reflexivity |].
  change (Z.of_nat 0) with 0%Z in E. cbv zeta. rewrite E. clear E.
  destruct k as [|k]; simpl.
  - intros section Hin. apply list_elem_of_lookup in Hin as [i Hi].
    apply (Hafter i); [lia | exact Hi].
  - destruct (lookup_lt_is_Some_2 (sections payload) k) as [s Hs]; [lia|].
    rewrite Hs. simpl. exists k, s. split; [exact Hs|]. split; [reflexivity|].
    split; [apply (Hbefore k); [lia | exact Hs]|].
    intros j later Hj Hl. apply (Hafter j); [lia | exact Hl].
Qed.

(** X18.  Whatever the order of the sections, on fewer than 2^31 of them the
    search ends without reading outside the array, and a payload it returns
    is the map of a section whose offset is at or before the frame. *)
Theorem findApplicableSourceMapPayload_in_bounds line0 column0 payload :
  (Z.of_nat (length (sections payload)) < 2 ^ 31)%Z ->
  exists result,
    findApplicableSourceMapPayload line0 column0 (IndexPayload payload) = Found result /\
    forall applicable, result = Some applicable ->
      exists section, section ∈ sections payload /\ map section = applicable /\
                      offsetApplies line0 column0 (offset section) = true.
Proof.
  intros Hlen. unfold findApplicableSourceMapPayload.
  case_bool_decide as Hempty; [exists None; split; [reflexivity | discriminate]|].
  destruct (searchSections_any (sections payload) line0 column0 Hlen
              (S (length (sections payload))) 0 (length (sections payload)) None)
    as (result & E & Hresult); [lia | lia | lia | discriminate |].
  change (Z.of_nat 0) with 0%Z in E. cbv zeta. rewrite E. clear E.
  exists (map <$> result). split; [reflexivity|].
  intros applicable Happ. destruct result as [s|]; [|discriminate].
  injection Happ as <-. destruct (Hresult s eq_refl) as [Hin Ha]. eauto.
Qed.

(** X19.  On a payload whose ignore list is one that the format allows
    (indices into [sources], each once), [sourceMapIgnoreListsEverything],
    which compares two lengths, is true exactly when every source is on
    the ignore list. *)
Theorem sourceMapIgnoreListsEverything_valid sourceMap :
  validIgnoreList sourceMap ->
  sourceMapIgnoreListsEverything sourceMap = true <->
  exists l, ignoreList sourceMap = Some l /\
            forall i, i < length (sources sourceMap) -> Z.of_nat i ∈ l.
Proof.
  unfold validIgnoreList, sourceMapIgnoreListsEverything.
  destruct (ignoreList sourceMap) as [l|]; [|intros _; split; [discriminate | intros (l & H & _); discriminate]].
  intros [Hnd Hrange].
  set (n := length (sources sourceMap)) in *.
  assert (Hsub : l ⊆+ seqZ 0 (Z.of_nat n)).
  { apply NoDup_submseteq; [exact Hnd|]. intros i Hi. apply elem_of_seqZ.
    specialize (Hrange i Hi). lia. }
  assert (Hlenseq : length (seqZ 0 (Z.of_nat n)) = n) by (rewrite length_seqZ; lia).
  split.
  - intros H. apply bool_decide_eq_true in H. exists l. split; [reflexivity|].
    intros i Hi.
    assert (Hperm : l ≡ₚ seqZ 0 (Z.of_nat n)).
    { apply submseteq_length_Permutation; [exact Hsub | lia]. }
    rewrite Hperm. apply elem_of_seqZ. lia.
  - intros (l' & Hl' & Hall). injection Hl' as <-.
    apply bool_decide_eq_true.
    assert (Hsub' : seqZ 0 (Z.of_nat n) ⊆+ l).
    { apply NoDup_submseteq; [apply NoDup_seqZ|]. intros i Hi. apply elem_of_seqZ in Hi.
      replace i with (Z.of_nat (Z.to_nat i)) by lia. apply Hall. lia. }
    apply submseteq_length in Hsub, Hsub'. lia.
Qed.

(** ** Virtual URLs of server components *)

Lemma indexOfFrom_absent c s i : c ∉ s -> indexOfFrom c s i = (-1)%Z.
Proof.
  revert i. induction s as [|x rest IH]; intros i Hc; simpl; [reflexivity|].
  apply not_elem_of_cons in Hc as [Hx Hrest].
  destruct (N.eqb_spec x c); [congruence | apply IH, Hrest].
Qed.

Lemma indexOfFrom_first c a b i :
  c ∉ a -> indexOfFrom c (a ++ c :: b) i = Z.of_nat (i + length a).
Proof.
  revert i. induction a as [|x a IH]; intros i Hc; simpl.
  - rewrite N.eqb_refl. f_equal. lia.
  - apply not_elem_of_cons in Hc as [Hx Ha].
    destruct (N.eqb_spec x c); [congruence|]. rewrite IH by exact Ha. f_equal. lia.
Qed.

Lemma lastIndexOfFrom_absent c s i found : c ∉ s -> lastIndexOfFrom c s i found = found.
Proof.
  revert i found. induction s as [|x rest IH]; intros i found Hc; simpl; [reflexivity|].
  apply not_elem_of_cons in Hc as [Hx Hrest].
  destruct (N.eqb_spec x c); [congruence | apply IH, Hrest].
Qed.

Lemma lastIndexOfFrom_last c a b i found :
  c ∉ b -> lastIndexOfFrom c (a ++ c :: b) i found = Z.of_nat (i + length a).
Proof.
  revert i found. induction a as [|x a IH]; intros i found Hc; simpl.
  - rewrite N.eqb_refl, lastIndexOfFrom_absent by exact Hc. f_equal. lia.
  - rewrite IH by exact Hc. f_equal. lia.
Qed.

Section ReactServerURLFacts.

Context (decodeURI : jsstring -> Decoded).

(** X20.  A virtual URL [rsc://React/<env>/<url>?<n>], with no slash in the
    environment name and no question mark in the suffix, is devirtualized
    to [decodeURI(<url>)], whatever slashes and question marks the URL
    holds; a string that does not start with [rsc://React/], and one that
    starts with it and has no question mark, is returned as it is. *)
Theorem devirtualizeReactServerURL_virtual environmentName url suffix other :
  ch "/" ∉ environmentName -> ch "?" ∉ suffix ->
  devirtualizeReactServerURL decodeURI
    (lit "rsc://React/" ++ environmentName ++ ch "/" :: url ++ ch "?" :: suffix) =
    decodeURI url /\
  (startsWith other (lit "rsc://React/") = false \/ ch "?" ∉ other ->
   devirtualizeReactServerURL decodeURI other = DecodedString other).
Proof.
  intros Henv Hsuffix. split.
  - unfold devirtualizeReactServerURL.
    set (prefix := lit "rsc://React/").
    assert (Hstarts : startsWith (prefix ++ environmentName ++ ch "/" :: url ++ ch "?" :: suffix)
                        prefix = true).
    { unfold startsWith. apply bool_decide_eq_true. apply take_app_length. }
    rewrite Hstarts.
    assert (Hidx : indexOf (prefix ++ environmentName ++ ch "/" :: url ++ ch "?" :: suffix)
                     (ch "/") (length prefix) =
                   Z.of_nat (length prefix + length environmentName)).
    { unfold indexOf. rewrite drop_app_length. apply indexOfFrom_first, Henv. }
    assert (Hlast : lastIndexOf (prefix ++ environmentName ++ ch "/" :: url ++ ch "?" :: suffix)
                      (ch "?") =
                    Z.of_nat (length prefix + length environmentName + 1 + length url)).
    { unfold lastIndexOf.
      replace (prefix ++ environmentName ++ ch "/" :: url ++ ch "?" :: suffix)
        with ((prefix ++ environmentName ++ ch "/" :: url) ++ ch "?" :: suffix)
        by (rewrite <- !app_assoc; reflexivity).
      rewrite lastIndexOfFrom_last by exact Hsuffix. f_equal.
      rewrite !length_app. simpl. lia. }
    rewrite Hidx, Hlast.
    destruct (Z.gtb_spec (Z.of_nat (length prefix + length environmentName)) (-1)) as [_|]; [|lia].
    destruct (Z.gtb_spec (Z.of_nat (length prefix + length environmentName + 1 + length url)) (-1))
      as [_|]; [|lia].
    simpl andb. cbv iota. f_equal. unfold sliceBetween.
    replace (Z.to_nat (Z.of_nat (length prefix + length environmentName) + 1))
      with (length (prefix ++ environmentName ++ [ch "/"]))
      by (rewrite !length_app; simpl; lia).
    replace (prefix ++ environmentName ++ ch "/" :: url ++ ch "?" :: suffix)
      with ((prefix ++ environmentName ++ [ch "/"]) ++ url ++ ch "?" :: suffix)
      by (rewrite <- !app_assoc; reflexivity).
    rewrite drop_app_length.
    replace (Z.to_nat (Z.of_nat (length prefix + length environmentName + 1 + length url)) -
             length (prefix ++ environmentName ++ [ch "/"])) with (length url)
      by (rewrite !length_app; simpl; lia).
    apply take_app_length.
  - intros [Hs | Hq]; unfold devirtualizeReactServerURL.
    + rewrite Hs. reflexivity.
    + destruct (startsWith other _); [|reflexivity].
      unfold lastIndexOf. rewrite lastIndexOfFrom_absent by exact Hq.
      rewrite andb_false_r. reflexivity.
Qed.

End ReactServerURLFacts.

(** ** Sandwiched anonymous frames *)

Section SandwichFacts.

Context {Frame : Type} (isAnonymousFrame isIgnoredFrame : Frame -> bool)
        (getMethodName : Frame -> jsstring).

Local Abbreviation scan := (scanSandwich isAnonymousFrame isIgnoredFrame getMethodName).
Local Abbreviation loop := (sandwichLoop isAnonymousFrame isIgnoredFrame getMethodName).

Lemma increasing_app_seq ignored i m :
  increasing ignored -> Forall (fun k => k < i) ignored -> increasing (ignored ++ seq i m).
Proof.
  intros Hinc Hlt a b x y Hab Ha Hb.
  rewrite Forall_forall in Hlt.
  destruct (decide (b < length ignored)) as [Hb' | Hb'].
  - rewrite lookup_app_l in Ha, Hb by lia. exact (Hinc a b x y Hab Ha Hb).
  - rewrite lookup_app_r in Hb by lia. apply lookup_seq in Hb as [-> Hm].
    destruct (decide (a < length ignored)) as [Ha' | Ha'].
    + rewrite lookup_app_l in Ha by lia.
      assert (x < i) by (apply Hlt; eapply list_elem_of_lookup_2; eauto). lia.
    + rewrite lookup_app_r in Ha by lia. apply lookup_seq in Ha as [-> _]. lia.
Qed.

Lemma scanSandwich_spec rest j0 :
  match scan rest j0 with
  | (true, j) =>
      j0 <= j /\ exists f, rest !! (j - j0) = Some f /\ isIgnoredFrame f = true /\
                           anonymousNative isAnonymousFrame getMethodName f = false
  | (false, j) => j = j0 + length rest
  end.
Proof.
  revert j0. induction rest as [|f rest IH]; intros j0; simpl; [lia|].
  destruct (anonymousNative isAnonymousFrame getMethodName f) eqn:Hn.
  - specialize (IH (S j0)). destruct (scan rest (S j0)) as [[|] j].
    + destruct IH as [Hle (g & Hg & Hi & Ha)]. split; [lia|]. exists g.
      replace (j - j0) with (S (j - S j0)) by lia. auto.
    + lia.
  - destruct (isIgnoredFrame f) eqn:Hi.
    + split; [lia|]. exists f. rewrite Nat.sub_diag. auto.
    + specialize (IH (S j0)). destruct (scan rest (S j0)) as [[|] j].
      * destruct IH as [Hle (g & Hg & Hi' & Ha)]. split; [lia|]. exists g.
        replace (j - j0) with (S (j - S j0)) by lia. auto.
      * lia.
Qed.

Lemma sandwichLoop_spec frames :
  forall fuel i ignored,
    1 <= i -> length frames - i <= fuel ->
    Forall (sandwiched isIgnoredFrame frames) ignored ->
    Forall (fun k => k < i) ignored ->
    increasing ignored ->
    exists ks,
      loop fuel frames i ignored = Some ks /\
      Forall (sandwiched isIgnoredFrame frames) ks /\
      increasing ks.
Proof.
  induction fuel as [|n IH]; intros i ignored Hi Hfuel Hsand Hlt Hsorted; simpl.
  - destruct (Nat.ltb_spec i (length frames)); [lia|]. simpl. eauto.
  - destruct (Nat.ltb_spec i (length frames)) as [Hin|]; [|simpl; eauto]. simpl.
    destruct (lookup_lt_is_Some_2 frames i Hin) as [cur Hcur].
    destruct (lookup_lt_is_Some_2 frames (i - 1)) as [prev Hprev]; [lia|].
    rewrite Hcur, Hprev.
    assert (Hnext : forall i', i <= i' ->
              exists ks, loop n frames (S i') ignored = Some ks /\
                         Forall (sandwiched isIgnoredFrame frames) ks /\ increasing ks).
    { intros i' Hi'. apply IH; [lia | lia | exact Hsand | | exact Hsorted].
      eapply Forall_impl; [exact Hlt|]. simpl. intros; lia. }
    destruct (anonymousNative isAnonymousFrame getMethodName cur); simpl; [|apply Hnext; lia].
    destruct (isIgnoredFrame prev) eqn:Hprevi; simpl; [|apply Hnext; lia].
    destruct (Nat.ltb_spec i (length frames - 1)) as [Hlast|]; [|apply Hnext; lia].
    pose proof (scanSandwich_spec (drop (S i) frames) (S i)) as Hscan.
    destruct (scan (drop (S i) frames) (S i)) as [[|] j]; [|apply Hnext; lia].
    destruct Hscan as [Hj (f & Hf & Hfi & _)].
    rewrite lookup_drop in Hf. replace (S i + (j - S i)) with j in Hf by lia.
    pose proof (lookup_lt_Some _ _ _ Hf) as Hjn.
    apply IH; [lia | lia | | |].
    + apply Forall_app. split; [exact Hsand|].
      apply Forall_forall. intros k Hk. apply elem_of_seq in Hk.
      split; [lia|]. split; [lia|].
      exists (i - 1), j, prev, f. repeat split; auto; lia.
    + apply Forall_app. split.
      * eapply Forall_impl; [exact Hlt|]. simpl. intros; lia.
      * apply Forall_forall. intros k Hk. apply elem_of_seq in Hk. lia.
    + apply increasing_app_seq; assumption.
Qed.

(** X21.  With callbacks that are functions of the frame,
    [ignoreListAnonymousStackFramesIfSandwiched] ends on every list of
    frames, and the frames it passes to [ignoreFrame] are passed in
    increasing order of index, each once, never the first nor the last
    frame, and each with a frame that [isIgnoredFrame] holds of somewhere
    before it and another somewhere after it. *)
Theorem ignored_frames_are_sandwiched (frames : list Frame) :
  exists ks,
    ignoreListAnonymousStackFramesIfSandwiched isAnonymousFrame isIgnoredFrame getMethodName
      frames = Some ks /\
    Forall (sandwiched isIgnoredFrame frames) ks /\
    increasing ks.
Proof.
  apply sandwichLoop_spec; [lia | lia | constructor | constructor |].
  intros a b x y _ Ha. rewrite lookup_nil in Ha. discriminate.
Qed.

End SandwichFacts.

Section SandwichExact.

Context {Frame : Type} (isAnonymousFrame isIgnoredFrame : Frame -> bool)
        (getMethodName : Frame -> jsstring).

Local Abbreviation scan := (scanSandwich isAnonymousFrame isIgnoredFrame getMethodName).
Local Abbreviation loop := (sandwichLoop isAnonymousFrame isIgnoredFrame getMethodName).
Local Abbreviation native := (anonymousNative isAnonymousFrame getMethodName).
Local Abbreviation closes := (closesSandwich isAnonymousFrame isIgnoredFrame getMethodName).
Local Abbreviation sandwich := (sandwichAt isAnonymousFrame isIgnoredFrame getMethodName).
Local Abbreviation inside := (inSandwich isAnonymousFrame isIgnoredFrame getMethodName).

Lemma scanSandwich_step frame rest j :
  scan (frame :: rest) j = if closes frame then (true, j) else scan rest (S j).
Proof.
  simpl. unfold closesSandwich.
  destruct (native frame); simpl; [reflexivity|].
  destruct (isIgnoredFrame frame); reflexivity.
Qed.

(** What the scan finds: the first frame that closes the sandwich. *)
Lemma scanSandwich_first rest j0 :
  match scan rest j0 with
  | (true, j) =>
      j0 <= j /\
      (exists frame, rest !! (j - j0) = Some frame /\ closes frame = true) /\
      (forall k frame, k < j - j0 -> rest !! k = Some frame -> closes frame = false)
  | (false, j) =>
      forall k frame, rest !! k = Some frame -> closes frame = false
  end.
Proof.
  revert j0. induction rest as [|f rest IH]; intros j0.
  - simpl. intros k frame H. rewrite lookup_nil in H. discriminate.
  - rewrite scanSandwich_step. destruct (closes f) eqn:Hf.
    + split; [lia|]. rewrite Nat.sub_diag. split; [exists f; auto|].
      intros k frame Hk. lia.
    + specialize (IH (S j0)). destruct (scan rest (S j0)) as [[|] j].
      * destruct IH as (Hle & (g & Hg & Hgc) & Hbefore). split; [lia|].
        replace (j - j0) with (S (j - S j0)) by lia. split; [exists g; auto|].
        intros [|k] frame Hk Hl; simpl in Hl.
        -- injection Hl as <-. exact Hf.
        -- apply (Hbefore k); [lia | exact Hl].
      * intros [|k] frame Hl; simpl in Hl.
        -- injection Hl as <-. exact Hf.
        -- apply (IH k). exact Hl.
Qed.

(** Two sandwiches that start inside each other end at the same frame. *)
Lemma sandwichAt_same_end frames i j i' j' :
  sandwich frames i j -> sandwich frames i' j' -> i <= i' -> i' < j -> j' = j.
Proof.
  intros (_ & Hij & _ & _ & (l & Hl & Hlc) & Hbetween)
         (_ & Hij' & _ & (c' & Hc' & Hn') & (l' & Hl' & Hlc') & Hbetween') Hii Hi'j.
  destruct (Nat.lt_trichotomy j' j) as [Hlt | [Heq | Hgt]]; [|exact Heq|].
  - assert (closes l' = false) as E; [|congruence].
    apply (Hbetween j'); [lia | lia | exact Hl'].
  - assert (closes l = false) as E; [|congruence].
    apply (Hbetween' j); [lia | lia | exact Hl].
Qed.

(** The loop keeps: the calls made are the frames of the sandwiches that
    start before [i], and these sandwiches end before [i]. *)
Lemma sandwichLoop_exact frames :
  forall fuel i ignored,
    1 <= i -> length frames - i <= fuel ->
    (forall k, k ∈ ignored -> inside frames k) ->
    (forall i' j' k, sandwich frames i' j' -> i' < i -> i' <= k -> k < j' ->
                     k ∈ ignored /\ j' < i) ->
    exists ks,
      loop fuel frames i ignored = Some ks /\
      forall k, k ∈ ks <-> inside frames k.
Proof.
  induction fuel as [|n IH]; intros i ignored Hi Hfuel Hsound Hdone.
  - simpl. destruct (Nat.ltb_spec i (length frames)); [lia|]. simpl.
    exists ignored. split; [reflexivity|]. intros k. split; [apply Hsound|].
    intros (i' & j' & Hik & Hkj & Hs).
    assert (i' < i).
    { destruct Hs as (_ & Hij & _ & _ & (l & Hl & _) & _).
      apply lookup_lt_Some in Hl. lia. }
    apply (Hdone i' j' k Hs); assumption.
  - simpl. destruct (Nat.ltb_spec i (length frames)) as [Hin|].
    2:{ simpl. exists ignored. split; [reflexivity|]. intros k. split; [apply Hsound|].
        intros (i' & j' & Hik & Hkj & Hs).
        assert (i' < i).
        { destruct Hs as (_ & Hij & _ & _ & (l & Hl & _) & _).
          apply lookup_lt_Some in Hl. lia. }
        apply (Hdone i' j' k Hs); assumption. }
    simpl.
    destruct (lookup_lt_is_Some_2 frames i Hin) as [cur Hcur].
    destruct (lookup_lt_is_Some_2 frames (i - 1)) as [prev Hprev]; [lia|].
    rewrite Hcur, Hprev.
    assert (Hnext : (forall j', ~ sandwich frames i j') ->
              exists ks, loop n frames (S i) ignored = Some ks /\
                         forall k, k ∈ ks <-> inside frames k).
    { intros Hnone. apply IH; [lia | lia | exact Hsound |].
      intros i' j' k Hs Hi' Hik Hkj.
      destruct (decide (i' = i)) as [-> | Hne]; [exfalso; exact (Hnone j' Hs)|].
      destruct (Hdone i' j' k Hs) as [Hk Hj]; [lia | lia | lia |]. split; [exact Hk | lia]. }
    destruct (native cur) eqn:Hn; simpl.
    2:{ apply Hnext. intros j' (_ & _ & _ & (c & Hc & Hcn) & _). congruence. }
    destruct (isIgnoredFrame prev) eqn:Hp; simpl.
    2:{ apply Hnext. intros j' (_ & _ & (p & Hp' & Hpi) & _). congruence. }
    destruct (Nat.ltb_spec i (length frames - 1)) as [Hlast | Hlast].
    2:{ apply Hnext. intros j' (_ & Hij & _ & _ & (l & Hl & _) & _).
        apply lookup_lt_Some in Hl. lia. }
    pose proof (scanSandwich_first (drop (S i) frames) (S i)) as Hscan.
    destruct (scan (drop (S i) frames) (S i)) as [[|] j].
    2:{ apply Hnext. intros j' (_ & Hij & _ & _ & (l & Hl & Hlc) & _).
        assert (closes l = false) as E; [|congruence].
        apply (Hscan (j' - S i)). rewrite lookup_drop.
        replace (S i + (j' - S i)) with j' by lia. exact Hl. }
    destruct Hscan as (Hj & (l & Hl & Hlc) & Hbefore).
    rewrite lookup_drop in Hl. replace (S i + (j - S i)) with j in Hl by lia.
    pose proof (lookup_lt_Some _ _ _ Hl) as Hjn.
    assert (Hs : sandwich frames i j).
    { split; [lia|]. split; [lia|]. split; [eauto|]. split; [eauto|]. split; [eauto|].
      intros k frame Hik Hkj Hk. apply (Hbefore (k - S i)); [lia|].
      rewrite lookup_drop. replace (S i + (k - S i)) with k by lia. exact Hk. }
    apply IH; [lia | lia | |].
    + intros k Hk. apply elem_of_app in Hk as [Hk | Hk]; [apply Hsound, Hk|].
      apply elem_of_seq in Hk. exists i, j. split; [lia|]. split; [lia | exact Hs].
    + intros i' j' k Hs' Hi' Hik Hkj.
      destruct (decide (i' < i)) as [Hlt | Hge].
      * destruct (Hdone i' j' k Hs' Hlt Hik Hkj) as [Hk Hj']. split; [|lia].
        apply elem_of_app. left. exact Hk.
      * assert (i' < j).
        { destruct (decide (i' < j)) as [|Hij]; [assumption|]. exfalso.
          assert (i' = j) by lia. subst i'.
          destruct Hs' as (_ & _ & _ & (c & Hc & Hcn) & _).
          rewrite Hl in Hc. injection Hc as <-.
          unfold closesSandwich in Hlc. rewrite Hcn in Hlc. discriminate. }
        assert (j' = j) by (apply (sandwichAt_same_end frames i j i' j'); auto; lia).
        subst j'. split; [|lia].
        apply elem_of_app. right. apply elem_of_seq. lia.
Qed.

(** X22.  The frames passed to [ignoreFrame] are exactly the frames of the
    sandwiches.  A sandwich runs from a frame [i] that is an anonymous
    frame of a native method and comes after an ignored frame, up to the
    first later frame [j] that is ignored and not an anonymous frame of a
    native method; the frame at [k] is passed if and only if [i <= k < j]
    for such a sandwich.  So the frames between [i] and [j] that are
    neither anonymous nor ignored are passed too, and [j] is not. *)
Theorem sandwich_is_ignored (frames : list Frame) :
  exists ks,
    ignoreListAnonymousStackFramesIfSandwiched isAnonymousFrame isIgnoredFrame getMethodName
      frames = Some ks /\
    forall k, k ∈ ks <-> inSandwich isAnonymousFrame isIgnoredFrame getMethodName frames k.
Proof.
  apply sandwichLoop_exact; [lia | lia | |].
  - intros k Hk. apply elem_of_nil in Hk. contradiction.
  - intros i' j' k (Hi' & _) Hlt. lia.
Qed.

End SandwichExact.

(** ** The further properties at concrete inputs *)

(** X1 on the chunk [c.js], whose one primary id has a factory already. *)
Lemma redundant_chunk_changes_nothing_witness :
  node_require keepHost (requireLog keepLoaded) (resolved keepHost (lit "c.js")) =
    Required [(idA, Shared factory1 [idB])] /\
  is_Some (moduleFactories keepLoaded !! idA) /\
  moduleFactories (loadChunkPath keepHost (lit "c.js") None keepLoaded).2 =
    moduleFactories keepLoaded /\
  moduleFactories (loadChunkUncached keepHost (lit "c.js") keepLoaded).2 =
    moduleFactories keepLoaded.
Proof.
  assert (Hreq : node_require keepHost (requireLog keepLoaded) (resolved keepHost (lit "c.js")) =
                 Required [(idA, Shared factory1 [idB])]) by (vm_compute; reflexivity).
  assert (Hsome : is_Some (moduleFactories keepLoaded !! idA))
    by (eexists; vm_compute; reflexivity).
  split; [exact Hreq|]. split; [exact Hsome|].
  destruct (redundant_chunk_changes_nothing keepHost (lit "c.js") None keepLoaded
              [(idA, Shared factory1 [idB])] Hreq) as (H1 & H2).
  - intros k Hk. apply list_elem_of_singleton in Hk. subst k. exact Hsome.
  - split; [exact H1 | exact H2].
Defined.

(** X2 on a chunk file that does not exist. *)
Lemma loadChunkPath_failure_is_retried_witness :
  isJs (lit "gone.js") = true /\
  exists st1,
    loadChunkPath emptyHost (lit "gone.js") (Some (Runtime (lit "main.js"))) initialState =
      (Throw goneError, st1) /\
    loadedChunks st1 = ∅ /\
    requireLog (loadChunkPath emptyHost (lit "gone.js") None st1).2 =
      [lit "/app/gone.js"; lit "/app/gone.js"].
Proof.
  split; [vm_compute; reflexivity|].
  destruct (loadChunkPath_failure_is_retried emptyHost (lit "gone.js")
              (Some (Runtime (lit "main.js"))) None initialState
              (VString (lit "Cannot find module")))
    as (st1 & E & _ & Hl & _ & _ & _ & Hlog & _).
  - vm_compute. reflexivity.
  - intros H. inversion H.
  - vm_compute. reflexivity.
  - exists st1. split; [exact E|]. split; [exact Hl | exact Hlog].
Defined.

(** X3 on the chunk of [sharedHost]. *)
Lemma loadChunkAsync_success_is_memoized_witness :
  exists st1,
    loadChunkAsync sharedHost (Runtime (lit "main.js")) (ChunkDataPath (lit "shared.js"))
      initialState = (Ok loadedChunk, st1) /\
    loadChunkAsync sharedHost (Parent idA) (ChunkDataPath (lit "shared.js")) st1 =
      (Ok loadedChunk, st1) /\
    requireLog
      (loadChunkAsync sharedHost (Parent idA) (ChunkDataPath (lit "shared.js"))
         (clearChunkCache st1).2).2 = [lit "/app/shared.js"; lit "/app/shared.js"].
Proof.
  destruct (loadChunkAsync_success_is_memoized sharedHost (Runtime (lit "main.js")) (Parent idA)
              (ChunkDataPath (lit "shared.js")) initialState
              [(idA, Shared factory1 [idB; idC])])
    as (st1 & E & _ & _ & _ & _ & Hagain & _ & Hlog).
  - vm_compute. reflexivity.
  - vm_compute. reflexivity.
  - vm_compute. reflexivity.
  - exists st1. split; [exact E|]. split; [exact Hagain | exact Hlog].
Defined.

(** X4 on the chunk of [sharedHost]: loaded by the one loader, then asked of
    the other. *)
Lemma sync_and_async_memos_are_apart_witness :
  isJs (lit "shared.js") = true /\
  ((lit "shared.js") ∈ loadedChunks sharedLoaded /\
   chunkCache sharedLoaded !! lit "shared.js" = None /\
   requireLog (loadChunkAsync sharedHost (Parent idA) (ChunkDataPath (lit "shared.js"))
                 sharedLoaded).2 = requireLog sharedLoaded ++ [lit "/app/shared.js"]) /\
  (chunkCache sharedAsync !! lit "shared.js" = Some loadedChunk /\
   ((lit "shared.js") ∉ loadedChunks sharedAsync) /\
   requireLog (loadChunkPath sharedHost (lit "shared.js") None sharedAsync).2 =
     requireLog sharedAsync ++ [lit "/app/shared.js"]).
Proof.
  assert (Hjs : isJs (lit "shared.js") = true) by (vm_compute; reflexivity).
  assert (Hin : lit "shared.js" ∈ loadedChunks sharedLoaded).
  { change (loadedChunks sharedLoaded) with ({[lit "shared.js"]} ∪ (∅ : gset (list N))).
    apply elem_of_union_l, elem_of_singleton. reflexivity. }
  assert (Hnone : chunkCache sharedLoaded !! lit "shared.js" = None) by (vm_compute; reflexivity).
  assert (Hsome : chunkCache sharedAsync !! lit "shared.js" = Some loadedChunk)
    by (vm_compute; reflexivity).
  assert (Hout : lit "shared.js" ∉ loadedChunks sharedAsync).
  { change (loadedChunks sharedAsync) with (∅ : gset (list N)). apply not_elem_of_empty. }
  split; [exact Hjs|]. split.
  - destruct (sync_and_async_memos_are_apart sharedHost None (Parent idA) (lit "shared.js")
                sharedLoaded Hjs) as (H1 & _).
    destruct (H1 Hin Hnone) as [_ Hlog]. auto.
  - destruct (sync_and_async_memos_are_apart sharedHost None (Parent idA) (lit "shared.js")
                sharedAsync Hjs) as (_ & H2 & _).
    destruct (H2 loadedChunk Hsome Hout) as [_ Hlog]. auto.
Defined.

(** X5 on a chunk file that does not exist. *)
Lemma loadChunkAsync_failure_reason_witness :
  exists ref st1,
    loadChunkAsync emptyHost (Runtime (lit "main.js")) (ChunkDataPath (lit "gone.js"))
      initialState = (Ok (Rejected ref goneError), st1) /\
    moduleFactories st1 = ∅ /\ loadedChunks st1 = ∅.
Proof.
  destruct (loadChunkAsync_failure_reason emptyHost (Runtime (lit "main.js")) (Parent idA)
              (ChunkDataPath (lit "gone.js")) initialState
              (VString (lit "Cannot find module")))
    as (ref & st1 & E & Hf & Hl & _).
  - vm_compute. reflexivity.
  - vm_compute. reflexivity.
  - vm_compute. reflexivity.
  - exists ref, st1. split; [exact E|]. split; [exact Hf | exact Hl].
Defined.

(** X9 on the state with a failed record. *)
Lemma no_record_is_loaded_and_failed_witness :
  reachable boomHost boomFailed /\ neverLoadedAndFailed boomFailed.
Proof.
  assert (Hr : reachable boomHost boomFailed).
  { apply reachable_runtimeModule, reachable_loadChunk, reachable_initial. }
  split; [exact Hr|]. exact (proj1 (no_record_is_loaded_and_failed boomHost boomFailed Hr)).
Defined.

(** X10 on the failed record of module A, through a call for module B. *)
Lemma existing_record_keeps_its_outcome_witness :
  wf boomFailed /\
  exists m,
    modules boomFailed !! 1 = Some m /\ error m = boomError /\
    recordKept 1 m (getOrInstantiateRuntimeModule boomHost 5 idB (lit "boom.js") boomFailed).2.
Proof.
  assert (Hwf : wf boomFailed).
  { apply (reachable_wf boomHost).
    apply reachable_runtimeModule, reachable_loadChunk, reachable_initial. }
  split; [exact Hwf|].
  assert (Hm : modules boomFailed !! 1 =
               Some (set_error boomError (freshModule idA 0))) by (vm_compute; reflexivity).
  eexists. split; [exact Hm|]. split; [reflexivity|].
  exact (proj1 (proj2 (existing_record_keeps_its_outcome boomHost 5 idB (lit "boom.js") 1
                         (ChunkDataPath (lit "boom.js")) None boomFailed 1 _ Hwf Hm))).
Defined.

(** X11 on module A that requires module B, whose factory throws. *)
Lemma require_failure_marks_both_records_witness :
  wf chainLoaded /\
  exists st' mA rB mB,
    instantiateModule chainHost 5 idA (Runtime (lit "chain.js")) chainLoaded =
      (Throw chainError, st') /\
    moduleCache st' !! idA = Some 1 /\ modules st' !! 1 = Some mA /\
    error mA = chainError /\ loaded mA = false /\
    moduleCache st' !! idB = Some rB /\ modules st' !! rB = Some mB /\
    error mB = chainError /\ loaded mB = false.
Proof.
  assert (Hwf : wf chainLoaded) by (apply loadChunk_wf, wf_initialState).
  split; [exact Hwf|].
  destruct (require_failure_marks_both_records chainHost 3 (Runtime (lit "chain.js"))
              chainLoaded idA idB factoryNeedsB [CExport (lit "done") (VBool true)]
              chainError
              (instantiateModule chainHost 3 idB (Parent idA)
                 (set_factoryCalls (fun l => idA :: l) (insertFreshModule idA chainLoaded).2)).2
              Hwf)
    as (st' & mA & E & Hc & Hm & He & Hl & _ & Hb & _).
  - vm_compute. reflexivity.
  - vm_compute. reflexivity.
  - exact idA_neq_idB.
  - vm_compute. reflexivity.
  - reflexivity.
  - vm_compute. reflexivity.
  - destruct Hb as (rB & mB & _ & HcB & HmB & HeB & HlB); [eexists; vm_compute; reflexivity|].
    exists st', mA, rB, mB. repeat split; assumption.
Defined.

(** X12 on a module that requires itself. *)
Lemma self_require_is_answered_from_the_cache_witness :
  exists st',
    instantiateModule selfHost 5 idA (Runtime (lit "self.js")) selfLoaded = (Ok 1, st') /\
    requireTrace st' =
      [{| cap_by := 1; cap_of := idA; cap_module := 1;
          cap_exports := VObject 0; cap_loaded := false |}] /\
    factoryCalls st' = [idA].
Proof.
  destruct (self_require_is_answered_from_the_cache selfHost 5 (Runtime (lit "self.js"))
              selfLoaded idA factoryB [(lit "name", VString (lit "b"))] [])
    as (st' & E & _ & _ & Ht & Hk & _).
  - vm_compute. reflexivity.
  - reflexivity.
  - simpl. lia.
  - exists st'. split; [exact E|]. split; [exact Ht | exact Hk].
Defined.

(** X13 on the module whose factory throws [undefined]. *)
Lemma falsy_throw_is_not_thrown_again_witness :
  instantiateModule quietHost 5 idA (Runtime (lit "quiet.js")) quietLoaded =
    (Throw VUndefined, quietFailed) /\
  exists r m,
    moduleCache quietFailed !! idA = Some r /\ modules quietFailed !! r = Some m /\
    loaded m = false /\
    getOrInstantiateRuntimeModule quietHost 5 idA (lit "quiet.js") quietFailed =
      (Ok r, quietFailed).
Proof.
  assert (E : instantiateModule quietHost 5 idA (Runtime (lit "quiet.js")) quietLoaded =
              (Throw VUndefined, quietFailed)) by (vm_compute; reflexivity).
  split; [exact E|].
  destruct (falsy_throw_is_not_thrown_again quietHost 5 idA (Runtime (lit "quiet.js"))
              quietLoaded factoryThrowsUndefined VUndefined quietFailed)
    as (r & m & Hc & Hm & _ & Hl & Hr & _).
  - apply loadChunk_wf, wf_initialState.
  - vm_compute. reflexivity.
  - vm_compute. reflexivity.
  - exact E.
  - reflexivity.
  - exists r, m. repeat split; auto.
Defined.

(** X15 on two URLs of one chunk, in a host whose [RUNTIME_ROOT] is the
    file URL of the directory of the chunks. *)
Lemma loadChunkAsyncByUrl_shares_the_cache_witness :
  exampleFileURLToPath (lit "shared.js?v=1") (RUNTIME_ROOT sharedUrlHost) =
    UrlPath (lit "/app/shared.js") /\
  exampleFileURLToPath (lit "shared.js?v=2") (RUNTIME_ROOT sharedUrlHost) =
    UrlPath (lit "/app/shared.js") /\
  isJs (lit "/app/shared.js") = true /\
  loadChunkAsyncByUrl sharedUrlHost exampleFileURLToPath (Runtime (lit "/app/main.js"))
    (lit "shared.js?v=1") initialState = (Ok loadedChunk, sharedUrlAsync) /\
  requireLog sharedUrlAsync = [lit "/app/shared.js"] /\
  loadChunkAsyncByUrl sharedUrlHost exampleFileURLToPath (Parent idA) (lit "shared.js?v=2")
    sharedUrlAsync = (Ok loadedChunk, sharedUrlAsync) /\
  loadChunkAsync sharedUrlHost (Parent idA) (ChunkDataPath (lit "/app/shared.js"))
    sharedUrlAsync = (Ok loadedChunk, sharedUrlAsync).
Proof.
  assert (H1 : exampleFileURLToPath (lit "shared.js?v=1") (RUNTIME_ROOT sharedUrlHost) =
               UrlPath (lit "/app/shared.js")) by (vm_compute; reflexivity).
  assert (H2 : exampleFileURLToPath (lit "shared.js?v=2") (RUNTIME_ROOT sharedUrlHost) =
               UrlPath (lit "/app/shared.js")) by (vm_compute; reflexivity).
  assert (Hjs : isJs (lit "/app/shared.js") = true) by (vm_compute; reflexivity).
  assert (E : loadChunkAsyncByUrl sharedUrlHost exampleFileURLToPath
                (Runtime (lit "/app/main.js")) (lit "shared.js?v=1") initialState =
              (Ok loadedChunk, sharedUrlAsync)) by (vm_compute; reflexivity).
  split; [exact H1|]. split; [exact H2|]. split; [exact Hjs|]. split; [exact E|].
  split; [vm_compute; reflexivity|].
  destruct (loadChunkAsyncByUrl_shares_the_cache sharedUrlHost exampleFileURLToPath
              (Runtime (lit "/app/main.js")) (Parent idA) (lit "shared.js?v=1")
              (lit "shared.js?v=2") (lit "/app/shared.js") initialState H1 H2 Hjs)
    as (_ & Hagain & Hpath & _).
  rewrite E in Hagain, Hpath. split; [exact Hagain | exact Hpath].
Defined.

(** X16 on the asset module B, resolved from module A. *)
Lemma resolvePathFromModule_of_asset_witness :
  moduleCache assetReady !! idB = None /\
  exists st',
    resolvePathFromModule assetHost examplePathToFileURL (lit "/_next/") 5 1 idB assetReady =
      (Ok (VString (lit "file:///app/static/logo.png")), st') /\
    moduleCache st' !! idB = Some 3 /\
    factoryCalls st' = [idB; idA].
Proof.
  assert (Hc : moduleCache assetReady !! idB = None) by (vm_compute; reflexivity).
  split; [exact Hc|].
  destruct (resolvePathFromModule_of_asset assetHost examplePathToFileURL (lit "/_next/")
              5 1 (set_loaded true (freshModule idA 0)) idB factoryLogo
              (lit "static/logo.png") assetReady Hc)
    as (st' & m & E & Hc' & _ & _ & _ & Hk & _).
  - vm_compute. reflexivity.
  - left. reflexivity.
  - vm_compute. reflexivity.
  - lia.
  - exists st'. split; [exact E|]. split; [exact Hc' | exact Hk].
Defined.

Lemma sortedSections_example : sortedSections (sections exampleIndexMap).
Proof.
  intros i j a b Hij Ha Hb. unfold offsetLe.
  destruct i as [|[|[|i]]]; destruct j as [|[|[|j]]]; simpl in Ha, Hb;
    try discriminate; try lia;
    injection Ha as <-; injection Hb as <-; simpl; lia.
Qed.

(** X17 on a frame at line 10, column 20: the second of three sections. *)
Lemma findApplicableSourceMapPayload_sorted_witness :
  sortedSections (sections exampleIndexMap) /\
  findApplicableSourceMapPayload 10 20 (IndexPayload exampleIndexMap) =
    Found (Some (examplePayload "b.js")) /\
  exists i section,
    sections exampleIndexMap !! i = Some section /\ map section = examplePayload "b.js" /\
    forall j later, i < j -> sections exampleIndexMap !! j = Some later ->
                    offsetApplies 10 20 (offset later) = false.
Proof.
  split; [exact sortedSections_example|].
  assert (E : findApplicableSourceMapPayload 10 20 (IndexPayload exampleIndexMap) =
              Found (Some (examplePayload "b.js"))) by (vm_compute; reflexivity).
  split; [exact E|].
  pose proof (findApplicableSourceMapPayload_sorted 10 20 exampleIndexMap
                sortedSections_example) as H.
  rewrite E in H. destruct H as (i & section & Hs & Hm & _ & Hlater); [simpl; lia|].
  exists i, section. auto.
Defined.

(** X18 on the same map, at a frame before every section. *)
Lemma findApplicableSourceMapPayload_in_bounds_witness :
  (Z.of_nat (length (sections exampleIndexMap)) < 2 ^ 31)%Z /\
  exists result,
    findApplicableSourceMapPayload (-1) 0 (IndexPayload exampleIndexMap) = Found result.
Proof.
  assert (Hlen : (Z.of_nat (length (sections exampleIndexMap)) < 2 ^ 31)%Z) by (simpl; lia).
  split; [exact Hlen|].
  destruct (findApplicableSourceMapPayload_in_bounds (-1) 0 exampleIndexMap Hlen)
    as (result & E & _).
  exists result. exact E.
Defined.

(** X19 on a payload that lists both of its sources. *)
Lemma sourceMapIgnoreListsEverything_valid_witness :
  validIgnoreList ignoredPayload /\
  sourceMapIgnoreListsEverything ignoredPayload = true /\
  exists l, ignoreList ignoredPayload = Some l /\
            forall i, i < length (sources ignoredPayload) -> Z.of_nat i ∈ l.
Proof.
  assert (Hvalid : validIgnoreList ignoredPayload).
  { split.
    - apply NoDup_cons. split; [|apply NoDup_singleton].
      intros H. apply list_elem_of_singleton in H. discriminate H.
    - intros i Hi. simpl.
      apply elem_of_cons in Hi as [-> | Hi]; [lia|].
      apply list_elem_of_singleton in Hi. lia. }
  split; [exact Hvalid|]. split; [reflexivity|].
  apply (proj1 (sourceMapIgnoreListsEverything_valid ignoredPayload Hvalid)). reflexivity.
Defined.

Lemma slash_not_in_Server : ch "/" ∉ lit "Server".
Proof.
  intros H. repeat (apply elem_of_cons in H as [H | H]; [discriminate H|]). inversion H.
Qed.

Lemma question_not_in_42 : ch "?" ∉ lit "42".
Proof.
  intros H. repeat (apply elem_of_cons in H as [H | H]; [discriminate H|]). inversion H.
Qed.

(** X20 on the URL of a server component, with a [decodeURI] that finds
    nothing to decode. *)
Lemma devirtualizeReactServerURL_virtual_witness :
  (ch "/" ∉ lit "Server") /\ (ch "?" ∉ lit "42") /\
  devirtualizeReactServerURL DecodedString
    (lit "rsc://React/Server/file:///app/page.js?x=1?42") =
    DecodedString (lit "file:///app/page.js?x=1").
Proof.
  split; [exact slash_not_in_Server|]. split; [exact question_not_in_42|].
  exact (proj1 (devirtualizeReactServerURL_virtual DecodedString (lit "Server")
                  (lit "file:///app/page.js?x=1") (lit "42") []
                  slash_not_in_Server question_not_in_42)).
Defined.

(** A stack of five frames: between two ignored frames, two anonymous
    frames of native methods around a frame of the user's.  The frames 1 to
    3 are one sandwich, closed by frame 4, and they are what is passed to
    [ignoreFrame]. *)
Lemma exampleFrames_sandwich :
  sandwichAt frame_anonymous frame_ignored frame_methodName exampleFrames 1 4 /\
  ignoreListAnonymousStackFramesIfSandwiched frame_anonymous frame_ignored frame_methodName
    exampleFrames = Some [1; 2; 3].
Proof.
  split; [|vm_compute; reflexivity].
  split; [lia|]. split; [lia|].
  split; [eexists; split; reflexivity|]. split; [eexists; split; reflexivity|].
  split; [eexists; split; reflexivity|].
  intros k frame Hik Hkj Hk.
  destruct k as [|[|[|[|k]]]]; try lia; simpl in Hk; injection Hk as <-; reflexivity.
Qed.

(** ** A chunk loaded twice *)

Section Reload.

Context (env : Env).

Lemma registerFactories_idempotent mf table :
  registerFactories (registerFactories mf table) table = registerFactories mf table.
Proof.
  apply registerFactories_registered. intros k Hk. apply registerFactories_primaries, Hk.
Qed.

(** X23.  A chunk that both loaders load is registered once.  When the file
    of a JavaScript chunk gives the same table each time it is required,
    and neither loader has the path yet, [loadChunkPath] followed by
    [loadChunkAsync], and [loadChunkAsync] followed by [loadChunkPath],
    require the file twice, and the second load leaves every factory as the
    first load registered it. *)
Theorem chunk_loaded_by_both_loaders_registers_once
    chunkPath source source' st chunkModules :
  isJs chunkPath = true -> chunkPath ∉ loadedChunks st -> chunkCache st !! chunkPath = None ->
  (forall log, node_require env log (resolved env chunkPath) = Required chunkModules) ->
  let once := registerFactories (moduleFactories st) chunkModules in
  let twice := requireLog st ++ [resolved env chunkPath; resolved env chunkPath] in
  (let st1 := (loadChunkPath env chunkPath source st).2 in
   let st2 := (loadChunkAsync env source' (ChunkDataPath chunkPath) st1).2 in
   moduleFactories st1 = once /\ moduleFactories st2 = once /\ requireLog st2 = twice) /\
  (let st1 := (loadChunkAsync env source' (ChunkDataPath chunkPath) st).2 in
   let st2 := (loadChunkPath env chunkPath source st1).2 in
   moduleFactories st1 = once /\ moduleFactories st2 = once /\ requireLog st2 = twice).
Proof.
  intros Hjs Hnew Hnone Hreq once twice.
  split.
  - rewrite (loadChunkPath_required env chunkPath source st chunkModules Hjs Hnew (Hreq _)).
    cbv zeta. cbn [snd].
    split; [reflexivity|].
    rewrite (loadChunkAsync_required env source' (ChunkDataPath chunkPath) _ chunkModules);
      [| exact Hjs | exact Hnone | apply Hreq].
    cbn [snd]. simpl. split; [apply registerFactories_idempotent|].
    unfold twice. rewrite <- app_assoc. reflexivity.
  - rewrite (loadChunkAsync_required env source' (ChunkDataPath chunkPath) st chunkModules Hjs
               Hnone (Hreq _)).
    cbv zeta. cbn [snd].
    split; [reflexivity|].
    rewrite (loadChunkPath_required env chunkPath source _ chunkModules);
      [| exact Hjs | exact Hnew | apply Hreq].
    cbn [snd]. simpl. split; [apply registerFactories_idempotent|].
    unfold twice. rewrite <- app_assoc. reflexivity.
Qed.

End Reload.

(** X23 on the chunk of [sharedHost]. *)
Lemma chunk_loaded_by_both_loaders_registers_once_witness :
  isJs (lit "shared.js") = true /\
  moduleFactories
    (loadChunkAsync sharedHost (Parent idA) (ChunkDataPath (lit "shared.js")) sharedLoaded).2 =
    moduleFactories sharedLoaded /\
  requireLog
    (loadChunkAsync sharedHost (Parent idA) (ChunkDataPath (lit "shared.js")) sharedLoaded).2 =
    [lit "/app/shared.js"; lit "/app/shared.js"].
Proof.
  assert (Hjs : isJs (lit "shared.js") = true) by (vm_compute; reflexivity).
  split; [exact Hjs|].
  destruct (chunk_loaded_by_both_loaders_registers_once sharedHost (lit "shared.js") None
              (Parent idA) initialState [(idA, Shared factory1 [idB; idC])] Hjs)
    as [(H1 & H2 & H3) _].
  - intros H. inversion H.
  - reflexivity.
  - intros log. vm_compute. reflexivity.
  - unfold sharedLoaded. cbv zeta in H1, H2, H3. split; [congruence | exact H3].
Defined.

(** ** A failure that is caught *)

Section Caught.

Context (env : Env).

(** X24.  A failure is recorded whether or not it is caught.  When the
    factory of [a] requires [b] inside a [try] whose handler does nothing,
    and the factory of [b] throws [v], the instantiation of [a] succeeds
    and its record is loaded without error, while the record of [b] stays
    cached with [error = v] and [loaded = false]. *)
Theorem caught_failure_is_still_recorded n source st a b fa fb v st3 :
  wf st -> moduleCache st !! a = None -> moduleCache st !! b = None -> a <> b ->
  moduleFactories st !! a = Some fa -> fbody fa = [CTry [CRequire b] []] ->
  moduleFactories st !! b = Some fb ->
  let rA := S (nextRef st) in
  let st1 := set_factoryCalls (fun l => a :: l) (insertFreshModule a st).2 in
  instantiateModule env n b (Parent a) st1 = (Throw v, st3) ->
  exists st' mA rB mB,
    instantiateModule env (S (S (S n))) a source st = (Ok rA, st') /\
    moduleCache st' !! a = Some rA /\ modules st' !! rA = Some mA /\
    loaded mA = true /\ error mA = VUndefined /\
    rB <> rA /\ moduleCache st' !! b = Some rB /\ modules st' !! rB = Some mB /\
    error mB = v /\ loaded mB = false.
Proof.
  intros Hwf Hca Hcb Hab Hfa Hbody Hfb rA st1 Hb.
  destruct (insertFreshModule_spec a st Hwf Hca) as (_ & Hwf1 & Hext1 & Hc1 & Hm1 & _ & Hnew).
  cbv zeta in Hwf1, Hext1, Hc1, Hm1. fold st1 in Hwf1, Hext1, Hc1, Hm1. fold rA in Hc1, Hm1.
  assert (Hcb1 : moduleCache st1 !! b = None).
  { unfold st1. simpl. rewrite lookup_insert_ne by congruence. exact Hcb. }
  destruct (proj1 (instantiate_preserves env n) b (Parent a) _ _ _ Hwf1 Hcb1 Hb) as [Hwf3 Hext3].
  pose proof (ext_cache _ _ Hext3 _ _ Hc1) as Hc3.
  destruct (ext_records _ _ Hext3 _ _ Hm1) as (m3 & Hm3 & _ & Hl3 & He3).
  destruct (instantiateModule_registered env n b (Parent a) st1 fb _ _ Hwf1 Hcb1 Hfb Hb)
    as (Hcb3 & _ & _ & mB & HmB & _ & Hthrow & _).
  destruct (Hthrow v eq_refl) as [HeB HlB].
  assert (Hne : S (nextRef st1) <> rA) by (unfold st1, rA; simpl; lia).
  assert (Hrun : runFactory env (S (S n)) (fbody fa)
                   {| ctx_m := S (nextRef st); ctx_e := nextRef st; ctx_id := a |} st1 =
                 (Ok tt, st3)).
  { rewrite Hbody, runFactory_unfold. simpl execCmd. unfold bind at 1. unfold tryCatch.
    unfold bind at 1. unfold commonJsRequire_. unfold bind at 1.
    unfold getOrInstantiateModuleFromParent_. rewrite Hcb1.
    unfold bind at 1. unfold readModule at 1. fold rA. rewrite Hm1.
    change (idOf (freshModule a (nextRef st))) with a. rewrite Hb.
    unfold ret at 1. rewrite runFactory_nil. reflexivity. }
  destruct (finishModule env rA st3) as [out st'] eqn:Hfin.
  destruct (finishModule_spec env rA st st3 out st' Hwf3 (extends_trans _ _ _ Hext1 Hext3)
              Hnew Hfin) as (_ & _ & Hc' & Hm' & _ & Hout).
  specialize (Hout (ex_intro _ m3 Hm3)). subst out.
  exists st', (set_loaded true m3), (S (nextRef st1)), mB.
  split.
  { rewrite instantiateModule_unfold, Hfa. cbv zeta.
    change (set_factoryCalls (fun l => a :: l) (insertFreshModule a st).2) with st1.
    rewrite Hrun. exact Hfin. }
  rewrite Hc', Hm'. split; [exact Hc3|].
  split; [rewrite lookup_alter_eq, Hm3; reflexivity|].
  split; [reflexivity|]. split; [exact He3|]. split; [exact Hne|]. split; [exact Hcb3|].
  split; [rewrite lookup_alter_ne by congruence; exact HmB|]. split; assumption.
Qed.

End Caught.


(** X24 on module A that guards its require of module B. *)
Lemma caught_failure_is_still_recorded_witness :
  wf guardLoaded /\
  exists st' mA rB mB,
    instantiateModule guardHost 5 idA (Runtime (lit "guard.js")) guardLoaded = (Ok 1, st') /\
    modules st' !! 1 = Some mA /\ loaded mA = true /\ error mA = VUndefined /\
    moduleCache st' !! idB = Some rB /\ modules st' !! rB = Some mB /\
    error mB = VError 4 (lit "boom") None /\ loaded mB = false.
Proof.
  assert (Hwf : wf guardLoaded) by (apply loadChunk_wf, wf_initialState).
  split; [exact Hwf|].
  destruct (caught_failure_is_still_recorded guardHost 2 (Runtime (lit "guard.js"))
              guardLoaded idA idB factoryGuarded factoryBoom (VError 4 (lit "boom") None)
              (instantiateModule guardHost 2 idB (Parent idA)
                 (set_factoryCalls (fun l => idA :: l) (insertFreshModule idA guardLoaded).2)).2
              Hwf)
    as (st' & mA & rB & mB & E & _ & Hm & Hl & He & _ & HcB & HmB & HeB & HlB).
  - vm_compute. reflexivity.
  - vm_compute. reflexivity.
  - exact idA_neq_idB.
  - vm_compute. reflexivity.
  - reflexivity.
  - vm_compute. reflexivity.
  - vm_compute. reflexivity.
  - exists st', mA, rB, mB. repeat split; assumption.
Defined.
